(** * ConcurrentHashMap.h: a striped-lock, fixed-capacity hash map

    Shallow embedding of the header [ConcurrentHashMap.h] (classes
    [ConcurrentHashmapException], [ConcurrentHashmap] and its nested
    [NodeList]) and proofs of the properties its specification states.

    Conventions of the embedding.
    - [std::size_t] is a 64-bit unsigned integer: a [Z] in [0, SIZE_MAX],
      with the wrap-around of [+], [++] and [--] written out ([wrap]).
    - A chain ([NodeList]) is the list of its nodes from [mHead] on; the
      [next] link of a node is the tail of the list, [nullptr] is [[]].
      A [Node*] into a chain is the number of [next] links to follow from
      [mHead].
    - The bucket array [mTable] and the mutex array [mMutexes] are lists
      read by index; a mutex is [true] while it is locked.
    - [Key] has a decidable equality, which both [operator==] and
      [operator!=] of the key type compute.
    - An exception is a constructor of the result ([Throws]); a call that
      finds its stripe mutex locked does not return ([Blocks]); an array
      read outside its bounds or a division by zero is [Undefined].
    - A member function runs as one step on the state of the container;
      the sections on threads split the member functions into their
      steps and interleave the steps of several threads. *)

From Stdlib Require Import ZArith Lia.
From stdpp Require Import base decidable option list relations gmap.

Local Open Scope Z_scope.

(** ** [std::size_t] *)

Definition SIZE_MAX : Z := 2 ^ 64 - 1.

(** Reduction of an arithmetic result to the range of [std::size_t]. *)
Definition wrap (z : Z) : Z := z mod 2 ^ 64.

(** The values a [std::size_t] parameter can hold. *)
Definition is_size_t (z : Z) : Prop := 0 <= z <= SIZE_MAX.

(** Object sizes of the LP64 ABI: a pointer has 8 bytes, [NodeList] holds
    one pointer ([mHead]), and [std::mutex] is a [pthread_mutex_t]. The
    proofs only use that a pointer has at least 2 bytes. *)
Definition sizeof_pointer : Z := 8.
Definition sizeof_NodeList : Z := sizeof_pointer.
Definition sizeof_mutex : Z := 40.

(** [new T[count]]: the array new-expression throws
    [std::bad_array_new_length] when the byte size of the array is not
    representable in [std::size_t]. This is the weakest guard an
    implementation applies; running out of memory is not modelled. *)
Definition array_new_fits (count elem_size : Z) : bool :=
  count * elem_size <=? SIZE_MAX.

(** ** [ConcurrentHashmapException] *)

Inductive ConcurrentHashmapException : Set :=
  | InvalidCapacity
  | InvalidConcurrencyLevel
  | KeyNotFound.

(** What a constructor call can throw: the class's own exception with its
    code, or the language's exception of the array new-expression. *)
Inductive exception : Set :=
  | HashmapException (code : ConcurrentHashmapException)
  | bad_array_new_length.

(** ** [ConcurrentHashmap::NodeList] *)

Module NodeList.
Section NodeList.
Context {Key Value : Type} `{EqDecision Key}.

(** [struct Node { const Key key; Value value; Node* next; }], the link
    being the position in the chain. *)
Record Node : Type := mkNode { key : Key; value : Value }.

(** The chain hanging off [mHead]. *)
Local Abbreviation t := (list Node).

(** [NodeList()]: [mHead(nullptr)]. *)
Definition empty : t := [].

(** [find]: follows [next] while [node && node->key != key]; the result
    is the node reached ([None] is [nullptr]). *)
Fixpoint find (k : Key) (node : t) : option nat :=
  match node with
  | [] => None
  | n :: next =>
      if bool_decide (key n ≠ k) then S <$> find k next else Some 0%nat
  end.

(** [node->value = value] through the pointer [find] returned. *)
Definition assign (v : Value) (n : Node) : Node :=
  {| key := key n; value := v |}.

(** [insert]: overwrites the value of the node [find] returns, or links a
    new node in front of [mHead]. Returns the chain and the [bool]. *)
Definition insert (k : Key) (v : Value) (l : t) : t * bool :=
  match find k l with
  | Some node => (alter (assign v) node l, false)
  | None => ({| key := k; value := v |} :: l, true)
  end.

(** [deleteHead]: [mHead = mHead->next]. *)
Definition deleteHead (l : t) : t := tail l.

(** The loop of [erase] from [node = prev->next] on: the chain that
    hangs off [prev->next] after the unlinking, or [None] when the loop
    ends with [node == nullptr]. *)
Fixpoint unlink (k : Key) (node : t) : option t :=
  match node with
  | [] => None
  | n :: next =>
      if bool_decide (key n ≠ k) then (n ::.) <$> unlink k next
      else Some next
  end.

(** [erase]. Returns the chain and the [bool]. *)
Definition erase (k : Key) (l : t) : t * bool :=
  match l with
  | [] => (l, false)
  | head :: next =>
      if bool_decide (key head = k) then (deleteHead l, true)
      else
        match unlink k next with
        | Some next' => (head :: next', true)
        | None => (l, false)
        end
  end.

(** The keys of a chain, from the head on. *)
Definition keys (l : t) : list Key := key <$> l.
End NodeList.
Global Arguments Node : clear implicits.
Abbreviation t Key Value := (list (Node Key Value)).
End NodeList.

(** ** [ConcurrentHashmap] *)

Module ConcurrentHashmap.
Section Members.
Context {Key Value : Type} `{EqDecision Key}.

Local Abbreviation Node := (NodeList.Node Key Value).
Local Abbreviation chain := (NodeList.t Key Value).

(** The data members, in declaration order. *)
Record t : Type := mkHashmap {
  mCapacity : Z;
  mMutexCount : Z;
  mIndicesPerMutex : Z;
  mHasher : Key -> Z;
  mSize : Z;
  mTable : list chain;
  mMutexes : list bool
}.

(** [getMutexCount]. *)
Definition getMutexCount (capacity concurrencyLevel : Z)
  : ConcurrentHashmapException + Z :=
  if capacity =? 0 then inl InvalidCapacity
  else if concurrencyLevel =? 0 then inl InvalidConcurrencyLevel
  else inr (Z.min concurrencyLevel capacity).

(** [getIndicesPerMutex]. *)
Definition getIndicesPerMutex (capacity mutexCount : Z) : Z :=
  if negb (capacity mod mutexCount =? 0)
  then wrap (capacity + mutexCount) / mutexCount
  else capacity / mutexCount.

(** The constructor: the member initialisers run in declaration order,
    so [getMutexCount] throws before anything is allocated. *)
Definition construct (capacity concurrencyLevel : Z) (hasher : Key -> Z)
  : exception + t :=
  match getMutexCount capacity concurrencyLevel with
  | inl code => inl (HashmapException code)
  | inr mutexCount =>
      let indicesPerMutex := getIndicesPerMutex capacity mutexCount in
      if negb (array_new_fits capacity sizeof_NodeList)
      then inl bad_array_new_length
      else if negb (array_new_fits mutexCount sizeof_mutex)
      then inl bad_array_new_length
      else inr {| mCapacity := capacity;
                  mMutexCount := mutexCount;
                  mIndicesPerMutex := indicesPerMutex;
                  mHasher := hasher;
                  mSize := 0;
                  mTable := replicate (Z.to_nat capacity) NodeList.empty;
                  mMutexes := replicate (Z.to_nat mutexCount) false |}
  end.

Definition capacity (m : t) : Z := mCapacity m.

Definition size (m : t) : Z := mSize m.

(** [getIndex]. The hasher returns a [std::size_t]; the remainder is in
    [0, mCapacity) whatever it returns. *)
Definition getIndex (m : t) (k : Key) : Z := mHasher m k mod mCapacity m.

(** [getMutex]: the index into [mMutexes]; [None] is the division by
    zero. *)
Definition getMutex (m : t) (tableIndex : Z) : option Z :=
  if mIndicesPerMutex m =? 0 then None
  else Some (tableIndex / mIndicesPerMutex m).

(** How a member function call ends. *)
Inductive outcome (A : Type) : Type :=
  | Returns (a : A) (m : t)
  | Throws (code : ConcurrentHashmapException) (m : t)
  | Blocks
  | Undefined.
Global Arguments Returns {A} a m.
Global Arguments Throws {A} code m.
Global Arguments Blocks {A}.
Global Arguments Undefined {A}.

(** Writing the state of mutex [i]. *)
Definition set_mutex (i : Z) (locked : bool) (m : t) : t :=
  {| mCapacity := mCapacity m; mMutexCount := mMutexCount m;
     mIndicesPerMutex := mIndicesPerMutex m; mHasher := mHasher m;
     mSize := mSize m; mTable := mTable m;
     mMutexes := <[Z.to_nat i := locked]> (mMutexes m) |}.

(** The constructor of [std::lock_guard] / [std::unique_lock] on
    [getMutex(index)], followed by the guarded body, which receives the
    index of the mutex it holds. *)
Definition locked {A} (m : t) (index : Z)
    (body : Z -> t -> outcome A) : outcome A :=
  match getMutex m index with
  | None => Undefined
  | Some i =>
      match mMutexes m !! Z.to_nat i with
      | None => Undefined
      | Some true => Blocks
      | Some false => body i (set_mutex i true m)
      end
  end.

(** The destructor of the lock object, and [unique_lock::unlock]. *)
Definition unlock (i : Z) (m : t) : t := set_mutex i false m.

(** [mTable[index]]. *)
Definition bucket (m : t) (index : Z) : option chain :=
  mTable m !! Z.to_nat index.

Definition set_bucket (index : Z) (c : chain) (m : t) : t :=
  {| mCapacity := mCapacity m; mMutexCount := mMutexCount m;
     mIndicesPerMutex := mIndicesPerMutex m; mHasher := mHasher m;
     mSize := mSize m; mTable := <[Z.to_nat index := c]> (mTable m);
     mMutexes := mMutexes m |}.

(** [++mSize] and [--mSize] on the atomic counter. *)
Definition set_size (n : Z) (m : t) : t :=
  {| mCapacity := mCapacity m; mMutexCount := mMutexCount m;
     mIndicesPerMutex := mIndicesPerMutex m; mHasher := mHasher m;
     mSize := n; mTable := mTable m; mMutexes := mMutexes m |}.

Definition incr_size (m : t) : t := set_size (wrap (mSize m + 1)) m.
Definition decr_size (m : t) : t := set_size (wrap (mSize m - 1)) m.

(** [find]. *)
Definition find (k : Key) (m : t) : outcome bool :=
  let index := getIndex m k in
  locked m index (fun lock m =>
    match bucket m index with
    | None => Undefined
    | Some c =>
        Returns (bool_decide (NodeList.find k c ≠ None)) (unlock lock m)
    end).

(** [getCopy]. *)
Definition getCopy (k : Key) (m : t) : outcome Value :=
  let index := getIndex m k in
  locked m index (fun lock m =>
    match bucket m index with
    | None => Undefined
    | Some c =>
        match NodeList.find k c ≫= (c !!.) with
        | Some node => Returns (NodeList.value node) (unlock lock m)
        | None => Throws KeyNotFound (unlock lock m)
        end
    end).

(** [LockedValue]: the referenced value and the mutex the moved
    [unique_lock] owns. *)
Record LockedValue : Type := mkLockedValue { first : Value; second : Z }.

(** [get]: on success the lock is moved into the result and stays
    locked; the throw unwinds through the destructor of [lock]. *)
Definition get (k : Key) (m : t) : outcome LockedValue :=
  let index := getIndex m k in
  locked m index (fun lock m =>
    match bucket m index with
    | None => Undefined
    | Some c =>
        match NodeList.find k c ≫= (c !!.) with
        | Some node =>
            Returns {| first := NodeList.value node; second := lock |} m
        | None => Throws KeyNotFound (unlock lock m)
        end
    end).

(** [insert]. *)
Definition insert (k : Key) (v : Value) (m : t) : outcome unit :=
  let index := getIndex m k in
  locked m index (fun lock m =>
    match bucket m index with
    | None => Undefined
    | Some c =>
        let '(c', inserted) := NodeList.insert k v c in
        let m := set_bucket index c' m in
        let m := if inserted then incr_size m else m in
        Returns () (unlock lock m)
    end).

(** [erase]. *)
Definition erase (k : Key) (m : t) : outcome unit :=
  let index := getIndex m k in
  locked m index (fun lock m =>
    match bucket m index with
    | None => Undefined
    | Some c =>
        let '(c', erased) := NodeList.erase k c in
        let m := set_bucket index c' m in
        let m := if erased then decr_size m else m in
        Returns () (unlock lock m)
    end).
End Members.
Global Arguments t : clear implicits.
Global Arguments outcome : clear implicits.
Global Arguments LockedValue : clear implicits.
End ConcurrentHashmap.

(** A short name for the class in what follows. *)
Module Hashmap := ConcurrentHashmap.

(** ** Observations and invariants *)

Section Observations.
Context {Key Value : Type} `{EqDecision Key}.

Local Abbreviation chain := (NodeList.t Key Value).
Local Abbreviation hashmap := (Hashmap.t Key Value).

(** The value [find(key)->value] reads in a chain, if [find] returns a
    node. *)
Definition chain_value (k : Key) (c : chain) : option Value :=
  NodeList.value <$> (NodeList.find k c ≫= (c !!.)).

(** The value stored for a key: read in the bucket [getIndex] selects. *)
Definition stored (m : hashmap) (k : Key) : option Value :=
  Hashmap.bucket m (Hashmap.getIndex m k) ≫= chain_value k.

(** The state of the stripe mutex an operation on [k] locks. *)
Definition stripe_mutex (m : hashmap) (k : Key) : option bool :=
  Hashmap.getMutex m (Hashmap.getIndex m k)
    ≫= fun i => Hashmap.mMutexes m !! Z.to_nat i.

(** Number of live nodes in all chains. *)
Definition entries (m : hashmap) : Z :=
  Z.of_nat (length (concat (Hashmap.mTable m))).

(** The chain invariant: no key twice in a chain, and every node in the
    bucket its key hashes to. *)
Definition chain_inv (m : hashmap) : Prop :=
  forall (i : nat) (c : chain), Hashmap.mTable m !! i = Some c ->
    NoDup (NodeList.keys c) /\
    forall k, k ∈ NodeList.keys c -> Z.to_nat (Hashmap.getIndex m k) = i.

(** What the constructor establishes for the configuration members and
    the two arrays. *)
Record config_ok (m : hashmap) : Prop := mkConfigOk {
  cfg_mutexCount : 1 <= Hashmap.mMutexCount m <= Hashmap.mCapacity m;
  cfg_capacity : Hashmap.mCapacity m * sizeof_NodeList <= SIZE_MAX;
  cfg_indices :
    Hashmap.mIndicesPerMutex m =
    Hashmap.getIndicesPerMutex (Hashmap.mCapacity m) (Hashmap.mMutexCount m);
  cfg_table : length (Hashmap.mTable m) = Z.to_nat (Hashmap.mCapacity m);
  cfg_mutexes : length (Hashmap.mMutexes m) = Z.to_nat (Hashmap.mMutexCount m)
}.

(** What an operation leaves as it found it: the configuration members,
    the hasher, the mutexes and the size of the bucket array. *)
Record same_frame (m m' : hashmap) : Prop := mkSameFrame {
  frame_capacity : Hashmap.mCapacity m' = Hashmap.mCapacity m;
  frame_mutexCount : Hashmap.mMutexCount m' = Hashmap.mMutexCount m;
  frame_indices : Hashmap.mIndicesPerMutex m' = Hashmap.mIndicesPerMutex m;
  frame_hasher : Hashmap.mHasher m' = Hashmap.mHasher m;
  frame_mutexes : Hashmap.mMutexes m' = Hashmap.mMutexes m;
  frame_table : length (Hashmap.mTable m') = length (Hashmap.mTable m)
}.

(** The [const] members, which no member function assigns. *)
Definition same_config (m m' : hashmap) : Prop :=
  Hashmap.mCapacity m' = Hashmap.mCapacity m /\
  Hashmap.mMutexCount m' = Hashmap.mMutexCount m /\
  Hashmap.mIndicesPerMutex m' = Hashmap.mIndicesPerMutex m /\
  Hashmap.mHasher m' = Hashmap.mHasher m.

(** A key is in the map when some chain has a node with it. *)
Definition contains (m : hashmap) (k : Key) : Prop :=
  k ∈ NodeList.keys (concat (Hashmap.mTable m)).

(** A well-formed container: the configuration, the chain invariant, and
    the counter, which is the number of live nodes as a [std::size_t]. *)
Record wf (m : hashmap) : Prop := mkWf {
  wf_config : config_ok m;
  wf_chains : chain_inv m;
  wf_size : Hashmap.mSize m = wrap (entries m)
}.

(** Every live node is an object of its own that holds a [next] pointer,
    so the nodes of a container that exists in a 64-bit address space
    number at most [SIZE_MAX / 8]. *)
Definition in_memory (m : hashmap) : Prop :=
  entries m * sizeof_pointer <= SIZE_MAX.

(** A member function call, or the release of the lock a [LockedValue]
    holds, by some thread. *)
Inductive call : Type :=
  | CallCapacity
  | CallSize
  | CallFind (k : Key)
  | CallGetCopy (k : Key)
  | CallGet (k : Key)
  | CallInsert (k : Key) (v : Value)
  | CallErase (k : Key)
  | CallUnlock (lv : Hashmap.LockedValue Value).

(** The state a call that returns or throws leaves behind. *)
Definition final {A} (o : Hashmap.outcome Key Value A) : option hashmap :=
  match o with
  | Hashmap.Returns _ m => Some m
  | Hashmap.Throws _ m => Some m
  | Hashmap.Blocks => None
  | Hashmap.Undefined => None
  end.

Definition after (c : call) (m : hashmap) : option hashmap :=
  match c with
  | CallCapacity => Some m
  | CallSize => Some m
  | CallFind k => final (Hashmap.find k m)
  | CallGetCopy k => final (Hashmap.getCopy k m)
  | CallGet k => final (Hashmap.get k m)
  | CallInsert k v => final (Hashmap.insert k v m)
  | CallErase k => final (Hashmap.erase k m)
  | CallUnlock lv =>
      match Hashmap.mMutexes m !! Z.to_nat (Hashmap.second lv) with
      | Some true => Some (Hashmap.unlock (Hashmap.second lv) m)
      | _ => None
      end
  end.

(** No [LockedValue] is outstanding: the stripe mutex of every key is
    free. *)
Definition idle (m : hashmap) : Prop :=
  forall k, stripe_mutex m k = Some false.

(** A sequence of [insert] calls, as the tests make them: the state after
    the last one, if all return. *)
Fixpoint insert_all (kvs : list (Key * Value)) (m : hashmap)
  : option hashmap :=
  match kvs with
  | [] => Some m
  | (k, v) :: rest => final (Hashmap.insert k v m) ≫= insert_all rest
  end.

(** One call in the container's life, and its lifetime from a state
    on. *)
Definition call_step (m m' : hashmap) : Prop := exists c, after c m = Some m'.

Definition lifetime (m0 m : hashmap) : Prop := rtc call_step m0 m.

(** The exact ceiling of the quotient [a / b] for [b > 0]: the least
    integer [q] with [a <= b * q]. *)
Definition is_ceil_div (a b q : Z) : Prop := b * (q - 1) < a <= b * q.
End Observations.

(** ** Threads calling [insert] on one shared container

    A thread runs a list of [insert(key, value)] calls, as the inserter
    threads of the tests do. Inside a call it takes the steps of
    [ConcurrentHashmap::insert] one at a time, and the steps of different
    threads interleave in any order. The steps are: the constructor of
    the [lock_guard], enabled only while the mutex is free; the scan of
    the chain by [NodeList::insert]; its write to the chain, computed from
    what the scan read; the atomic [++mSize]; the destructor of the
    [lock_guard]. Scan and write are separate steps, so that a chain
    written by two threads at once would lose a node: it is the mutex that
    has to exclude this. *)

Module Threads.
Section Threads.
Context {Key Value : Type} `{EqDecision Key}.

Local Abbreviation chain := (NodeList.t Key Value).
Local Abbreviation hashmap := (Hashmap.t Key Value).

(** Where a thread stands. *)
Inductive point : Type :=
  | Ready
  | Locked (lock : Z) (k : Key) (v : Value)
  | Scanned (lock : Z) (k : Key) (v : Value) (c : chain)
  | Inserted (lock : Z) (inserted : bool)
  | Counted (lock : Z).

(** A thread: where it stands, and the calls it has still to make. *)
Record thread : Type := mkThread {
  at_point : point;
  todo : list (Key * Value)
}.

(** One step of a thread on the shared container; [None] when the thread
    has finished, when it waits for its mutex, and where the call would be
    undefined (a division by zero, an index outside an array). *)
Definition thread_step (m : hashmap) (th : thread)
  : option (hashmap * thread) :=
  match at_point th with
  | Ready =>
      match todo th with
      | [] => None
      | (k, v) :: rest =>
          match Hashmap.getMutex m (Hashmap.getIndex m k) with
          | None => None
          | Some i =>
              match Hashmap.mMutexes m !! Z.to_nat i with
              | Some false =>
                  Some (Hashmap.set_mutex i true m,
                        {| at_point := Locked i k v; todo := rest |})
              | _ => None
              end
          end
      end
  | Locked i k v =>
      match Hashmap.bucket m (Hashmap.getIndex m k) with
      | Some c =>
          Some (m, {| at_point := Scanned i k v c; todo := todo th |})
      | None => None
      end
  | Scanned i k v c =>
      let '(c', inserted) := NodeList.insert k v c in
      Some (Hashmap.set_bucket (Hashmap.getIndex m k) c' m,
            {| at_point := Inserted i inserted; todo := todo th |})
  | Inserted i inserted =>
      Some (if inserted then Hashmap.incr_size m else m,
            {| at_point := Counted i; todo := todo th |})
  | Counted i =>
      Some (Hashmap.unlock i m, {| at_point := Ready; todo := todo th |})
  end.

(** The shared container and the threads. *)
Record system : Type := mkSystem {
  shared : hashmap;
  threads : list thread
}.

(** Thread [t] takes its next step. *)
Definition step_thread (t : nat) (s : system) : option system :=
  match threads s !! t with
  | None => None
  | Some th =>
      match thread_step (shared s) th with
      | None => None
      | Some (m', th') =>
          Some {| shared := m'; threads := <[t:=th']> (threads s) |}
      end
  end.

(** Some thread takes a step. *)
Definition step (s s' : system) : Prop :=
  exists t, step_thread t s = Some s'.

(** The threads are started on the container, one for each list of
    calls. *)
Definition start (m : hashmap) (calls : list (list (Key * Value)))
  : system :=
  {| shared := m;
     threads := (fun p => {| at_point := Ready; todo := p |}) <$> calls |}.

(** Every thread has returned from its last call. *)
Definition finished (s : system) : Prop :=
  forall t th,
    threads s !! t = Some th -> at_point th = Ready /\ todo th = [].

(** [n] steps of one thread with no other thread in between. *)
Fixpoint run (n : nat) (m : hashmap) (th : thread)
  : option (hashmap * thread) :=
  match n with
  | O => Some (m, th)
  | S n =>
      match thread_step m th with
      | None => None
      | Some (m', th') => run n m' th'
      end
  end.

(** The mutex a thread holds. *)
Definition holds (th : thread) : option Z :=
  match at_point th with
  | Ready => None
  | Locked i _ _ => Some i
  | Scanned i _ _ _ => Some i
  | Inserted i _ => Some i
  | Counted i => Some i
  end.

(** The pairs a thread has not written to a chain yet. *)
Definition pending (th : thread) : list (Key * Value) :=
  match at_point th with
  | Locked _ k v => (k, v) :: todo th
  | Scanned _ k v _ => (k, v) :: todo th
  | _ => todo th
  end.

Definition all_pending (ths : list thread) : list (Key * Value) :=
  concat (pending <$> ths).

(** 1 for a thread that has linked a node and not counted it yet. *)
Definition uncounted (th : thread) : Z :=
  match at_point th with
  | Inserted _ true => 1
  | _ => 0
  end.

(** Steps a thread has still to take. *)
Definition steps_left (th : thread) : Z :=
  match at_point th with
  | Ready => 0
  | Locked _ _ _ => 4
  | Scanned _ _ _ _ => 3
  | Inserted _ _ => 2
  | Counted _ => 1
  end + 5 * Z.of_nat (length (todo th)).

(** Sum of a quantity over the threads. *)
Definition total (f : thread -> Z) (ths : list thread) : Z :=
  foldr Z.add 0 (f <$> ths).

(** What a thread inside a call knows about its key: the mutex it holds
    is the one of the key's stripe, and the chain it scanned is the chain
    of the key's bucket. *)
Definition stripe_ok (m : hashmap) (th : thread) : Prop :=
  match at_point th with
  | Locked i k _ => Hashmap.getMutex m (Hashmap.getIndex m k) = Some i
  | Scanned i k _ c =>
      Hashmap.getMutex m (Hashmap.getIndex m k) = Some i /\
      Hashmap.bucket m (Hashmap.getIndex m k) = Some c
  | _ => True
  end.

(** Mutual exclusion: a mutex is locked exactly while one thread holds
    it. *)
Record locks_ok (m : hashmap) (ths : list thread) : Prop := mkLocksOk {
  locks_held : forall t th i,
    ths !! t = Some th -> holds th = Some i ->
    0 <= i /\ Hashmap.mMutexes m !! Z.to_nat i = Some true;
  locks_exclusive : forall t1 t2 th1 th2 i,
    ths !! t1 = Some th1 -> ths !! t2 = Some th2 ->
    holds th1 = Some i -> holds th2 = Some i -> t1 = t2;
  locks_owner : forall j,
    Hashmap.mMutexes m !! j = Some true ->
    exists t th i, ths !! t = Some th /\ holds th = Some i /\ Z.to_nat i = j
}.

(** The contents of the table against the pairs [all] the threads were
    started with: a pair is either still pending, and its key is not in
    the table, or it is stored; the counter lags behind the number of
    nodes by the nodes linked and not counted yet. *)
Record contents_ok (all : list (Key * Value)) (m : hashmap)
    (ths : list thread) : Prop := mkContentsOk {
  contents_size : Hashmap.mSize m = wrap (entries m - total uncounted ths);
  contents_entries :
    entries m + Z.of_nat (length (all_pending ths)) = Z.of_nat (length all);
  contents_NoDup : NoDup (all_pending ths).*1;
  contents_all : forall kv, kv ∈ all_pending ths -> kv ∈ all;
  contents_absent : forall k, k ∈ (all_pending ths).*1 -> stored m k = None;
  contents_done : forall k v,
    (k, v) ∈ all -> k ∉ (all_pending ths).*1 -> stored m k = Some v
}.

(** The invariant of the running system. *)
Record invariant (all : list (Key * Value)) (s : system) : Prop := mkInvariant {
  inv_config : config_ok (shared s);
  inv_chains : chain_inv (shared s);
  inv_locks : locks_ok (shared s) (threads s);
  inv_stripes : forall t th,
    threads s !! t = Some th -> stripe_ok (shared s) th;
  inv_contents : contents_ok all (shared s) (threads s)
}.
End Threads.
Global Arguments point : clear implicits.
Global Arguments thread : clear implicits.
Global Arguments system : clear implicits.
End Threads.

(** ** Example containers

    Keys and values are integers, as in the tests. *)

Module Example.
(** A hasher that returns the key as a [std::size_t]. *)
Definition intHash (k : Z) : Z := wrap k.

(** A hasher that sends every key to bucket 0. *)
Definition constantHash (k : Z) : Z := 0.

(** [ConcurrentHashmap<int, int> hashmap(10)], with the default
    concurrency level 16. *)
Definition fresh : Hashmap.t Z Z :=
  {| Hashmap.mCapacity := 10;
     Hashmap.mMutexCount := 10;
     Hashmap.mIndicesPerMutex := 1;
     Hashmap.mHasher := intHash;
     Hashmap.mSize := 0;
     Hashmap.mTable := replicate 10 [];
     Hashmap.mMutexes := replicate 10 false |}.

(** [fresh] after [insert(1, 1)]. *)
Definition one : Hashmap.t Z Z :=
  {| Hashmap.mCapacity := 10;
     Hashmap.mMutexCount := 10;
     Hashmap.mIndicesPerMutex := 1;
     Hashmap.mHasher := intHash;
     Hashmap.mSize := 1;
     Hashmap.mTable :=
       [[]; [{| NodeList.key := 1; NodeList.value := 1 |}]; []; []; [];
        []; []; []; []; []];
     Hashmap.mMutexes := replicate 10 false |}.

(** [ConcurrentHashmap<int, int> hashmap(10, 4)]: four mutexes for ten
    buckets, three buckets a mutex. *)
Definition striped : Hashmap.t Z Z :=
  {| Hashmap.mCapacity := 10;
     Hashmap.mMutexCount := 4;
     Hashmap.mIndicesPerMutex := 3;
     Hashmap.mHasher := intHash;
     Hashmap.mSize := 0;
     Hashmap.mTable := replicate 10 [];
     Hashmap.mMutexes := replicate 4 false |}.

(** The pairs the collision test inserts. *)
Definition pairs : list (Z * Z) := [(1, 2); (3, 4); (5, 6)].

(** The calls of two inserter threads with two values each: thread [t]
    inserts the keys [2 * t + i] with the values [i * i]. On [striped]
    they touch four buckets, which two mutexes guard. *)
Definition calls : list (list (Z * Z)) := [[(0, 0); (1, 1)]; [(2, 0); (3, 1)]].
End Example.

(** ** Sequences of calls and the finite map they describe *)

Section Calls.
Context {Key Value : Type} `{Countable Key}.

Local Abbreviation hashmap := (Hashmap.t Key Value).

(** The calls of a list made one after the other: the state after the
    last one, if every call returns or throws. *)
Fixpoint run_calls (cs : list (call (Key:=Key) (Value:=Value)))
    (m : hashmap) : option hashmap :=
  match cs with
  | [] => Some m
  | c :: cs => after c m ≫= run_calls cs
  end.

(** What a call does to a finite map from keys to values. *)
Definition model_step (f : gmap Key Value)
    (c : call (Key:=Key) (Value:=Value)) : gmap Key Value :=
  match c with
  | CallInsert k v => <[k:=v]> f
  | CallErase k => delete k f
  | _ => f
  end.

(** The finite map a list of calls describes, from the empty map on. *)
Definition model (cs : list (call (Key:=Key) (Value:=Value)))
  : gmap Key Value :=
  foldl model_step ∅ cs.
End Calls.

(** A call made while another thread keeps mutex [i] locked: the outcome
    with that mutex locked in the state the call leaves. *)
Definition with_lock {Key Value A} (i : Z)
    (o : Hashmap.outcome Key Value A) : Hashmap.outcome Key Value A :=
  match o with
  | Hashmap.Returns a m => Hashmap.Returns a (Hashmap.set_mutex i true m)
  | Hashmap.Throws code m => Hashmap.Throws code (Hashmap.set_mutex i true m)
  | Hashmap.Blocks => Hashmap.Blocks
  | Hashmap.Undefined => Hashmap.Undefined
  end.

(** ** Threads calling any member function on one shared container

    The threads of the concurrent tests call [insert], [find], [erase]
    and [get] on one container at the same time. Here a thread runs a
    list of calls of the public member functions. Inside a call on a key
    it takes the steps of the member function one at a time, and the
    steps of different threads interleave in any order: the constructor
    of the lock object, enabled only while the mutex is free; the
    traversal of the chain; what the function does with the node it
    found, a write to the chain being computed from what the traversal
    read; for [insert] and [erase] the atomic [++mSize] or [--mSize];
    the destructor of the lock object, after which the call has returned
    and the thread notes its result. [capacity()] and [size()] read a
    [const] member and the atomic counter in one step, with no lock. *)

Module Workers.
Section Workers.
Context {Key Value : Type} `{EqDecision Key}.

Local Abbreviation chain := (NodeList.t Key Value).
Local Abbreviation hashmap := (Hashmap.t Key Value).

(** What a thread does with the [LockedValue] of a [get] before the
    [LockedValue] goes out of scope: it reads the value through the
    reference, as the getter threads do, or it calls [size()], as the get
    thread of the test of [get] against [erase] does. *)
Inductive use : Type :=
  | ReadFirst
  | CallSize.

(** The member functions that take a key and lock its stripe. *)
Inductive access : Type :=
  | Find
  | GetCopy
  | Get (u : use)
  | Insert (v : Value)
  | Erase.

(** A call of a thread. An exception of [getCopy] or [get] is caught by
    the thread, which goes on with its next call. *)
Inductive op : Type :=
  | Capacity
  | Size
  | Keyed (a : access) (k : Key).

(** What a call gave the thread that made it. *)
Inductive result : Type :=
  | Void
  | Bool (b : bool)
  | Val (v : Value)
  | Num (n : Z)
  | Thrown (code : ConcurrentHashmapException).

(** *** A call made by one thread alone *)

Definition answer {A} (f : A -> result) (o : Hashmap.outcome Key Value A)
  : option (result * hashmap) :=
  match o with
  | Hashmap.Returns a m => Some (f a, m)
  | Hashmap.Throws code m => Some (Thrown code, m)
  | Hashmap.Blocks => None
  | Hashmap.Undefined => None
  end.

(** The call as the member function of the class makes it, from the
    first to the last of its steps: the result and the state it leaves.
    The [LockedValue] of a [get] is used and destroyed within the
    call. *)
Definition perform (o : op) (m : hashmap) : option (result * hashmap) :=
  match o with
  | Capacity => Some (Num (Hashmap.capacity m), m)
  | Size => Some (Num (Hashmap.size m), m)
  | Keyed Find k => answer Bool (Hashmap.find k m)
  | Keyed GetCopy k => answer Val (Hashmap.getCopy k m)
  | Keyed (Get u) k =>
      match Hashmap.get k m with
      | Hashmap.Returns lv m' =>
          Some (match u with
                | ReadFirst => Val (Hashmap.first lv)
                | CallSize => Num (Hashmap.size m')
                end,
                Hashmap.unlock (Hashmap.second lv) m')
      | Hashmap.Throws code m' => Some (Thrown code, m')
      | _ => None
      end
  | Keyed (Insert v) k => answer (fun _ => Void) (Hashmap.insert k v m)
  | Keyed Erase k => answer (fun _ => Void) (Hashmap.erase k m)
  end.

(** *** The steps of a thread *)

(** Where a thread stands: between two calls; with the lock constructed;
    with the chain traversed; with the [LockedValue] of a [get] that
    found the node [node]; with the chain written and the counter still
    to be updated; about to destroy the lock and return. *)
Inductive point : Type :=
  | Ready
  | Locked (lock : Z) (a : access) (k : Key)
  | Scanned (lock : Z) (a : access) (k : Key) (c : chain)
  | Holding (lock : Z) (u : use) (k : Key) (node : nat)
  | Inserted (lock : Z) (k : Key) (v : Value) (inserted : bool)
  | Erased (lock : Z) (k : Key) (erased : bool)
  | Unlocking (lock : Z) (r : result).

(** A thread: where it stands, the calls it has still to make, and the
    results of the calls that have returned. *)
Record thread : Type := mkThread {
  at_point : point;
  todo : list op;
  results : list result
}.

Definition move (p : point) (th : thread) : thread :=
  {| at_point := p; todo := todo th; results := results th |}.

(** One step of a thread on the shared container; [None] when the thread
    has finished, when it waits for its mutex, and where the step would
    be undefined (a division by zero, an index outside an array, a
    dangling reference). *)
Definition thread_step (m : hashmap) (th : thread)
  : option (hashmap * thread) :=
  match at_point th with
  | Ready =>
      match todo th with
      | [] => None
      | Capacity :: rest =>
          Some (m, {| at_point := Ready; todo := rest;
                      results := results th ++ [Num (Hashmap.capacity m)] |})
      | Size :: rest =>
          Some (m, {| at_point := Ready; todo := rest;
                      results := results th ++ [Num (Hashmap.size m)] |})
      | Keyed a k :: rest =>
          match Hashmap.getMutex m (Hashmap.getIndex m k) with
          | None => None
          | Some i =>
              match Hashmap.mMutexes m !! Z.to_nat i with
              | Some false =>
                  Some (Hashmap.set_mutex i true m,
                        {| at_point := Locked i a k; todo := rest;
                           results := results th |})
              | _ => None
              end
          end
      end
  | Locked i a k =>
      match Hashmap.bucket m (Hashmap.getIndex m k) with
      | Some c => Some (m, move (Scanned i a k c) th)
      | None => None
      end
  | Scanned i a k c =>
      match a with
      | Find =>
          Some (m, move (Unlocking i
                           (Bool (bool_decide (NodeList.find k c ≠ None))))
                     th)
      | GetCopy =>
          Some (m, move (Unlocking i
                           match NodeList.find k c ≫= (c !!.) with
                           | Some node => Val (NodeList.value node)
                           | None => Thrown KeyNotFound
                           end) th)
      | Get u =>
          Some (m, move match NodeList.find k c with
                        | Some node => Holding i u k node
                        | None => Unlocking i (Thrown KeyNotFound)
                        end th)
      | Insert v =>
          let '(c', inserted) := NodeList.insert k v c in
          Some (Hashmap.set_bucket (Hashmap.getIndex m k) c' m,
                move (Inserted i k v inserted) th)
      | Erase =>
          let '(c', erased) := NodeList.erase k c in
          Some (Hashmap.set_bucket (Hashmap.getIndex m k) c' m,
                move (Erased i k erased) th)
      end
  | Holding i u k node =>
      match u with
      | ReadFirst =>
          match Hashmap.bucket m (Hashmap.getIndex m k) ≫= (.!! node) with
          | Some n => Some (m, move (Unlocking i (Val (NodeList.value n))) th)
          | None => None
          end
      | CallSize => Some (m, move (Unlocking i (Num (Hashmap.size m))) th)
      end
  | Inserted i k v inserted =>
      Some (if inserted then Hashmap.incr_size m else m,
            move (Unlocking i Void) th)
  | Erased i k erased =>
      Some (if erased then Hashmap.decr_size m else m,
            move (Unlocking i Void) th)
  | Unlocking i r =>
      Some (Hashmap.unlock i m,
            {| at_point := Ready; todo := todo th;
               results := results th ++ [r] |})
  end.

(** The shared container and the threads. *)
Record system : Type := mkSystem {
  shared : hashmap;
  threads : list thread
}.

(** Thread [t] takes its next step. *)
Definition step_thread (t : nat) (s : system) : option system :=
  match threads s !! t with
  | None => None
  | Some th =>
      match thread_step (shared s) th with
      | None => None
      | Some (m', th') =>
          Some {| shared := m'; threads := <[t:=th']> (threads s) |}
      end
  end.

(** Some thread takes a step; a thread other than [t] takes a step. *)
Definition step (s s' : system) : Prop :=
  exists t, step_thread t s = Some s'.

Definition step_of_others (t : nat) (s s' : system) : Prop :=
  exists t', t' <> t /\ step_thread t' s = Some s'.

(** Thread [t], between two calls, makes its next call with no step of
    another thread before the call has returned. *)
Definition call_thread (t : nat) (s : system) : option system :=
  match threads s !! t with
  | None => None
  | Some th =>
      match at_point th, todo th with
      | Ready, o :: rest =>
          match perform o (shared s) with
          | None => None
          | Some (r, m') =>
              Some {| shared := m';
                      threads :=
                        <[t:={| at_point := Ready; todo := rest;
                                results := results th ++ [r] |}]>
                          (threads s) |}
          end
      | _, _ => None
      end
  end.

(** Some thread makes a whole call. *)
Definition serial_step (s s' : system) : Prop :=
  exists t, call_thread t s = Some s'.

(** The threads are started on the container, one for each list of
    calls. *)
Definition start (m : hashmap) (calls : list (list op)) : system :=
  {| shared := m;
     threads :=
       (fun p => {| at_point := Ready; todo := p; results := [] |})
         <$> calls |}.

(** Every thread has returned from its last call. *)
Definition finished (s : system) : Prop :=
  forall t th,
    threads s !! t = Some th -> at_point th = Ready /\ todo th = [].

(** [n] steps of one thread with no step of another thread in
    between. *)
Fixpoint run (n : nat) (m : hashmap) (th : thread)
  : option (hashmap * thread) :=
  match n with
  | O => Some (m, th)
  | S n =>
      match thread_step m th with
      | None => None
      | Some (m', th') => run n m' th'
      end
  end.

(** The steps of the threads that a list names, one after the other. *)
Fixpoint schedule (ts : list nat) (s : system) : option system :=
  match ts with
  | [] => Some s
  | t :: ts => step_thread t s ≫= schedule ts
  end.

(** No mutex of the container is locked. *)
Definition all_free (m : hashmap) : Prop :=
  forall j, Hashmap.mMutexes m !! j <> Some true.

(** *** What the threads keep true *)

(** The mutex a thread holds. *)
Definition holds (th : thread) : option Z :=
  match at_point th with
  | Ready => None
  | Locked i _ _ => Some i
  | Scanned i _ _ _ => Some i
  | Holding i _ _ _ => Some i
  | Inserted i _ _ _ => Some i
  | Erased i _ _ => Some i
  | Unlocking i _ => Some i
  end.

(** The key of the call a thread is in, up to the update of the
    counter. *)
Definition key_at (th : thread) : option Key :=
  match at_point th with
  | Locked _ _ k => Some k
  | Scanned _ _ k _ => Some k
  | Holding _ _ k _ => Some k
  | Inserted _ k _ _ => Some k
  | Erased _ k _ => Some k
  | _ => None
  end.

(** The bucket whose chain a thread has written, the counter not yet
    updated. *)
Definition writing (m : hashmap) (th : thread) : option nat :=
  match at_point th with
  | Inserted _ k _ _ => Some (Z.to_nat (Hashmap.getIndex m k))
  | Erased _ k _ => Some (Z.to_nat (Hashmap.getIndex m k))
  | _ => None
  end.

(** Steps a thread has still to take, at most. *)
Definition steps_left (th : thread) : Z :=
  match at_point th with
  | Ready => 0
  | Locked _ _ _ => 4
  | Scanned _ _ _ _ => 3
  | Holding _ _ _ _ => 2
  | Inserted _ _ _ _ => 2
  | Erased _ _ _ => 2
  | Unlocking _ _ => 1
  end + 5 * Z.of_nat (length (todo th)).

(** Sum of a quantity over the threads. *)
Definition total (f : thread -> Z) (ths : list thread) : Z :=
  foldr Z.add 0 (f <$> ths).

(** Mutual exclusion: a mutex is locked exactly while one thread holds
    it. *)
Record locks_ok (m : hashmap) (ths : list thread) : Prop := mkLocksOk {
  locks_held : forall t th i,
    ths !! t = Some th -> holds th = Some i ->
    0 <= i /\ Hashmap.mMutexes m !! Z.to_nat i = Some true;
  locks_exclusive : forall t1 t2 th1 th2 i,
    ths !! t1 = Some th1 -> ths !! t2 = Some th2 ->
    holds th1 = Some i -> holds th2 = Some i -> t1 = t2;
  locks_owner : forall j,
    Hashmap.mMutexes m !! j = Some true ->
    exists t th i, ths !! t = Some th /\ holds th = Some i /\ Z.to_nat i = j
}.

(** The thread as the calls that have taken effect leave it: a call
    takes effect with the step that fixes its result, which for [insert]
    and [erase] is the update of the counter. *)
Definition settled (th : thread) : thread :=
  match at_point th with
  | Ready => th
  | Locked _ a k => {| at_point := Ready; todo := Keyed a k :: todo th;
                       results := results th |}
  | Scanned _ a k _ => {| at_point := Ready; todo := Keyed a k :: todo th;
                          results := results th |}
  | Holding _ u k _ => {| at_point := Ready;
                          todo := Keyed (Get u) k :: todo th;
                          results := results th |}
  | Inserted _ k v _ => {| at_point := Ready;
                           todo := Keyed (Insert v) k :: todo th;
                           results := results th |}
  | Erased _ k _ => {| at_point := Ready; todo := Keyed Erase k :: todo th;
                       results := results th |}
  | Unlocking _ r => {| at_point := Ready; todo := todo th;
                        results := results th ++ [r] |}
  end.

(** What a thread inside a call knows, [m] being the shared container and
    [a] the container as the calls that have taken effect leave it: the
    mutex it holds is the one of the key's stripe; the chain it traversed
    is the chain of the key's bucket; the node a [LockedValue] refers to
    is the node of the key; a chain that was written is what
    [NodeList::insert] or [NodeList::erase] makes of the chain before the
    call. *)
Definition point_ok (m a : hashmap) (th : thread) : Prop :=
  match at_point th with
  | Ready => True
  | Locked i _ k => Hashmap.getMutex m (Hashmap.getIndex m k) = Some i
  | Scanned i _ k c =>
      Hashmap.getMutex m (Hashmap.getIndex m k) = Some i /\
      Hashmap.bucket m (Hashmap.getIndex m k) = Some c
  | Holding i _ k node =>
      Hashmap.getMutex m (Hashmap.getIndex m k) = Some i /\
      exists c, Hashmap.bucket m (Hashmap.getIndex m k) = Some c /\
        NodeList.find k c = Some node
  | Inserted i k v inserted =>
      Hashmap.getMutex m (Hashmap.getIndex m k) = Some i /\
      exists c, Hashmap.bucket a (Hashmap.getIndex m k) = Some c /\
        Hashmap.bucket m (Hashmap.getIndex m k) =
          Some (NodeList.insert k v c).1 /\
        inserted = (NodeList.insert k v c).2
  | Erased i k erased =>
      Hashmap.getMutex m (Hashmap.getIndex m k) = Some i /\
      exists c, Hashmap.bucket a (Hashmap.getIndex m k) = Some c /\
        Hashmap.bucket m (Hashmap.getIndex m k) =
          Some (NodeList.erase k c).1 /\
        erased = (NodeList.erase k c).2
  | Unlocking _ _ => True
  end.

(** The running system [s] against the container [a] that the calls
    which have taken effect leave: [a] is well-formed with no mutex
    locked, the counters agree, and the chains agree in every bucket
    that no thread has written without updating the counter. *)
Record simulates (s : system) (a : hashmap) : Prop := mkSimulates {
  sim_config : config_ok (shared s);
  sim_wf : wf a;
  sim_same : same_config (shared s) a;
  sim_free : all_free a;
  sim_size : Hashmap.mSize (shared s) = Hashmap.mSize a;
  sim_locks : locks_ok (shared s) (threads s);
  sim_points : forall t th,
    threads s !! t = Some th -> point_ok (shared s) a th;
  sim_table : forall j,
    (forall t th, threads s !! t = Some th ->
       writing (shared s) th <> Some j) ->
    Hashmap.mTable a !! j = Hashmap.mTable (shared s) !! j
}.

(** The system as the calls that have taken effect leave it. *)
Definition settle (s : system) (a : hashmap) : system :=
  {| shared := a; threads := settled <$> threads s |}.
End Workers.
Global Arguments op : clear implicits.
Global Arguments result : clear implicits.
Global Arguments point : clear implicits.
Global Arguments thread : clear implicits.
Global Arguments system : clear implicits.
End Workers.

(** ** More example containers and call sequences *)

Module Scenario.
(** [ConcurrentHashmap<int, int> hashmap(5, 4)]: two buckets a mutex, so
    the five buckets use three of the four mutexes. *)
Definition sparse : Hashmap.t Z Z :=
  {| Hashmap.mCapacity := 5;
     Hashmap.mMutexCount := 4;
     Hashmap.mIndicesPerMutex := 2;
     Hashmap.mHasher := Example.intHash;
     Hashmap.mSize := 0;
     Hashmap.mTable := replicate 5 [];
     Hashmap.mMutexes := replicate 4 false |}.

(** [Example.one] while the lock that [get(1)] returned is outstanding. *)
Definition held : Hashmap.t Z Z := Hashmap.set_mutex 1 true Example.one.

(** [Example.one] after [insert(11, 7)]: keys 1 and 11 share bucket 1. *)
Definition crowded : Hashmap.t Z Z :=
  {| Hashmap.mCapacity := 10;
     Hashmap.mMutexCount := 10;
     Hashmap.mIndicesPerMutex := 1;
     Hashmap.mHasher := Example.intHash;
     Hashmap.mSize := 2;
     Hashmap.mTable :=
       [[]; [{| NodeList.key := 11; NodeList.value := 7 |};
             {| NodeList.key := 1; NodeList.value := 1 |}]; []; []; [];
        []; []; []; []; []];
     Hashmap.mMutexes := replicate 10 false |}.

(** Calls that insert two keys, erase the first and overwrite the
    second, and the container they leave of [Example.fresh]. *)
Definition script : list (call (Key:=Z) (Value:=Z)) :=
  [CallInsert 1 1; CallInsert 2 4; CallFind 1; CallErase 1; CallInsert 2 5].

Definition settled : Hashmap.t Z Z :=
  {| Hashmap.mCapacity := 10;
     Hashmap.mMutexCount := 10;
     Hashmap.mIndicesPerMutex := 1;
     Hashmap.mHasher := Example.intHash;
     Hashmap.mSize := 1;
     Hashmap.mTable :=
       [[]; []; [{| NodeList.key := 2; NodeList.value := 5 |}]; []; [];
        []; []; []; []; []];
     Hashmap.mMutexes := replicate 10 false |}.

(** Two threads on [Example.one]: one inserts key 2 and reads the size,
    the other erases key 1 and looks for key 2. The keys are in
    different stripes. *)
Definition mixed : list (list (Workers.op Z Z)) :=
  [ [Workers.Keyed (Workers.Insert 4) 2; Workers.Size];
    [Workers.Keyed Workers.Erase 1; Workers.Keyed Workers.Find 2] ].

(** The two threads take turns until the first has finished. *)
Definition turns : list nat :=
  [0; 1; 0; 1; 0; 1; 0; 1; 0; 1; 0; 1; 1; 1; 1]%nat.

(** After the first four turns both threads have locked their mutex and
    traversed their chain. *)
Definition mixed_inside : Workers.system Z Z :=
  {| Workers.shared :=
       Hashmap.set_mutex 1 true (Hashmap.set_mutex 2 true Example.one);
     Workers.threads :=
       [ {| Workers.at_point := Workers.Scanned 2 (Workers.Insert 4) 2 [];
            Workers.todo := [Workers.Size];
            Workers.results := [] |};
         {| Workers.at_point :=
              Workers.Scanned 1 Workers.Erase 1
                [{| NodeList.key := 1; NodeList.value := 1 |}];
            Workers.todo := [Workers.Keyed Workers.Find 2];
            Workers.results := [] |} ] |}.

(** After all turns key 2 has replaced key 1. *)
Definition mixed_end : Workers.system Z Z :=
  {| Workers.shared :=
       {| Hashmap.mCapacity := 10;
          Hashmap.mMutexCount := 10;
          Hashmap.mIndicesPerMutex := 1;
          Hashmap.mHasher := Example.intHash;
          Hashmap.mSize := 1;
          Hashmap.mTable :=
            [[]; []; [{| NodeList.key := 2; NodeList.value := 4 |}]; [];
             []; []; []; []; []; []];
          Hashmap.mMutexes := replicate 10 false |};
     Workers.threads :=
       [ {| Workers.at_point := Workers.Ready; Workers.todo := [];
            Workers.results := [Workers.Void; Workers.Num 1] |};
         {| Workers.at_point := Workers.Ready; Workers.todo := [];
            Workers.results := [Workers.Void; Workers.Bool true] |} ] |}.

(** A thread that keeps the [LockedValue] of [get(1)] on [Example.one]
    while another inserts key 2. *)
Definition getter : list (list (Workers.op Z Z)) :=
  [ [Workers.Keyed (Workers.Get Workers.ReadFirst) 1];
    [Workers.Keyed (Workers.Insert 4) 2] ].

Definition holding : Workers.system Z Z :=
  {| Workers.shared := Hashmap.set_mutex 1 true Example.one;
     Workers.threads :=
       [ {| Workers.at_point := Workers.Holding 1 Workers.ReadFirst 1 0;
            Workers.todo := []; Workers.results := [] |};
         {| Workers.at_point := Workers.Ready;
            Workers.todo := [Workers.Keyed (Workers.Insert 4) 2];
            Workers.results := [] |} ] |}.

(** An inserter and a finder of key 2 on [Example.one], and the state
    when the inserter ran first. *)
Definition inserters : list (list (Workers.op Z Z)) :=
  [ [Workers.Keyed (Workers.Insert 4) 2]; [Workers.Keyed Workers.Find 2] ].

Definition inserters_end : Workers.system Z Z :=
  {| Workers.shared :=
       {| Hashmap.mCapacity := 10;
          Hashmap.mMutexCount := 10;
          Hashmap.mIndicesPerMutex := 1;
          Hashmap.mHasher := Example.intHash;
          Hashmap.mSize := 2;
          Hashmap.mTable :=
            [[]; [{| NodeList.key := 1; NodeList.value := 1 |}];
             [{| NodeList.key := 2; NodeList.value := 4 |}]; [];
             []; []; []; []; []; []];
          Hashmap.mMutexes := replicate 10 false |};
     Workers.threads :=
       [ {| Workers.at_point := Workers.Ready; Workers.todo := [];
            Workers.results := [Workers.Void] |};
         {| Workers.at_point := Workers.Ready; Workers.todo := [];
            Workers.results := [Workers.Bool true] |} ] |}.

(** An eraser and a finder of key 1 on [Example.one], and the state when
    the eraser ran first. *)
Definition erasers : list (list (Workers.op Z Z)) :=
  [ [Workers.Keyed Workers.Erase 1]; [Workers.Keyed Workers.Find 1] ].

Definition erasers_end : Workers.system Z Z :=
  {| Workers.shared := Example.fresh;
     Workers.threads :=
       [ {| Workers.at_point := Workers.Ready; Workers.todo := [];
            Workers.results := [Workers.Void] |};
         {| Workers.at_point := Workers.Ready; Workers.todo := [];
            Workers.results := [Workers.Bool false] |} ] |}.

(** The thread that calls [get(1)] and then [size()], and the thread
    that erases key 1; the state when the [get] came first. *)
Definition get_erase : list (list (Workers.op Z Z)) :=
  [ [Workers.Keyed (Workers.Get Workers.CallSize) 1];
    [Workers.Keyed Workers.Erase 1] ].

Definition get_erase_end : Workers.system Z Z :=
  {| Workers.shared := Example.fresh;
     Workers.threads :=
       [ {| Workers.at_point := Workers.Ready; Workers.todo := [];
            Workers.results := [Workers.Num 1] |};
         {| Workers.at_point := Workers.Ready; Workers.todo := [];
            Workers.results := [Workers.Void] |} ] |}.
End Scenario.

(** ** Proof steps *)

(** Entering the guarded body of a member function whose stripe mutex is
    free by [Hfree]: the lock is constructed on mutex [i], and the bucket
    array is read as before the locking. *)
Ltac enter_locked Hfree i :=
  unfold Hashmap.locked; unfold stripe_mutex in Hfree;
  destruct (Hashmap.getMutex _ _) as [i |]; [| done];
  simpl in Hfree; rewrite Hfree;
  change (Hashmap.bucket (Hashmap.set_mutex i true ?m) ?x)
    with (Hashmap.bucket m x).

(** Deciding a closed proposition by evaluation. *)
Ltac by_evaluation := apply (bool_decide_unpack _); vm_compute; exact I.

(** * Proofs *)

(** ** Stripe arithmetic *)

Section Arithmetic.

Lemma wrap_small z : 0 <= z <= SIZE_MAX -> wrap z = z.
Proof. unfold wrap, SIZE_MAX. intros Hz. apply Z.mod_small. lia. Qed.

Lemma array_new_fits_bound count elem_size :
  array_new_fits count elem_size = true -> count * elem_size <= SIZE_MAX.
Proof. unfold array_new_fits. intros Hfit. by apply Z.leb_le. Qed.

(** Without overflow of the sum, the two branches of
    [getIndicesPerMutex] give the ceiling of the quotient. *)
Lemma getIndicesPerMutex_ceil capacity mutexCount :
  1 <= mutexCount <= capacity ->
  capacity + mutexCount <= SIZE_MAX ->
  is_ceil_div capacity mutexCount
    (Hashmap.getIndicesPerMutex capacity mutexCount).
Proof.
  intros Hmc Hsum. unfold Hashmap.getIndicesPerMutex, is_ceil_div.
  pose proof (Z.div_mod capacity mutexCount ltac:(lia)) as Hdm.
  pose proof (Z.mod_pos_bound capacity mutexCount ltac:(lia)) as Hr.
  destruct (Z.eqb_spec (capacity mod mutexCount) 0) as [Hz | Hnz]; simpl.
  - lia.
  - rewrite wrap_small by lia.
    replace (capacity + mutexCount) with (capacity + 1 * mutexCount) by lia.
    rewrite Z.div_add by lia. lia.
Qed.

(** A table index divided by the ceiling stays below the mutex count. *)
Lemma mutex_index_bound capacity mutexCount q index :
  1 <= mutexCount ->
  is_ceil_div capacity mutexCount q ->
  0 <= index < capacity ->
  0 < q /\ 0 <= index / q < mutexCount.
Proof.
  unfold is_ceil_div. intros Hmc [Hlo Hhi] Hidx.
  assert (0 < q) as Hq by nia.
  split; [done |]. split.
  - apply Z.div_pos; lia.
  - apply Z.div_lt_upper_bound; [done | nia].
Qed.
End Arithmetic.

(** ** Construction *)

Section Construction.
Context {Key Value : Type} `{EqDecision Key}.

Local Abbreviation hashmap := (Hashmap.t Key Value).

Lemma getMutexCount_inr capacity concurrencyLevel mutexCount :
  Hashmap.getMutexCount capacity concurrencyLevel = inr mutexCount ->
  capacity <> 0 /\ concurrencyLevel <> 0 /\
  mutexCount = Z.min concurrencyLevel capacity.
Proof.
  unfold Hashmap.getMutexCount.
  destruct (Z.eqb_spec capacity 0); [done |].
  destruct (Z.eqb_spec concurrencyLevel 0); [done |].
  intros [= <-]. done.
Qed.

(** The members of a constructed container. *)
Lemma construct_inr capacity concurrencyLevel hasher (m : hashmap) :
  Hashmap.construct capacity concurrencyLevel hasher = inr m ->
  capacity <> 0 /\ concurrencyLevel <> 0 /\
  capacity * sizeof_NodeList <= SIZE_MAX /\
  m = {| Hashmap.mCapacity := capacity;
         Hashmap.mMutexCount := Z.min concurrencyLevel capacity;
         Hashmap.mIndicesPerMutex :=
           Hashmap.getIndicesPerMutex capacity
             (Z.min concurrencyLevel capacity);
         Hashmap.mHasher := hasher;
         Hashmap.mSize := 0;
         Hashmap.mTable := replicate (Z.to_nat capacity) NodeList.empty;
         Hashmap.mMutexes :=
           replicate (Z.to_nat (Z.min concurrencyLevel capacity)) false |}.
Proof.
  unfold Hashmap.construct.
  destruct (Hashmap.getMutexCount capacity concurrencyLevel)
    as [code | mutexCount] eqn:Hcount; [done |].
  apply getMutexCount_inr in Hcount as (Hcap & Hcl & ->).
  destruct (array_new_fits capacity sizeof_NodeList) eqn:Htable; [| done].
  destruct (array_new_fits _ sizeof_mutex) eqn:Hmutexes; [| done].
  simpl. intros [= <-]. by apply array_new_fits_bound in Htable.
Qed.

(** A capacity whose bucket array cannot be allocated: the sum in
    [getIndicesPerMutex] wraps around, and the constructor throws from
    the array new-expression, so no container carries the wrapped
    value. *)
Lemma construct_unallocatable (hasher : Key -> Z) :
  Hashmap.getIndicesPerMutex SIZE_MAX 2 = 0 /\
  Hashmap.construct (Value:=Value) SIZE_MAX 2 hasher =
  inl bad_array_new_length.
Proof. split; reflexivity. Qed.

Lemma replicate_concat_nil {A} n : concat (replicate n (@nil A)) = [].
Proof. induction n as [| n IH]; [done | simpl; by rewrite IH]. Qed.

Lemma construct_config capacity concurrencyLevel hasher (m : hashmap) :
  is_size_t capacity -> is_size_t concurrencyLevel ->
  Hashmap.construct capacity concurrencyLevel hasher = inr m ->
  config_ok m.
Proof.
  intros [Hc0 _] [Hl0 _] (Hcap & Hcl & Hfit & ->)%construct_inr.
  constructor; simpl; try done.
  - lia.
  - by rewrite length_replicate.
  - by rewrite length_replicate.
Qed.

Lemma construct_wf capacity concurrencyLevel hasher (m : hashmap) :
  is_size_t capacity -> is_size_t concurrencyLevel ->
  Hashmap.construct capacity concurrencyLevel hasher = inr m ->
  wf m.
Proof.
  intros Hc Hl Hm. constructor.
  - by apply (construct_config capacity concurrencyLevel hasher).
  - apply construct_inr in Hm as (_ & _ & _ & ->).
    intros i c [-> _]%lookup_replicate. split; [apply NoDup_nil_2 |].
    intros k Hk. by apply elem_of_nil in Hk.
  - apply construct_inr in Hm as (_ & _ & _ & ->).
    unfold entries, NodeList.empty. simpl.
    by rewrite replicate_concat_nil.
Qed.
End Construction.

(** ** Chains *)

Section Chains.
Context {Key Value : Type} `{EqDecision Key}.

Local Abbreviation node := (NodeList.Node Key Value).
Local Abbreviation chain := (NodeList.t Key Value).

Lemma chain_value_cons k (n : node) (c : chain) :
  chain_value k (n :: c) =
  if decide (NodeList.key n = k) then Some (NodeList.value n)
  else chain_value k c.
Proof.
  unfold chain_value. simpl.
  destruct (decide (NodeList.key n = k)) as [Heq | Hne].
  - by rewrite bool_decide_eq_false_2 by (intros Hne; by apply Hne).
  - rewrite bool_decide_eq_true_2 by done.
    by destruct (NodeList.find k c).
Qed.

(** [find] returns a node exactly when the chain has a value for the
    key. *)
Lemma find_is_Some k (c : chain) :
  NodeList.find k c ≠ None <-> is_Some (chain_value k c).
Proof.
  induction c as [| n c IH]; simpl.
  - split; [done | by intros [v Hv]].
  - rewrite chain_value_cons.
    destruct (decide (NodeList.key n = k)) as [Heq | Hne].
    + rewrite bool_decide_eq_false_2 by (intros Hne; by apply Hne).
      split; [by eexists | done].
    + rewrite bool_decide_eq_true_2 by done. rewrite <- IH.
      by destruct (NodeList.find k c).
Qed.

Lemma find_None k (c : chain) :
  NodeList.find k c = None <-> chain_value k c = None.
Proof.
  pose proof (find_is_Some k c) as Hsome.
  rewrite <- not_eq_None_Some in Hsome.
  destruct (NodeList.find k c), (chain_value k c); intuition congruence.
Qed.

Lemma chain_value_None k (c : chain) :
  chain_value k c = None <-> k ∉ NodeList.keys c.
Proof.
  unfold NodeList.keys. induction c as [| n c IH].
  - split; [intros _; apply not_elem_of_nil | done].
  - rewrite chain_value_cons, fmap_cons, not_elem_of_cons.
    destruct (decide (NodeList.key n = k)); intuition congruence.
Qed.

(** *** [insert] *)

Lemma alter_assign_keys v i (c : chain) :
  NodeList.keys (alter (NodeList.assign v) i c) = NodeList.keys c.
Proof.
  unfold NodeList.keys. revert i.
  induction c as [| n c IH]; intros [| i]; simpl; try done.
  f_equal. apply IH.
Qed.

Lemma alter_assign_value k k' v i (c : chain) :
  NodeList.find k c = Some i ->
  chain_value k' (alter (NodeList.assign v) i c) =
  if decide (k = k') then Some v else chain_value k' c.
Proof.
  revert i. induction c as [| n c IH]; intros i; simpl; [done |].
  destruct (decide (NodeList.key n = k)) as [Heq | Hne].
  - rewrite bool_decide_eq_false_2 by (intros Hne; by apply Hne).
    intros [= <-]. simpl. rewrite !chain_value_cons. simpl.
    subst k. by destruct (decide (NodeList.key n = k')).
  - rewrite bool_decide_eq_true_2 by done.
    destruct (NodeList.find k c) as [j |] eqn:Hfind; [| done].
    intros [= <-]. specialize (IH j eq_refl). unfold alter in IH.
    simpl. rewrite !chain_value_cons, IH.
    destruct (decide (k = k')), (decide (NodeList.key n = k')); congruence.
Qed.

(** [insert] reports a new node exactly when the key was not in the
    chain. *)
Lemma insert_inserted k v (c : chain) :
  (NodeList.insert k v c).2 = true <-> chain_value k c = None.
Proof.
  unfold NodeList.insert. rewrite <- find_None.
  by destruct (NodeList.find k c).
Qed.

Lemma insert_value k v k' (c : chain) :
  chain_value k' (NodeList.insert k v c).1 =
  if decide (k = k') then Some v else chain_value k' c.
Proof.
  unfold NodeList.insert.
  destruct (NodeList.find k c) as [i |] eqn:Hfind; simpl.
  - by apply alter_assign_value.
  - rewrite chain_value_cons. simpl. by destruct (decide (k = k')).
Qed.

Lemma insert_keys k v (c : chain) :
  NodeList.keys (NodeList.insert k v c).1 =
  if (NodeList.insert k v c).2 then k :: NodeList.keys c
  else NodeList.keys c.
Proof.
  unfold NodeList.insert.
  destruct (NodeList.find k c) as [i |]; simpl; [| done].
  apply alter_assign_keys.
Qed.

Lemma insert_length k v (c : chain) :
  length (NodeList.insert k v c).1 =
  if (NodeList.insert k v c).2 then S (length c) else length c.
Proof.
  unfold NodeList.insert.
  destruct (NodeList.find k c) as [i |]; simpl; [| done].
  apply length_alter.
Qed.

(** [insert] keeps the keys of a chain distinct. *)
Lemma insert_NoDup k v (c : chain) :
  NoDup (NodeList.keys c) -> NoDup (NodeList.keys (NodeList.insert k v c).1).
Proof.
  intros Hnd. rewrite insert_keys.
  destruct (NodeList.insert k v c).2 eqn:Hins; [| done].
  apply NoDup_cons. split; [| done].
  apply chain_value_None. by apply (insert_inserted k v c).
Qed.

(** *** [erase] *)

(** The head test and the loop of [erase] together unlink the first node
    with the key. *)
Lemma erase_unlink k (c : chain) :
  NodeList.erase k c =
  match NodeList.unlink k c with
  | Some c' => (c', true)
  | None => (c, false)
  end.
Proof.
  destruct c as [| n c]; simpl; [done |].
  destruct (decide (NodeList.key n = k)) as [Heq | Hne].
  - rewrite bool_decide_eq_true_2 by done.
    by rewrite bool_decide_eq_false_2 by (intros Hne; by apply Hne).
  - rewrite bool_decide_eq_false_2 by done.
    rewrite bool_decide_eq_true_2 by done.
    by destruct (NodeList.unlink k c).
Qed.

Lemma unlink_None k (c : chain) :
  NodeList.unlink k c = None <-> chain_value k c = None.
Proof.
  induction c as [| n c IH]; simpl; [done |].
  rewrite chain_value_cons.
  destruct (decide (NodeList.key n = k)) as [Heq | Hne].
  - by rewrite bool_decide_eq_false_2 by (intros Hne; by apply Hne).
  - rewrite bool_decide_eq_true_2 by done. rewrite <- IH.
    by destruct (NodeList.unlink k c).
Qed.

Lemma unlink_sublist k (c c' : chain) :
  NodeList.unlink k c = Some c' ->
  c' `sublist_of` c /\ length c = S (length c').
Proof.
  revert c'. induction c as [| n c IH]; intros c'; simpl; [done |].
  case_bool_decide as Hk.
  - destruct (NodeList.unlink k c) as [c0 |]; [| done].
    intros [= <-]. destruct (IH c0 eq_refl) as [Hsub Hlen].
    split; [by apply sublist_skip | simpl; by rewrite Hlen].
  - intros [= <-]. split; [by apply sublist_cons | done].
Qed.

(** Unlinking leaves the values of the other keys, and with distinct keys
    nothing is left for the erased one. *)
Lemma unlink_value k k' (c c' : chain) :
  NodeList.unlink k c = Some c' ->
  NoDup (NodeList.keys c) ->
  chain_value k' c' = if decide (k = k') then None else chain_value k' c.
Proof.
  unfold NodeList.keys.
  revert c'. induction c as [| n c IH]; intros c'; simpl; [done |].
  intros Hunlink [Hn Hnd]%NoDup_cons. revert Hunlink.
  destruct (decide (NodeList.key n = k)) as [Heq | Hne].
  - rewrite bool_decide_eq_false_2 by (intros Hne; by apply Hne).
    intros [= <-]. rewrite chain_value_cons. subst k.
    destruct (decide (NodeList.key n = k')) as [<- | Hne']; [| done].
    by apply chain_value_None.
  - rewrite bool_decide_eq_true_2 by done.
    destruct (NodeList.unlink k c) as [c0 |]; [| done].
    intros [= <-]. rewrite !chain_value_cons, (IH c0) by done.
    destruct (decide (k = k')), (decide (NodeList.key n = k')); congruence.
Qed.

Lemma erase_erased k (c : chain) :
  (NodeList.erase k c).2 = true <-> is_Some (chain_value k c).
Proof.
  rewrite erase_unlink, <- not_eq_None_Some, <- unlink_None.
  by destruct (NodeList.unlink k c).
Qed.

Lemma erase_value k k' (c : chain) :
  NoDup (NodeList.keys c) ->
  chain_value k' (NodeList.erase k c).1 =
  if decide (k = k') then None else chain_value k' c.
Proof.
  intros Hnd. rewrite erase_unlink.
  destruct (NodeList.unlink k c) as [c' |] eqn:Hunlink; simpl.
  - by apply (unlink_value k k' c).
  - apply unlink_None in Hunlink.
    destruct (decide (k = k')) as [<- | Hne]; done.
Qed.

Lemma erase_sublist k (c : chain) :
  (NodeList.erase k c).1 `sublist_of` c.
Proof.
  rewrite erase_unlink.
  destruct (NodeList.unlink k c) as [c' |] eqn:Hunlink; simpl; [| done].
  by apply unlink_sublist in Hunlink as [Hsub _].
Qed.

Lemma erase_length k (c : chain) :
  length c =
  if (NodeList.erase k c).2 then S (length (NodeList.erase k c).1)
  else length (NodeList.erase k c).1.
Proof.
  rewrite erase_unlink.
  destruct (NodeList.unlink k c) as [c' |] eqn:Hunlink; simpl; [| done].
  by apply unlink_sublist in Hunlink as [_ Hlen].
Qed.

(** [erase] keeps the keys of a chain distinct. *)
Lemma erase_NoDup k (c : chain) :
  NoDup (NodeList.keys c) -> NoDup (NodeList.keys (NodeList.erase k c).1).
Proof.
  unfold NodeList.keys. intros Hnd.
  eapply sublist_NoDup; [exact Hnd | apply fmap_sublist, erase_sublist].
Qed.
End Chains.

(** ** The container: indices and locks *)

Section Stripes.
Context {Key Value : Type} `{EqDecision Key}.

Local Abbreviation chain := (NodeList.t Key Value).
Local Abbreviation hashmap := (Hashmap.t Key Value).

Lemma config_ceil (m : hashmap) :
  config_ok m ->
  is_ceil_div (Hashmap.mCapacity m) (Hashmap.mMutexCount m)
    (Hashmap.mIndicesPerMutex m).
Proof.
  intros [Hmc Hcap Hipm _ _]. rewrite Hipm.
  apply getIndicesPerMutex_ceil; [done |].
  unfold sizeof_NodeList, sizeof_pointer in Hcap. lia.
Qed.

Lemma getIndex_range (m : hashmap) k :
  config_ok m -> 0 <= Hashmap.getIndex m k < Hashmap.mCapacity m.
Proof.
  intros [Hmc _ _ _ _]. unfold Hashmap.getIndex.
  apply Z.mod_pos_bound. lia.
Qed.

(** [mTable[getIndex(key)]] is inside the bucket array. *)
Lemma bucket_getIndex (m : hashmap) k :
  config_ok m -> is_Some (Hashmap.bucket m (Hashmap.getIndex m k)).
Proof.
  intros Hcfg. unfold Hashmap.bucket. apply lookup_lt_is_Some.
  pose proof (getIndex_range m k Hcfg). rewrite (cfg_table m Hcfg). lia.
Qed.

(** [getMutex] of a bucket index divides by a positive number and stays
    inside the mutex array. *)
Lemma getMutex_range (m : hashmap) index :
  config_ok m -> 0 <= index < Hashmap.mCapacity m ->
  exists i, Hashmap.getMutex m index = Some i /\
    i = index / Hashmap.mIndicesPerMutex m /\
    0 <= i < Hashmap.mMutexCount m /\
    is_Some (Hashmap.mMutexes m !! Z.to_nat i).
Proof.
  intros Hcfg Hidx. pose proof (config_ceil m Hcfg) as Hceil.
  pose proof (cfg_mutexCount m Hcfg) as Hmc.
  destruct (mutex_index_bound _ _ _ index (proj1 Hmc) Hceil Hidx)
    as [Hq Hi].
  exists (index / Hashmap.mIndicesPerMutex m). unfold Hashmap.getMutex.
  destruct (Z.eqb_spec (Hashmap.mIndicesPerMutex m) 0); [lia |].
  repeat split; try lia.
  apply lookup_lt_is_Some. rewrite (cfg_mutexes m Hcfg). lia.
Qed.

Lemma stripe_mutex_is_Some (m : hashmap) k :
  config_ok m -> is_Some (stripe_mutex m k).
Proof.
  intros Hcfg.
  destruct (getMutex_range m _ Hcfg (getIndex_range m k Hcfg))
    as (i & Hi & _ & _ & Hsome).
  unfold stripe_mutex. rewrite Hi. done.
Qed.

(** Releasing the mutex that was free before it was locked restores the
    mutex array. *)
Lemma unlock_set_mutex (m : hashmap) i :
  Hashmap.mMutexes m !! Z.to_nat i = Some false ->
  Hashmap.unlock i (Hashmap.set_mutex i true m) = m.
Proof.
  intros Hfree. destruct m as [cap mc ipm h sz tbl mtx].
  unfold Hashmap.unlock, Hashmap.set_mutex. simpl in *. f_equal.
  rewrite list_insert_insert_eq. by apply list_insert_id.
Qed.

(** Replacing one chain changes the number of nodes by the difference of
    the chain lengths. *)
Lemma concat_insert_length (tbl : list chain) i (c c' : chain) :
  tbl !! i = Some c ->
  (length (concat (<[i:=c']> tbl)) + length c =
   length (concat tbl) + length c')%nat.
Proof.
  revert i. induction tbl as [| c0 tbl IH]; intros [| i]; simpl; try done.
  - intros [= ->]. rewrite !length_app. lia.
  - intros Hc. rewrite !length_app. specialize (IH i Hc). lia.
Qed.
End Stripes.

(** ** The container: the read operations *)

Section Reads.
Context {Key Value : Type} `{EqDecision Key}.

Local Abbreviation chain := (NodeList.t Key Value).
Local Abbreviation hashmap := (Hashmap.t Key Value).

Lemma find_stored k (m : hashmap) :
  config_ok m -> stripe_mutex m k = Some false ->
  Hashmap.find k m =
  Hashmap.Returns (bool_decide (is_Some (stored m k))) m.
Proof.
  intros Hcfg Hfree. unfold Hashmap.find, stored.
  enter_locked Hfree i.
  destruct (bucket_getIndex m k Hcfg) as [c ->]. simpl.
  rewrite unlock_set_mutex by done. f_equal.
  apply bool_decide_ext, find_is_Some.
Qed.

Lemma getCopy_stored k (m : hashmap) :
  config_ok m -> stripe_mutex m k = Some false ->
  Hashmap.getCopy k m =
  match stored m k with
  | Some v => Hashmap.Returns v m
  | None => Hashmap.Throws KeyNotFound m
  end.
Proof.
  intros Hcfg Hfree. unfold Hashmap.getCopy, stored.
  enter_locked Hfree i.
  destruct (bucket_getIndex m k Hcfg) as [c ->]. simpl.
  rewrite unlock_set_mutex by done. unfold chain_value.
  by destruct (NodeList.find k c ≫= (c !!.)).
Qed.

Lemma get_stored k (m : hashmap) :
  config_ok m -> stripe_mutex m k = Some false ->
  exists i, Hashmap.getMutex m (Hashmap.getIndex m k) = Some i /\
    Hashmap.get k m =
    match stored m k with
    | Some v =>
        Hashmap.Returns {| Hashmap.first := v; Hashmap.second := i |}
          (Hashmap.set_mutex i true m)
    | None => Hashmap.Throws KeyNotFound m
    end.
Proof.
  intros Hcfg Hfree. unfold Hashmap.get, stored.
  enter_locked Hfree i. exists i. split; [done |].
  destruct (bucket_getIndex m k Hcfg) as [c ->]. simpl.
  rewrite unlock_set_mutex by done. unfold chain_value.
  by destruct (NodeList.find k c ≫= (c !!.)).
Qed.
End Reads.

(** ** The container: the write operations *)

Section Writes.
Context {Key Value : Type} `{EqDecision Key}.

Local Abbreviation chain := (NodeList.t Key Value).
Local Abbreviation hashmap := (Hashmap.t Key Value).

(** The state [insert] and [erase] leave: the chain replaced, the counter
    set, the mutex released. *)
Lemma unlock_write (m : hashmap) i index (c : chain) n :
  Hashmap.mMutexes m !! Z.to_nat i = Some false ->
  Hashmap.unlock i
    (Hashmap.set_size n
       (Hashmap.set_bucket index c (Hashmap.set_mutex i true m))) =
  Hashmap.set_size n (Hashmap.set_bucket index c m).
Proof.
  intros Hfree. destruct m as [cap mc ipm h sz tbl mtx].
  unfold Hashmap.unlock, Hashmap.set_size, Hashmap.set_bucket,
    Hashmap.set_mutex. simpl in *. f_equal.
  rewrite list_insert_insert_eq. by apply list_insert_id.
Qed.

Lemma set_size_id (m : hashmap) : Hashmap.set_size (Hashmap.mSize m) m = m.
Proof. by destruct m. Qed.

Lemma same_frame_write (m : hashmap) index (c : chain) n :
  same_frame m (Hashmap.set_size n (Hashmap.set_bucket index c m)).
Proof. constructor; simpl; try done. apply length_insert. Qed.

Lemma stored_write (m : hashmap) k (c0 c : chain) n k' :
  config_ok m ->
  Hashmap.bucket m (Hashmap.getIndex m k) = Some c0 ->
  stored (Hashmap.set_size n (Hashmap.set_bucket (Hashmap.getIndex m k) c m))
    k' =
  if decide (Hashmap.getIndex m k' = Hashmap.getIndex m k)
  then chain_value k' c else stored m k'.
Proof.
  intros Hcfg Hc0. unfold stored, Hashmap.bucket in *.
  change (Hashmap.getIndex (Hashmap.set_size _ (Hashmap.set_bucket _ _ m)) k')
    with (Hashmap.getIndex m k').
  simpl. pose proof (lookup_lt_Some _ _ _ Hc0) as Hlt.
  destruct (decide (Hashmap.getIndex m k' = Hashmap.getIndex m k))
    as [-> | Hne].
  - by rewrite list_lookup_insert_eq.
  - rewrite list_lookup_insert_ne; [done |].
    pose proof (getIndex_range m k Hcfg).
    pose proof (getIndex_range m k' Hcfg). lia.
Qed.

Lemma entries_write (m : hashmap) index (c0 c : chain) n :
  Hashmap.bucket m index = Some c0 ->
  entries (Hashmap.set_size n (Hashmap.set_bucket index c m)) =
  entries m - Z.of_nat (length c0) + Z.of_nat (length c).
Proof.
  unfold entries, Hashmap.bucket. simpl. intros Hc0.
  pose proof (concat_insert_length _ _ _ c Hc0). lia.
Qed.

Lemma chain_inv_write (m : hashmap) index (c : chain) n :
  chain_inv m ->
  NoDup (NodeList.keys c) ->
  (forall k, k ∈ NodeList.keys c ->
     Z.to_nat (Hashmap.getIndex m k) = Z.to_nat index) ->
  chain_inv (Hashmap.set_size n (Hashmap.set_bucket index c m)).
Proof.
  intros Hinv Hnd Hplace i c1. simpl.
  intros [(<- & <- & _) | (Hne & Hc1)]%list_lookup_insert_Some.
  - done.
  - by apply Hinv.
Qed.
End Writes.

Section WriteSpecs.
Context {Key Value : Type} `{EqDecision Key}.

Local Abbreviation chain := (NodeList.t Key Value).
Local Abbreviation hashmap := (Hashmap.t Key Value).

Lemma stored_bucket (m : hashmap) k (c : chain) :
  Hashmap.bucket m (Hashmap.getIndex m k) = Some c ->
  stored m k = chain_value k c.
Proof. unfold stored. by intros ->. Qed.

(** [insert] with its stripe mutex free: what it returns and the state it
    leaves. *)
Lemma insert_spec k v (m : hashmap) :
  config_ok m -> stripe_mutex m k = Some false ->
  exists m', Hashmap.insert k v m = Hashmap.Returns () m' /\
    same_frame m m' /\
    (forall k',
       stored m' k' = if decide (k = k') then Some v else stored m k') /\
    Hashmap.mSize m' =
      (if stored m k is Some _ then Hashmap.mSize m
       else wrap (Hashmap.mSize m + 1)) /\
    entries m' = (if stored m k is Some _ then entries m else entries m + 1) /\
    (chain_inv m -> chain_inv m').
Proof.
  intros Hcfg Hfree. unfold Hashmap.insert.
  enter_locked Hfree i.
  destruct (bucket_getIndex m k Hcfg) as [c Hc]. rewrite Hc.
  rewrite (stored_bucket m k c Hc).
  pose proof (insert_inserted k v c) as Hb.
  pose proof (insert_length k v c) as Hlen.
  pose proof (insert_keys k v c) as Hkeys.
  pose proof (fun k' => insert_value k v k' c) as Hval.
  pose proof (insert_NoDup k v c) as Hnd.
  destruct (NodeList.insert k v c) as [c' b]. simpl in *.
  set (n := if b then wrap (Hashmap.mSize m + 1) else Hashmap.mSize m).
  exists (Hashmap.set_size n
            (Hashmap.set_bucket (Hashmap.getIndex m k) c' m)).
  split; [| split; [| split; [| split; [| split]]]].
  - f_equal. rewrite <- (unlock_write m i _ c' n Hfree). subst n.
    destruct b; [done |].
    by rewrite <- (set_size_id (Hashmap.set_bucket _ _ _)) at 1.
  - apply same_frame_write.
  - intros k'. rewrite (stored_write m k c c' n k' Hcfg Hc), Hval.
    destruct (decide (Hashmap.getIndex m k' = Hashmap.getIndex m k))
      as [Hidx | Hidx].
    + rewrite <- Hidx in Hc. by rewrite (stored_bucket m k' c Hc).
    + destruct (decide (k = k')) as [-> | Hne]; done.
  - subst n. simpl. destruct b, (chain_value k c); intuition congruence.
  - rewrite (entries_write m _ c c' n Hc), Hlen.
    destruct b, (chain_value k c); try (intuition congruence); lia.
  - intros Hinv. destruct (Hinv _ _ Hc) as [Hnd0 Hplace].
    apply chain_inv_write; [done | by apply Hnd |].
    intros k'. rewrite Hkeys. destruct b; [| by apply Hplace].
    intros [-> | Hin]%elem_of_cons; [done | by apply Hplace].
Qed.

(** [erase] with its stripe mutex free. *)
Lemma erase_spec k (m : hashmap) :
  config_ok m -> chain_inv m -> stripe_mutex m k = Some false ->
  exists m', Hashmap.erase k m = Hashmap.Returns () m' /\
    same_frame m m' /\
    (forall k', stored m' k' = if decide (k = k') then None else stored m k') /\
    Hashmap.mSize m' =
      (if stored m k is Some _ then wrap (Hashmap.mSize m - 1)
       else Hashmap.mSize m) /\
    entries m' = (if stored m k is Some _ then entries m - 1 else entries m) /\
    chain_inv m'.
Proof.
  intros Hcfg Hinv Hfree. unfold Hashmap.erase.
  enter_locked Hfree i.
  destruct (bucket_getIndex m k Hcfg) as [c Hc]. rewrite Hc.
  rewrite (stored_bucket m k c Hc).
  destruct (Hinv _ _ Hc) as [Hnd0 Hplace].
  pose proof (erase_erased k c) as Hb.
  pose proof (erase_length k c) as Hlen.
  pose proof (erase_sublist k c) as Hsub.
  pose proof (fun k' => erase_value k k' c Hnd0) as Hval.
  pose proof (erase_NoDup k c Hnd0) as Hnd.
  destruct (NodeList.erase k c) as [c' b]. simpl in *.
  set (n := if b then wrap (Hashmap.mSize m - 1) else Hashmap.mSize m).
  exists (Hashmap.set_size n
            (Hashmap.set_bucket (Hashmap.getIndex m k) c' m)).
  split; [| split; [| split; [| split; [| split]]]].
  - f_equal. rewrite <- (unlock_write m i _ c' n Hfree). subst n.
    destruct b; [done |].
    by rewrite <- (set_size_id (Hashmap.set_bucket _ _ _)) at 1.
  - apply same_frame_write.
  - intros k'. rewrite (stored_write m k c c' n k' Hcfg Hc), Hval.
    destruct (decide (Hashmap.getIndex m k' = Hashmap.getIndex m k))
      as [Hidx | Hidx].
    + rewrite <- Hidx in Hc. by rewrite (stored_bucket m k' c Hc).
    + destruct (decide (k = k')) as [-> | Hne]; done.
  - subst n. simpl. rewrite <- not_eq_None_Some in Hb.
    destruct b, (chain_value k c); intuition congruence.
  - rewrite (entries_write m _ c c' n Hc), Hlen.
    rewrite <- not_eq_None_Some in Hb.
    destruct b, (chain_value k c); try (intuition congruence); lia.
  - apply chain_inv_write; [done | done |].
    intros k' Hin. apply Hplace.
    eapply elem_of_sublist; [exact Hin |]. by apply fmap_sublist.
Qed.
End WriteSpecs.

(** ** Well-formedness along the container's life *)

Section Lifetime.
Context {Key Value : Type} `{EqDecision Key}.

Local Abbreviation chain := (NodeList.t Key Value).
Local Abbreviation hashmap := (Hashmap.t Key Value).

Lemma same_frame_config (m m' : hashmap) : same_frame m m' -> same_config m m'.
Proof. intros [? ? ? ? ? ?]. by repeat split. Qed.

Lemma config_ok_frame (m m' : hashmap) :
  same_frame m m' -> config_ok m -> config_ok m'.
Proof.
  intros [Hc Hmc Hi Hh Hm Ht] [? ? ? ? ?].
  constructor; rewrite ?Hc, ?Hmc, ?Hi, ?Hm, ?Ht; done.
Qed.

Lemma wf_set_mutex (m : hashmap) i b : wf m -> wf (Hashmap.set_mutex i b m).
Proof.
  intros [[? ? ? ? ?] Hinv Hsize]. constructor; [constructor | |]; try done.
  simpl. by rewrite length_insert.
Qed.

(** A call that returns or throws found its stripe mutex free. *)
Lemma final_locked {A} (m m' : hashmap) k
    (body : Z -> hashmap -> Hashmap.outcome Key Value A) :
  final (Hashmap.locked m (Hashmap.getIndex m k) body) = Some m' ->
  stripe_mutex m k = Some false.
Proof.
  unfold Hashmap.locked, stripe_mutex.
  destruct (Hashmap.getMutex m (Hashmap.getIndex m k)) as [i |]; [| done].
  simpl. by destruct (Hashmap.mMutexes m !! Z.to_nat i) as [[|] |].
Qed.

Lemma wrap_succ z : wrap (wrap z + 1) = wrap (z + 1).
Proof. unfold wrap. by rewrite Zplus_mod_idemp_l. Qed.

Lemma wrap_pred z : wrap (wrap z - 1) = wrap (z - 1).
Proof. unfold wrap. by rewrite Zminus_mod_idemp_l. Qed.

(** Every call keeps the container well-formed and its [const] members
    as they are. *)
Lemma wf_after c (m m' : hashmap) :
  wf m -> after c m = Some m' -> wf m' /\ same_config m m'.
Proof.
  intros Hwf. pose proof Hwf as [Hcfg Hinv Hsize].
  destruct c as [| | k | k | k | k v | k | lv]; simpl.
  - by intros [= <-].
  - by intros [= <-].
  - intros Hfin. pose proof (final_locked _ _ _ _ Hfin) as Hfree.
    rewrite (find_stored k m Hcfg Hfree) in Hfin.
    by injection Hfin as <-.
  - intros Hfin. pose proof (final_locked _ _ _ _ Hfin) as Hfree.
    rewrite (getCopy_stored k m Hcfg Hfree) in Hfin.
    destruct (stored m k); by injection Hfin as <-.
  - intros Hfin. pose proof (final_locked _ _ _ _ Hfin) as Hfree.
    destruct (get_stored k m Hcfg Hfree) as (i & _ & Hget).
    rewrite Hget in Hfin.
    destruct (stored m k); injection Hfin as <-; [| done].
    split; [by apply wf_set_mutex | done].
  - intros Hfin. pose proof (final_locked _ _ _ _ Hfin) as Hfree.
    destruct (insert_spec k v m Hcfg Hfree)
      as (m1 & Hins & Hframe & _ & Hsz & Hent & Hinv1).
    rewrite Hins in Hfin. injection Hfin as <-.
    split; [| by apply same_frame_config].
    constructor; [by apply (config_ok_frame m) | by apply Hinv1 |].
    rewrite Hsz, Hent, Hsize.
    destruct (stored m k); [done | apply wrap_succ].
  - intros Hfin. pose proof (final_locked _ _ _ _ Hfin) as Hfree.
    destruct (erase_spec k m Hcfg Hinv Hfree)
      as (m1 & Hers & Hframe & _ & Hsz & Hent & Hinv1).
    rewrite Hers in Hfin. injection Hfin as <-.
    split; [| by apply same_frame_config].
    constructor; [by apply (config_ok_frame m) | done |].
    rewrite Hsz, Hent, Hsize.
    destruct (stored m k); [apply wrap_pred | done].
  - destruct (Hashmap.mMutexes m !! _) as [[|] |]; try done.
    intros [= <-]. split; [by apply wf_set_mutex | done].
Qed.

Lemma lifetime_wf (m0 m : hashmap) :
  wf m0 -> lifetime m0 m -> wf m /\ same_config m0 m.
Proof.
  intros Hwf0 Hlife.
  induction Hlife as [m | m1 m2 m3 [c Hstep] _ IH].
  - done.
  - destruct (wf_after c m1 m2 Hwf0 Hstep) as [Hwf2 (? & ? & ? & ?)].
    destruct (IH Hwf2) as [Hwf3 (? & ? & ? & ?)].
    split; [done |]. repeat split; congruence.
Qed.
End Lifetime.

(** ** Keys of the whole table *)

Section TableKeys.
Context {Key Value : Type} `{EqDecision Key}.

Local Abbreviation chain := (NodeList.t Key Value).
Local Abbreviation hashmap := (Hashmap.t Key Value).

Lemma elem_of_keys_concat k (tbl : list chain) :
  k ∈ NodeList.keys (concat tbl) <->
  exists i c, tbl !! i = Some c /\ k ∈ NodeList.keys c.
Proof.
  unfold NodeList.keys. induction tbl as [| c0 tbl IH]; simpl.
  - split; [by intros ?%elem_of_nil | by intros (i & c & ? & _)].
  - rewrite fmap_app, elem_of_app, IH. split.
    + intros [Hin | (i & c & Hc & Hin)].
      * by exists 0%nat, c0.
      * by exists (S i), c.
    + intros ([| i] & c & Hc & Hin); simpl in Hc.
      * left. by injection Hc as ->.
      * right. by exists i, c.
Qed.

(** Chains with distinct keys that sit in buckets chosen by a function of
    the key have distinct keys altogether. *)
Lemma keys_concat_NoDup (f : Key -> nat) (tbl : list chain) off :
  (forall i c, tbl !! i = Some c ->
     NoDup (NodeList.keys c) /\
     forall k, k ∈ NodeList.keys c -> f k = (off + i)%nat) ->
  NoDup (NodeList.keys (concat tbl)).
Proof.
  revert off. induction tbl as [| c0 tbl IH]; intros off Hinv.
  - apply NoDup_nil_2.
  - unfold NodeList.keys. simpl. rewrite fmap_app. apply NoDup_app.
    destruct (Hinv 0%nat c0 eq_refl) as [Hnd0 Hplace0].
    split; [done |]. split.
    + intros k Hk0 (i & c & Hc & Hin)%elem_of_keys_concat.
      destruct (Hinv (S i) c Hc) as [_ Hplace].
      specialize (Hplace0 k Hk0). specialize (Hplace k Hin). lia.
    + apply (IH (S off)). intros i c Hc.
      destruct (Hinv (S i) c Hc) as [Hnd Hplace].
      split; [done |]. intros k Hk. rewrite (Hplace k Hk). lia.
Qed.

(** The chain invariant gives each key at most one node in the table. *)
Lemma chain_inv_NoDup (m : hashmap) :
  chain_inv m -> NoDup (NodeList.keys (concat (Hashmap.mTable m))).
Proof.
  intros Hinv.
  apply (keys_concat_NoDup
           (fun k => Z.to_nat (Hashmap.getIndex m k)) _ 0%nat).
  intros i c Hc. by apply Hinv.
Qed.

(** A key is in the map exactly when its own bucket has a value for
    it. *)
Lemma contains_stored (m : hashmap) k :
  config_ok m -> chain_inv m -> contains m k <-> is_Some (stored m k).
Proof.
  intros Hcfg Hinv. unfold contains. rewrite elem_of_keys_concat.
  destruct (bucket_getIndex m k Hcfg) as [c Hc].
  rewrite (stored_bucket m k c Hc), <- not_eq_None_Some, chain_value_None.
  split.
  - intros (i & c' & Hc' & Hin) Hnot.
    destruct (Hinv i c' Hc') as [_ Hplace].
    unfold Hashmap.bucket in Hc. rewrite (Hplace k Hin) in Hc.
    congruence.
  - intros Hin. exists (Z.to_nat (Hashmap.getIndex m k)), c.
    split; [done |]. by apply dec_stable.
Qed.

Lemma absent_stored (m : hashmap) k :
  config_ok m -> chain_inv m -> ~ contains m k <-> stored m k = None.
Proof.
  intros Hcfg Hinv.
  rewrite (contains_stored m k Hcfg Hinv), <- not_eq_None_Some.
  split; [apply dec_stable | by intros -> ?].
Qed.

(** [erase] of a key that is not in the map leaves the state as it
    is. *)
Lemma erase_absent k (m : hashmap) :
  config_ok m -> stripe_mutex m k = Some false -> stored m k = None ->
  Hashmap.erase k m = Hashmap.Returns () m.
Proof.
  intros Hcfg Hfree Habs. unfold Hashmap.erase.
  enter_locked Hfree i.
  destruct (bucket_getIndex m k Hcfg) as [c Hc]. rewrite Hc.
  rewrite (stored_bucket m k c Hc) in Habs.
  rewrite erase_unlink.
  apply unlink_None in Habs as ->. f_equal.
  rewrite <- (set_size_id (Hashmap.set_bucket _ _ _)).
  rewrite unlock_write by done.
  destruct m as [cap mc ipm h sz tbl mtx].
  unfold Hashmap.set_size, Hashmap.set_bucket, Hashmap.bucket in *.
  simpl in *. f_equal. by apply list_insert_id.
Qed.
End TableKeys.

(** ** Sequences of calls on an idle container *)

Section Sequences.
Context {Key Value : Type} `{EqDecision Key}.

Local Abbreviation chain := (NodeList.t Key Value).
Local Abbreviation hashmap := (Hashmap.t Key Value).

Lemma stripe_mutex_frame (m m' : hashmap) k :
  same_frame m m' -> stripe_mutex m' k = stripe_mutex m k.
Proof.
  intros [Hc _ Hi Hh Hm _].
  unfold stripe_mutex, Hashmap.getMutex, Hashmap.getIndex.
  by rewrite Hc, Hi, Hh, Hm.
Qed.

Lemma idle_frame (m m' : hashmap) : same_frame m m' -> idle m -> idle m'.
Proof. intros Hframe Hidle k. by rewrite (stripe_mutex_frame m m'). Qed.

(** A constructed container has all its mutexes free. *)
Lemma construct_idle capacity concurrencyLevel hasher (m : hashmap) :
  is_size_t capacity -> is_size_t concurrencyLevel ->
  Hashmap.construct capacity concurrencyLevel hasher = inr m ->
  idle m.
Proof.
  intros Hc Hl Hm k.
  pose proof (construct_config _ _ _ _ Hc Hl Hm) as Hcfg.
  destruct (stripe_mutex_is_Some m k Hcfg) as [b Hb]. rewrite Hb.
  apply construct_inr in Hm as (_ & _ & _ & ->).
  unfold stripe_mutex in Hb.
  destruct (Hashmap.getMutex _ _) as [i |]; [| done].
  simpl in Hb. by apply lookup_replicate in Hb as [-> _].
Qed.

(** Inserting pairs with distinct keys one after the other stores every
    pair and touches no other key. *)
Lemma insert_all_spec (kvs : list (Key * Value)) (m : hashmap) :
  wf m -> idle m -> NoDup kvs.*1 ->
  exists m', insert_all kvs m = Some m' /\ wf m' /\ idle m' /\
    (forall k v, (k, v) ∈ kvs -> stored m' k = Some v) /\
    (forall k, k ∉ kvs.*1 -> stored m' k = stored m k).
Proof.
  revert m. induction kvs as [| [k v] kvs IH]; intros m Hwf Hidle Hnd.
  - exists m. split; [done |]. split; [done |]. split; [done |].
    split; [| done]. by intros k v ?%elem_of_nil.
  - rewrite fmap_cons in Hnd. apply NoDup_cons in Hnd as [Hk Hnd].
    destruct (insert_spec k v m (wf_config m Hwf) (Hidle k))
      as (m1 & Hins & Hframe & Hst & _).
    assert (after (CallInsert k v) m = Some m1) as Hafter
      by (simpl; by rewrite Hins).
    destruct (wf_after _ _ _ Hwf Hafter) as [Hwf1 _].
    destruct (IH m1 Hwf1 (idle_frame m m1 Hframe Hidle) Hnd)
      as (m' & Hall & Hwf' & Hidle' & Hin & Hout).
    exists m'. simpl. rewrite Hins. simpl.
    split; [done |]. split; [done |]. split; [done |]. split.
    + intros k' v' [[= -> ->] | Hin']%elem_of_cons.
      * rewrite (Hout k Hk), Hst. by rewrite decide_True.
      * by apply Hin.
    + intros k' [Hne Hnotin]%not_elem_of_cons.
      rewrite (Hout k' Hnotin), Hst. by rewrite decide_False.
Qed.
End Sequences.

(** * The specification's properties *)

Section Specification.
Context {Key Value : Type} `{EqDecision Key}.

Local Abbreviation chain := (NodeList.t Key Value).
Local Abbreviation hashmap := (Hashmap.t Key Value).

Lemma in_memory_size (m : hashmap) :
  wf m -> in_memory m ->
  Hashmap.mSize m = entries m /\ 0 <= entries m /\ entries m + 1 <= SIZE_MAX.
Proof.
  intros Hwf Hmem. rewrite (wf_size m Hwf).
  unfold in_memory, sizeof_pointer, SIZE_MAX in *.
  assert (0 <= entries m) by (unfold entries; lia).
  rewrite wrap_small by (unfold SIZE_MAX; lia). lia.
Qed.

(** C1. [insert] has upsert semantics. In every well-formed state whose
    stripe mutex is free, [insert(key, value)] returns, and a [getCopy]
    of the key that follows returns the inserted value. If the key was
    absent, one node is added and [size()] grows by exactly 1; if it was
    present, the number of nodes and [size()] stay as they are, the value
    of the existing node being overwritten. *)
Theorem insert_upsert k v (m : hashmap) :
  wf m -> in_memory m -> stripe_mutex m k = Some false ->
  exists m', Hashmap.insert k v m = Hashmap.Returns () m' /\
    Hashmap.getCopy k m' = Hashmap.Returns v m' /\
    (~ contains m k ->
       Hashmap.size m' = Hashmap.size m + 1 /\ entries m' = entries m + 1) /\
    (contains m k ->
       Hashmap.size m' = Hashmap.size m /\ entries m' = entries m).
Proof.
  intros Hwf Hmem Hfree. pose proof Hwf as [Hcfg Hinv _].
  destruct (in_memory_size m Hwf Hmem) as (Hsz & Hent0 & Hent1).
  destruct (insert_spec k v m Hcfg Hfree)
    as (m' & Hins & Hframe & Hst & Hsize & Hent & _).
  exists m'. split; [done |]. split; [| split].
  - rewrite getCopy_stored.
    + by rewrite Hst, decide_True.
    + by apply (config_ok_frame m).
    + by rewrite (stripe_mutex_frame m m').
  - intros Habs%absent_stored; [| done | done].
    rewrite Habs in Hsize, Hent. unfold Hashmap.size.
    split; [| done]. rewrite Hsize, wrap_small; lia.
  - intros [v0 Hv0]%contains_stored; [| done | done].
    rewrite Hv0 in Hsize, Hent. done.
Qed.

(** C2. For a key that is absent from a well-formed map whose stripe
    mutex is free, [find] returns [false] and both [getCopy] and [get]
    throw [KeyNotFound]; each leaves the state, mutexes included, exactly
    as it was. On a freshly constructed container, [insert(k, v)] followed
    by [getCopy(k)] returns [v], and [size()] is 1. *)
Theorem absent_key_contract :
  (forall k (m : hashmap),
     wf m -> stripe_mutex m k = Some false -> ~ contains m k ->
     Hashmap.find k m = Hashmap.Returns false m /\
     Hashmap.getCopy k m = Hashmap.Throws KeyNotFound m /\
     Hashmap.get k m = Hashmap.Throws KeyNotFound m) /\
  (forall capacity concurrencyLevel hasher (m0 : hashmap) k v,
     is_size_t capacity -> is_size_t concurrencyLevel ->
     Hashmap.construct capacity concurrencyLevel hasher = inr m0 ->
     exists m1, Hashmap.insert k v m0 = Hashmap.Returns () m1 /\
       Hashmap.getCopy k m1 = Hashmap.Returns v m1 /\
       Hashmap.size m1 = 1).
Proof.
  split.
  - intros k m [Hcfg Hinv _] Hfree Habs%absent_stored; [| done | done].
    split; [| split].
    + rewrite find_stored, Habs by done. f_equal.
    + by rewrite getCopy_stored, Habs.
    + destruct (get_stored k m Hcfg Hfree) as (i & _ & ->).
      by rewrite Habs.
  - intros capacity concurrencyLevel hasher m0 k v Hc Hl Hm0.
    pose proof (construct_config _ _ _ _ Hc Hl Hm0) as Hcfg.
    pose proof (construct_idle _ _ _ _ Hc Hl Hm0 k) as Hfree.
    destruct (insert_spec k v m0 Hcfg Hfree)
      as (m1 & Hins & Hframe & Hst & Hsize & _).
    exists m1. split; [done |]. split.
    + rewrite getCopy_stored.
      * by rewrite Hst, decide_True.
      * by apply (config_ok_frame m0).
      * by rewrite (stripe_mutex_frame m0 m1).
    + unfold Hashmap.size. rewrite Hsize.
      destruct (bucket_getIndex m0 k Hcfg) as [c Hc0].
      rewrite (stored_bucket m0 k c Hc0).
      apply construct_inr in Hm0 as (_ & _ & _ & ->).
      unfold Hashmap.bucket in Hc0. simpl in Hc0.
      apply lookup_replicate in Hc0 as [-> _]. done.
Qed.

(** C3. In every well-formed state whose stripe mutex is free,
    [erase(key)] returns without an error and the key is not in the map
    afterwards. If the key was present, one node is removed and [size()]
    drops by exactly 1; if it was absent, the state is unchanged. *)
Theorem erase_removes k (m : hashmap) :
  wf m -> in_memory m -> stripe_mutex m k = Some false ->
  exists m', Hashmap.erase k m = Hashmap.Returns () m' /\
    ~ contains m' k /\
    (contains m k ->
       Hashmap.size m' = Hashmap.size m - 1 /\ entries m' = entries m - 1) /\
    (~ contains m k -> m' = m).
Proof.
  intros Hwf Hmem Hfree. pose proof Hwf as [Hcfg Hinv _].
  destruct (in_memory_size m Hwf Hmem) as (Hsz & Hent0 & Hent1).
  destruct (erase_spec k m Hcfg Hinv Hfree)
    as (m' & Hers & Hframe & Hst & Hsize & Hent & Hinv').
  exists m'. split; [done |]. split; [| split].
  - apply absent_stored; [by apply (config_ok_frame m) | done |].
    by rewrite Hst, decide_True.
  - intros [v0 Hv0]%contains_stored; [| done | done].
    rewrite Hv0 in Hsize, Hent. unfold Hashmap.size.
    assert (0 <= entries m') by (unfold entries; lia).
    split; [| done]. rewrite Hsize, wrap_small; lia.
  - intros Habs%absent_stored; [| done | done].
    rewrite (erase_absent k m Hcfg Hfree Habs) in Hers.
    by injection Hers.
Qed.
(** C4. Construction throws [InvalidCapacity] for capacity 0, whatever the
    concurrency level, and [InvalidConcurrencyLevel] for concurrency level
    0 with a positive capacity; the result is then the exception and no
    container. With capacity 1 and concurrency level 1 it yields a
    container with one mutex. *)
Theorem construct_validation (hasher : Key -> Z) :
  (forall concurrencyLevel,
     Hashmap.construct (Value:=Value) 0 concurrencyLevel hasher =
     inl (HashmapException InvalidCapacity)) /\
  (forall capacity, 0 < capacity ->
     Hashmap.construct (Value:=Value) capacity 0 hasher =
     inl (HashmapException InvalidConcurrencyLevel)) /\
  (exists m : hashmap,
     Hashmap.construct 1 1 hasher = inr m /\ Hashmap.mMutexCount m = 1 /\
     length (Hashmap.mMutexes m) = 1%nat).
Proof.
  split; [| split].
  - done.
  - intros capacity Hpos. unfold Hashmap.construct, Hashmap.getMutexCount.
    by destruct (Z.eqb_spec capacity 0); [lia |].
  - by eexists.
Qed.

(** C5. Every operation preserves the chain invariant. The chain-level
    [insert] and [erase] keep the keys of a chain distinct; a constructed
    container satisfies the invariant; and every call on a well-formed
    container leaves each chain with distinct keys, every node in the
    bucket of its key, and hence at most one node per key in the whole
    table. *)
Theorem chain_invariant_preserved :
  (forall k v (c : chain),
     NoDup (NodeList.keys c) ->
     NoDup (NodeList.keys (NodeList.insert k v c).1)) /\
  (forall k (c : chain),
     NoDup (NodeList.keys c) ->
     NoDup (NodeList.keys (NodeList.erase k c).1)) /\
  (forall capacity concurrencyLevel hasher (m0 : hashmap),
     is_size_t capacity -> is_size_t concurrencyLevel ->
     Hashmap.construct capacity concurrencyLevel hasher = inr m0 ->
     chain_inv m0) /\
  (forall c (m m' : hashmap),
     wf m -> after c m = Some m' ->
     chain_inv m' /\ NoDup (NodeList.keys (concat (Hashmap.mTable m')))).
Proof.
  split; [| split; [| split]].
  - apply insert_NoDup.
  - apply erase_NoDup.
  - intros capacity concurrencyLevel hasher m0 Hc Hl Hm0.
    by destruct (construct_wf _ _ _ _ Hc Hl Hm0).
  - intros c m m' Hwf Hafter.
    destruct (wf_after c m m' Hwf Hafter) as [[_ Hinv _] _].
    split; [done | by apply chain_inv_NoDup].
Qed.

(** C6. For every constructed container, at every moment of its life,
    [mIndicesPerMutex] is what [getIndicesPerMutex] computed from the
    capacity and the mutex count, and it is the exact ceiling of
    capacity / mutex count; when the division leaves a remainder it is
    [(capacity + mutexCount) / mutexCount], computed without overflow.
    The same holds for every mutex count between 1 and the capacity of a
    constructed container. *)
Theorem indicesPerMutex_ceiling capacity concurrencyLevel hasher
    (m0 m : hashmap) :
  is_size_t capacity -> is_size_t concurrencyLevel ->
  Hashmap.construct capacity concurrencyLevel hasher = inr m0 ->
  lifetime m0 m ->
  Hashmap.mIndicesPerMutex m =
    Hashmap.getIndicesPerMutex capacity (Hashmap.mMutexCount m) /\
  is_ceil_div capacity (Hashmap.mMutexCount m) (Hashmap.mIndicesPerMutex m) /\
  (capacity mod Hashmap.mMutexCount m <> 0 ->
     Hashmap.mIndicesPerMutex m =
     (capacity + Hashmap.mMutexCount m) / Hashmap.mMutexCount m) /\
  (forall mutexCount, 1 <= mutexCount <= capacity ->
     is_ceil_div capacity mutexCount
       (Hashmap.getIndicesPerMutex capacity mutexCount)).
Proof.
  intros Hc Hl Hm0 Hlife.
  pose proof (construct_wf _ _ _ _ Hc Hl Hm0) as Hwf0.
  destruct (lifetime_wf m0 m Hwf0 Hlife) as [[Hcfg _ _] (Hcap & _)].
  pose proof (config_ceil m Hcfg) as Hceil.
  pose proof (cfg_indices m Hcfg) as Hipm.
  pose proof (cfg_mutexCount m Hcfg) as Hmc.
  pose proof (cfg_capacity m Hcfg) as Hfit.
  assert (Hashmap.mCapacity m = capacity) as Hcapacity.
  { rewrite Hcap. by apply construct_inr in Hm0 as (_ & _ & _ & ->). }
  rewrite Hcapacity in *. unfold sizeof_NodeList, sizeof_pointer in Hfit.
  split; [done |]. split; [done |]. split.
  - intros Hrem. rewrite Hipm. unfold Hashmap.getIndicesPerMutex.
    destruct (Z.eqb_spec (capacity mod Hashmap.mMutexCount m) 0); [done |].
    simpl. rewrite wrap_small; [done | lia].
  - intros mutexCount Hrange. apply getIndicesPerMutex_ceil; lia.
Qed.

(** C7. For every constructed container, at every moment of its life, the
    mutex count is [min(concurrencyLevel, capacity)], it is at least 1 and
    at most the capacity, and the mutex array has that many mutexes. *)
Theorem mutexCount_invariant capacity concurrencyLevel hasher
    (m0 m : hashmap) :
  is_size_t capacity -> is_size_t concurrencyLevel ->
  Hashmap.construct capacity concurrencyLevel hasher = inr m0 ->
  lifetime m0 m ->
  Hashmap.mMutexCount m = Z.min concurrencyLevel capacity /\
  1 <= Hashmap.mMutexCount m <= Hashmap.capacity m /\
  Hashmap.capacity m = capacity /\
  length (Hashmap.mMutexes m) = Z.to_nat (Hashmap.mMutexCount m).
Proof.
  intros Hc Hl Hm0 Hlife.
  pose proof (construct_wf _ _ _ _ Hc Hl Hm0) as Hwf0.
  destruct (lifetime_wf m0 m Hwf0 Hlife) as [[Hcfg _ _] (Hcap & Hmc & _)].
  unfold Hashmap.capacity. rewrite Hcap, Hmc.
  pose proof (cfg_mutexCount m Hcfg) as Hrange.
  pose proof (cfg_mutexes m Hcfg) as Hlen.
  rewrite Hcap, Hmc in Hrange. rewrite Hmc in Hlen.
  apply construct_inr in Hm0 as (_ & _ & _ & ->). simpl in *. done.
Qed.

(** C10. For every constructed container, at every moment of its life and
    for every key, [getMutex] divides the bucket index by a positive
    [mIndicesPerMutex], and the mutex index
    [getIndex(key) / mIndicesPerMutex] is below the mutex count, inside
    the mutex array. *)
Theorem getMutex_in_bounds capacity concurrencyLevel hasher
    (m0 m : hashmap) k :
  is_size_t capacity -> is_size_t concurrencyLevel ->
  Hashmap.construct capacity concurrencyLevel hasher = inr m0 ->
  lifetime m0 m ->
  0 <= Hashmap.getIndex m k < Hashmap.mCapacity m /\
  exists i,
    Hashmap.getMutex m (Hashmap.getIndex m k) = Some i /\
    i = Hashmap.getIndex m k / Hashmap.mIndicesPerMutex m /\
    0 <= i < Hashmap.mMutexCount m /\
    (Z.to_nat i < length (Hashmap.mMutexes m))%nat.
Proof.
  intros Hc Hl Hm0 Hlife.
  pose proof (construct_wf _ _ _ _ Hc Hl Hm0) as Hwf0.
  destruct (lifetime_wf m0 m Hwf0 Hlife) as [[Hcfg _ _] _].
  pose proof (getIndex_range m k Hcfg) as Hidx. split; [done |].
  destruct (getMutex_range m _ Hcfg Hidx) as (i & Hi & Hdiv & Hrange & _).
  exists i. repeat split; try done; try lia.
  rewrite (cfg_mutexes m Hcfg). lia.
Qed.

(** C8. [erase] affects only the erased key. With a hasher that sends all
    keys to one bucket, after pairs with distinct keys are inserted into a
    constructed container, erasing one of the keys leaves [find] false for
    it, and for every other inserted key [find] is true and [getCopy]
    returns the value inserted with it. *)
Theorem erase_frame_collisions capacity concurrencyLevel hasher
    (m0 : hashmap) (kvs : list (Key * Value)) k :
  is_size_t capacity -> is_size_t concurrencyLevel ->
  Hashmap.construct capacity concurrencyLevel hasher = inr m0 ->
  (forall k1 k2, Hashmap.getIndex m0 k1 = Hashmap.getIndex m0 k2) ->
  NoDup kvs.*1 ->
  k ∈ kvs.*1 ->
  exists m1 m2,
    insert_all kvs m0 = Some m1 /\
    Hashmap.erase k m1 = Hashmap.Returns () m2 /\
    Hashmap.find k m2 = Hashmap.Returns false m2 /\
    forall k' v', (k', v') ∈ kvs -> k' <> k ->
      Hashmap.find k' m2 = Hashmap.Returns true m2 /\
      Hashmap.getCopy k' m2 = Hashmap.Returns v' m2.
Proof.
  intros Hc Hl Hm0 Hcollide Hnd Hk.
  pose proof (construct_wf _ _ _ _ Hc Hl Hm0) as Hwf0.
  pose proof (construct_idle _ _ _ _ Hc Hl Hm0) as Hidle0.
  destruct (insert_all_spec kvs m0 Hwf0 Hidle0 Hnd)
    as (m1 & Hall & [Hcfg1 Hinv1 _] & Hidle1 & Hin & _).
  destruct (erase_spec k m1 Hcfg1 Hinv1 (Hidle1 k))
    as (m2 & Hers & Hframe & Hst & _).
  pose proof (config_ok_frame m1 m2 Hframe Hcfg1) as Hcfg2.
  pose proof (idle_frame m1 m2 Hframe Hidle1) as Hidle2.
  exists m1, m2. split; [done |]. split; [done |]. split.
  - rewrite find_stored, Hst, decide_True by done. f_equal.
  - intros k' v' Hin' Hne.
    rewrite find_stored, getCopy_stored, Hst, decide_False by done.
    by rewrite (Hin k' v' Hin').
Qed.
End Specification.

(** ** Interleaved threads: bookkeeping over the thread list *)

Section ThreadLists.
Context {Key Value : Type} `{EqDecision Key}.

Local Abbreviation thread := (Threads.thread Key Value).

Lemma sum_insert (l : list Z) i x y :
  l !! i = Some x -> foldr Z.add 0 (<[i:=y]> l) = foldr Z.add 0 l - x + y.
Proof.
  revert i. induction l as [| z l IH]; intros [| i]; simpl; try done.
  - intros [= ->]. lia.
  - intros Hi. rewrite (IH i Hi). lia.
Qed.

Lemma total_update (f : thread -> Z) ths t th th' :
  ths !! t = Some th ->
  Threads.total f (<[t:=th']> ths) = Threads.total f ths - f th + f th'.
Proof.
  intros Hth. unfold Threads.total. rewrite list_fmap_insert.
  apply sum_insert. by rewrite list_lookup_fmap, Hth.
Qed.

Lemma total_nonneg (f : thread -> Z) ths :
  (forall th, 0 <= f th) -> 0 <= Threads.total f ths.
Proof.
  intros Hf. unfold Threads.total.
  induction ths as [| th ths IH]; [done |].
  rewrite fmap_cons. cbn [foldr]. specialize (Hf th). lia.
Qed.

Lemma all_pending_same (ths : list thread) t th th' :
  ths !! t = Some th -> Threads.pending th' = Threads.pending th ->
  Threads.all_pending (<[t:=th']> ths) = Threads.all_pending ths.
Proof.
  intros Hth Hsame. unfold Threads.all_pending.
  rewrite list_fmap_insert, Hsame. f_equal.
  apply list_insert_id. by rewrite list_lookup_fmap, Hth.
Qed.

Lemma concat_insert_pop {A} (ls : list (list A)) i a (x : list A) :
  ls !! i = Some (a :: x) -> concat ls ≡ₚ a :: concat (<[i:=x]> ls).
Proof.
  revert i. induction ls as [| l ls IH]; intros [| i]; simpl; try done.
  - by intros [= ->].
  - intros Hi. rewrite (IH i Hi). by rewrite Permutation_middle.
Qed.

Lemma all_pending_pop (ths : list thread) t th th' kv :
  ths !! t = Some th ->
  Threads.pending th = kv :: Threads.pending th' ->
  Threads.all_pending ths ≡ₚ kv :: Threads.all_pending (<[t:=th']> ths).
Proof.
  intros Hth Hpop. unfold Threads.all_pending.
  rewrite list_fmap_insert. apply concat_insert_pop.
  by rewrite list_lookup_fmap, Hth, <- Hpop.
Qed.

(** Pairs with distinct keys: a key has one value. *)
Lemma NoDup_fst_agree {A B} (l : list (A * B)) x y1 y2 :
  NoDup l.*1 -> (x, y1) ∈ l -> (x, y2) ∈ l -> y1 = y2.
Proof.
  induction l as [| [x0 y0] l IH]; [by intros _ ?%elem_of_nil |].
  rewrite fmap_cons. intros [Hx0 Hnd]%NoDup_cons.
  intros [Heq1 | Hin1]%elem_of_cons [Heq2 | Hin2]%elem_of_cons.
  - congruence.
  - injection Heq1 as -> ->. destruct Hx0.
    apply list_elem_of_fmap. by exists (x0, y2).
  - injection Heq2 as -> ->. destruct Hx0.
    apply list_elem_of_fmap. by exists (x0, y1).
  - by apply IH.
Qed.

(** A thread of the updated list is the updated thread or an old one. *)
Lemma lookup_update (ths : list thread) t th' t0 th0 :
  <[t:=th']> ths !! t0 = Some th0 ->
  (t0 = t /\ th0 = th') \/ (t0 <> t /\ ths !! t0 = Some th0).
Proof.
  intros [(-> & -> & _) | (Hne & Hth0)]%list_lookup_insert_Some.
  - by left.
  - right. by split.
Qed.

Lemma lookup_updated (ths : list thread) t th th' :
  ths !! t = Some th -> <[t:=th']> ths !! t = Some th'.
Proof. intros Hth. apply list_lookup_insert_eq. by eapply lookup_lt_Some. Qed.
End ThreadLists.

(** ** Interleaved threads: mutual exclusion *)

Section Exclusion.
Context {Key Value : Type} `{EqDecision Key}.

Local Abbreviation hashmap := (Hashmap.t Key Value).
Local Abbreviation thread := (Threads.thread Key Value).

(** A step that keeps the mutex of the thread and the mutex array. *)
Lemma locks_ok_keep (m m' : hashmap) ths t (th th' : thread) :
  Hashmap.mMutexes m' = Hashmap.mMutexes m ->
  ths !! t = Some th -> Threads.holds th' = Threads.holds th ->
  Threads.locks_ok m ths -> Threads.locks_ok m' (<[t:=th']> ths).
Proof.
  intros Hmtx Hth Hholds [Hheld Hexcl Howner].
  assert (forall t0 th0 i,
            <[t:=th']> ths !! t0 = Some th0 -> Threads.holds th0 = Some i ->
            exists th1, ths !! t0 = Some th1 /\ Threads.holds th1 = Some i)
    as Hold.
  { intros t0 th0 i [[-> ->] | [_ Hth0]]%lookup_update Hi.
    - exists th. split; [done | congruence].
    - by exists th0. }
  constructor.
  - intros t0 th0 i Hth0 Hi. rewrite Hmtx.
    destruct (Hold t0 th0 i Hth0 Hi) as (th1 & Hth1 & Hi1).
    by apply (Hheld t0 th1).
  - intros t1 t2 th1 th2 i Hth1 Hth2 Hi1 Hi2.
    destruct (Hold t1 th1 i Hth1 Hi1) as (th1' & Hth1' & Hi1').
    destruct (Hold t2 th2 i Hth2 Hi2) as (th2' & Hth2' & Hi2').
    by apply (Hexcl t1 t2 th1' th2' i).
  - intros j Hj. rewrite Hmtx in Hj.
    destruct (Howner j Hj) as (t0 & th0 & i & Hth0 & Hi & Hij).
    destruct (decide (t0 = t)) as [-> | Hne].
    + exists t, th', i. split; [by apply (lookup_updated ths t th) |].
      split; [congruence | done].
    + exists t0, th0, i. by rewrite list_lookup_insert_ne.
Qed.

(** The constructor of the [lock_guard] on a free mutex. *)
Lemma locks_ok_acquire (m : hashmap) ths t (th th' : thread) i :
  ths !! t = Some th -> Threads.holds th = None ->
  Threads.holds th' = Some i -> 0 <= i ->
  Hashmap.mMutexes m !! Z.to_nat i = Some false ->
  Threads.locks_ok m ths ->
  Threads.locks_ok (Hashmap.set_mutex i true m) (<[t:=th']> ths).
Proof.
  intros Hth Hnone Hsome Hi Hfree [Hheld Hexcl Howner].
  pose proof (lookup_lt_Some _ _ _ Hfree) as Hlt.
  assert (forall t0 th0 i0,
            t0 <> t -> ths !! t0 = Some th0 -> Threads.holds th0 = Some i0 ->
            Z.to_nat i0 <> Z.to_nat i) as Hother.
  { intros t0 th0 i0 _ Hth0 Hi0 Heq.
    destruct (Hheld t0 th0 i0 Hth0 Hi0) as [_ Htrue]. congruence. }
  constructor; simpl.
  - intros t0 th0 i0 [[-> ->] | [Hne Hth0]]%lookup_update Hi0.
    + assert (i0 = i) as -> by congruence.
      split; [done | by apply list_lookup_insert_eq].
    + destruct (Hheld t0 th0 i0 Hth0 Hi0) as [Hpos Htrue].
      split; [done |]. rewrite list_lookup_insert_ne; [done |].
      intros Heq. by apply (Hother t0 th0 i0).
  - intros t1 t2 th1 th2 i0
      [[-> ->] | [Hne1 Hth1]]%lookup_update
      [[-> ->] | [Hne2 Hth2]]%lookup_update Hi1 Hi2; try done.
    + assert (i0 = i) as -> by congruence.
      by destruct (Hother t2 th2 i Hne2 Hth2 Hi2).
    + assert (i0 = i) as -> by congruence.
      by destruct (Hother t1 th1 i Hne1 Hth1 Hi1).
    + by apply (Hexcl t1 t2 th1 th2 i0).
  - intros j Hj. destruct (decide (j = Z.to_nat i)) as [-> | Hne].
    + exists t, th', i. by rewrite (lookup_updated ths t th).
    + rewrite list_lookup_insert_ne in Hj by done.
      destruct (Howner j Hj) as (t0 & th0 & i0 & Hth0 & Hi0 & Hij).
      exists t0, th0, i0. rewrite list_lookup_insert_ne; [done |].
      intros <-. congruence.
Qed.

(** The destructor of the [lock_guard]. *)
Lemma locks_ok_release (m : hashmap) ths t (th th' : thread) i :
  ths !! t = Some th -> Threads.holds th = Some i ->
  Threads.holds th' = None ->
  Threads.locks_ok m ths ->
  Threads.locks_ok (Hashmap.unlock i m) (<[t:=th']> ths).
Proof.
  intros Hth Hsome Hnone [Hheld Hexcl Howner].
  destruct (Hheld t th i Hth Hsome) as [Hi Htrue].
  pose proof (lookup_lt_Some _ _ _ Htrue) as Hlt.
  assert (forall t0 th0 i0,
            t0 <> t -> ths !! t0 = Some th0 -> Threads.holds th0 = Some i0 ->
            Z.to_nat i0 <> Z.to_nat i) as Hother.
  { intros t0 th0 i0 Hne Hth0 Hi0 Heq.
    destruct (Hheld t0 th0 i0 Hth0 Hi0) as [Hpos _].
    assert (i0 = i) as -> by lia.
    by apply Hne, (Hexcl t0 t th0 th i). }
  constructor; simpl.
  - intros t0 th0 i0 [[-> ->] | [Hne Hth0]]%lookup_update Hi0;
      [congruence |].
    destruct (Hheld t0 th0 i0 Hth0 Hi0) as [Hpos Htrue0].
    split; [done |]. rewrite list_lookup_insert_ne; [done |].
    intros Heq. by apply (Hother t0 th0 i0).
  - intros t1 t2 th1 th2 i0
      [[-> ->] | [Hne1 Hth1]]%lookup_update
      [[-> ->] | [Hne2 Hth2]]%lookup_update Hi1 Hi2; try congruence.
    by apply (Hexcl t1 t2 th1 th2 i0).
  - intros j Hj. destruct (decide (j = Z.to_nat i)) as [-> | Hne].
    + rewrite list_lookup_insert_eq in Hj by done. done.
    + rewrite list_lookup_insert_ne in Hj by done.
      destruct (Howner j Hj) as (t0 & th0 & i0 & Hth0 & Hi0 & Hij).
      exists t0, th0, i0. rewrite list_lookup_insert_ne; [done |].
      intros <-. assert (i0 = i) by congruence. congruence.
Qed.
End Exclusion.

(** ** Interleaved threads: the contents of the table *)

Section Contents.
Context {Key Value : Type} `{EqDecision Key}.

Local Abbreviation chain := (NodeList.t Key Value).
Local Abbreviation hashmap := (Hashmap.t Key Value).
Local Abbreviation thread := (Threads.thread Key Value).

(** A step that writes neither a chain nor the counter. *)
Lemma contents_ok_keep all (m m' : hashmap) ths t (th th' : thread) :
  ths !! t = Some th ->
  Threads.pending th' = Threads.pending th ->
  Threads.uncounted th' = Threads.uncounted th ->
  Hashmap.mSize m' = Hashmap.mSize m ->
  Hashmap.mTable m' = Hashmap.mTable m ->
  (forall k, stored m' k = stored m k) ->
  Threads.contents_ok all m ths ->
  Threads.contents_ok all m' (<[t:=th']> ths).
Proof.
  intros Hth Hpend Hunc Hsize Htable Hstored [Hsz Hent Hnd Hall Habs Hdone].
  assert (entries m' = entries m) as Hentries
    by (unfold entries; by rewrite Htable).
  constructor; rewrite ?(all_pending_same ths t th th') by done.
  - rewrite Hsize, Hentries, (total_update _ ths t th th' Hth), Hunc, Hsz.
    f_equal. lia.
  - by rewrite Hentries.
  - done.
  - done.
  - intros k Hk. rewrite Hstored. by apply Habs.
  - intros k v Hkv Hk. rewrite Hstored. by apply Hdone.
Qed.

(** The atomic [++mSize] of a thread whose [NodeList::insert] returned
    [inserted]. *)
Lemma contents_ok_count all (m : hashmap) ths t (th th' : thread) i b :
  ths !! t = Some th ->
  Threads.at_point th = Threads.Inserted i b ->
  Threads.pending th' = Threads.pending th ->
  Threads.uncounted th' = 0 ->
  Threads.contents_ok all m ths ->
  Threads.contents_ok all (if b then Hashmap.incr_size m else m)
    (<[t:=th']> ths).
Proof.
  intros Hth Hat Hpend Hunc [Hsz Hent Hnd Hall Habs Hdone].
  assert (Threads.uncounted th = if b then 1 else 0) as Hb
    by (unfold Threads.uncounted; by rewrite Hat).
  constructor; rewrite ?(all_pending_same ths t th th') by done.
  - rewrite (total_update _ ths t th th' Hth), Hunc, Hb.
    destruct b; simpl.
    + rewrite Hsz, wrap_succ. f_equal.
      change (entries (Hashmap.incr_size m)) with (entries m). lia.
    + rewrite Hsz. f_equal. lia.
  - by destruct b.
  - done.
  - done.
  - intros k Hk. specialize (Habs k Hk). by destruct b.
  - intros k v Hkv Hk. specialize (Hdone k v Hkv Hk). by destruct b.
Qed.

Lemma set_bucket_write (m : hashmap) index (c : chain) :
  Hashmap.set_bucket index c m =
  Hashmap.set_size (Hashmap.mSize m) (Hashmap.set_bucket index c m).
Proof. by destruct m. Qed.

(** The write of [NodeList::insert] by a thread whose scan read the
    current chain: the pair is pending, so its key is not in the chain,
    and a node is linked at the head. *)
Lemma contents_ok_write all (m : hashmap) ths t (th : thread) i k v c :
  NoDup all.*1 ->
  config_ok m ->
  ths !! t = Some th ->
  Threads.at_point th = Threads.Scanned i k v c ->
  Hashmap.bucket m (Hashmap.getIndex m k) = Some c ->
  Threads.contents_ok all m ths ->
  NodeList.insert k v c =
    ({| NodeList.key := k; NodeList.value := v |} :: c, true) /\
  Threads.contents_ok all
    (Hashmap.set_bucket (Hashmap.getIndex m k)
       ({| NodeList.key := k; NodeList.value := v |} :: c) m)
    (<[t:={| Threads.at_point := Threads.Inserted i true;
             Threads.todo := Threads.todo th |}]> ths).
Proof.
  intros Hnodup Hcfg Hth Hat Hc [Hsz Hent Hnd Hall Habs Hdone].
  set (th' := {| Threads.at_point := Threads.Inserted i true;
                 Threads.todo := Threads.todo th |}).
  assert (Threads.pending th = (k, v) :: Threads.pending th') as Hpop
    by (unfold Threads.pending; by rewrite Hat).
  pose proof (all_pending_pop ths t th th' (k, v) Hth Hpop) as Hperm.
  set (rest := Threads.all_pending (<[t:=th']> ths)) in *.
  assert (stored m k = None) as Hk.
  { apply Habs. rewrite Hperm, fmap_cons. apply list_elem_of_here. }
  assert (NodeList.find k c = None) as Hfind.
  { apply find_None. by rewrite <- (stored_bucket m k c Hc). }
  assert (NodeList.insert k v c =
          ({| NodeList.key := k; NodeList.value := v |} :: c, true)) as Hins
    by (unfold NodeList.insert; by rewrite Hfind).
  split; [done |].
  set (c' := {| NodeList.key := k; NodeList.value := v |} :: c).
  assert (forall k', stored (Hashmap.set_bucket (Hashmap.getIndex m k) c' m) k'
                     = if decide (k = k') then Some v else stored m k')
    as Hstored.
  { intros k'. rewrite set_bucket_write.
    rewrite (stored_write m k c c' _ k' Hcfg Hc).
    pose proof (insert_value k v k' c) as Hval.
    rewrite Hins in Hval. simpl in Hval. fold c' in Hval. rewrite Hval.
    destruct (decide (Hashmap.getIndex m k' = Hashmap.getIndex m k))
      as [Hidx | Hidx].
    - rewrite <- Hidx in Hc. by rewrite (stored_bucket m k' c Hc).
    - destruct (decide (k = k')) as [-> | Hne]; done. }
  rewrite Hperm, fmap_cons in Hnd. apply NoDup_cons in Hnd as [Hfresh Hnd].
  constructor.
  - change (Hashmap.mSize (Hashmap.set_bucket _ c' m)) with (Hashmap.mSize m).
    rewrite set_bucket_write, (entries_write m _ c c' _ Hc).
    rewrite (total_update _ ths t th th' Hth), Hsz.
    assert (Threads.uncounted th = 0) as ->
      by (unfold Threads.uncounted; by rewrite Hat).
    assert (Threads.uncounted th' = 1) as -> by done.
    simpl. f_equal. lia.
  - rewrite set_bucket_write, (entries_write m _ c c' _ Hc).
    rewrite Hperm, length_cons in Hent. subst c' rest.
    rewrite length_cons. lia.
  - done.
  - intros kv Hkv. apply Hall. rewrite Hperm. by apply list_elem_of_further.
  - intros k' Hk'. rewrite Hstored.
    destruct (decide (k = k')) as [<- | Hne]; [done |].
    apply Habs. rewrite Hperm, fmap_cons. by apply list_elem_of_further.
  - intros k' v' Hkv' Hk'. rewrite Hstored.
    destruct (decide (k = k')) as [<- | Hne].
    + f_equal. assert ((k, v) ∈ all) as Hkv.
      { apply Hall. rewrite Hperm. apply list_elem_of_here. }
      by apply (NoDup_fst_agree all k v v' Hnodup).
    + apply Hdone; [done |]. rewrite Hperm, fmap_cons.
      by intros [? | ?]%elem_of_cons.
Qed.
End Contents.

(** ** Interleaved threads: the invariant *)

Section Invariant.
Context {Key Value : Type} `{EqDecision Key}.

Local Abbreviation chain := (NodeList.t Key Value).
Local Abbreviation hashmap := (Hashmap.t Key Value).
Local Abbreviation thread := (Threads.thread Key Value).
Local Abbreviation system := (Threads.system Key Value).

Lemma config_ok_set_mutex (m : hashmap) i b :
  config_ok m -> config_ok (Hashmap.set_mutex i b m).
Proof.
  intros [? ? ? ? ?]. constructor; try done.
  simpl. by rewrite length_insert.
Qed.

Lemma config_ok_set_bucket (m : hashmap) index (c : chain) :
  config_ok m -> config_ok (Hashmap.set_bucket index c m).
Proof.
  intros [? ? ? ? ?]. constructor; try done.
  simpl. by rewrite length_insert.
Qed.

(** Unfolding one step of the system. *)
Lemma step_inv (s s' : system) :
  Threads.step s s' ->
  exists t th m' th',
    Threads.threads s !! t = Some th /\
    Threads.thread_step (Threads.shared s) th = Some (m', th') /\
    s' = {| Threads.shared := m';
            Threads.threads := <[t:=th']> (Threads.threads s) |}.
Proof.
  intros [t Hstep]. unfold Threads.step_thread in Hstep.
  destruct (Threads.threads s !! t) as [th |] eqn:Hth; [| done].
  destruct (Threads.thread_step (Threads.shared s) th)
    as [[m' th'] |] eqn:Hts; [| done].
  injection Hstep as <-. by exists t, th, m', th'.
Qed.

(** Every step of every thread keeps the invariant. *)
Lemma invariant_step all (s s' : system) :
  NoDup all.*1 ->
  Threads.invariant all s -> Threads.step s s' -> Threads.invariant all s'.
Proof.
  intros Hnodup [Hcfg Hinv Hlocks Hstripes Hcontents]
    (t & th & m' & th' & Hth & Hts & ->)%step_inv.
  destruct s as [m ths]. simpl in *.
  pose proof (Hstripes t th Hth) as Hstripe.
  unfold Threads.thread_step in Hts. unfold Threads.stripe_ok in Hstripe.
  destruct th as [pt todo]. simpl in *.
  destruct pt as [| i k v | i k v c | i b | i].
  - (* the constructor of the lock_guard *)
    destruct todo as [| [k v] rest]; [done |].
    destruct (Hashmap.getMutex m (Hashmap.getIndex m k)) as [i |] eqn:Hi;
      [| done].
    destruct (Hashmap.mMutexes m !! Z.to_nat i) as [[|] |] eqn:Hfree;
      try done.
    injection Hts as <- <-.
    destruct (getMutex_range m _ Hcfg (getIndex_range m k Hcfg))
      as (i' & Hi' & _ & [Hpos _] & _).
    assert (i' = i) as -> by congruence.
    constructor; simpl.
    + by apply config_ok_set_mutex.
    + exact Hinv.
    + by apply (locks_ok_acquire m ths t _ _ i Hth).
    + intros t0 th0 [[-> ->] | [_ Hth0]]%lookup_update.
      * exact Hi.
      * exact (Hstripes t0 th0 Hth0).
    + by apply (contents_ok_keep all m _ ths t _ _ Hth).
  - (* the scan of the chain *)
    destruct (Hashmap.bucket m (Hashmap.getIndex m k)) as [c |] eqn:Hc;
      [| done].
    injection Hts as <- <-.
    constructor; simpl; try done.
    + by apply (locks_ok_keep m m ths t _ _ eq_refl Hth).
    + intros t0 th0 [[-> ->] | [_ Hth0]]%lookup_update.
      * by split.
      * exact (Hstripes t0 th0 Hth0).
    + by apply (contents_ok_keep all m _ ths t _ _ Hth).
  - (* the write to the chain *)
    destruct Hstripe as [Hi Hc].
    destruct (contents_ok_write all m ths t _ i k v c
                Hnodup Hcfg Hth eq_refl Hc Hcontents) as [Hins Hcontents'].
    rewrite Hins in Hts. injection Hts as <- <-.
    destruct (Hinv _ _ Hc) as [Hnd Hplace].
    constructor; simpl.
    + by apply config_ok_set_bucket.
    + rewrite set_bucket_write. apply chain_inv_write; [done | |].
      * pose proof (insert_NoDup k v c Hnd) as Hnd'.
        by rewrite Hins in Hnd'.
      * intros k' [-> | Hin]%elem_of_cons; [done | by apply Hplace].
    + by apply (locks_ok_keep m (Hashmap.set_bucket _ _ m) ths t _ _
                  eq_refl Hth).
    + intros t0 th0 [[-> ->] | [Hne Hth0]]%lookup_update; [done |].
      pose proof (Hstripes t0 th0 Hth0) as Hstripe0.
      unfold Threads.stripe_ok in *.
      destruct (Threads.at_point th0) as [| i0 k0 v0 | i0 k0 v0 c0 | |]
        eqn:Hat0; try done.
      destruct Hstripe0 as [Hi0 Hc0]. split; [done |].
      unfold Hashmap.bucket in *. simpl.
      change (Hashmap.getIndex (Hashmap.set_bucket _ _ m) k0)
        with (Hashmap.getIndex m k0).
      rewrite list_lookup_insert_ne; [done |].
      intros Heq. apply Hne.
      assert (Hashmap.getIndex m k0 = Hashmap.getIndex m k) as Hidx.
      { pose proof (getIndex_range m k Hcfg).
        pose proof (getIndex_range m k0 Hcfg). lia. }
      rewrite Hidx in Hi0. assert (i0 = i) as -> by congruence.
      apply (Threads.locks_exclusive m ths Hlocks t0 t th0 _ i Hth0 Hth).
      * unfold Threads.holds. by rewrite Hat0.
      * done.
    + done.
  - (* the atomic increment *)
    injection Hts as <- <-.
    constructor; simpl.
    + destruct b; [| done]. destruct Hcfg. by constructor.
    + destruct b; exact Hinv.
    + eapply (locks_ok_keep m _ ths t); [by destruct b | exact Hth | | done].
      done.
    + intros t0 th0 [[-> ->] | [_ Hth0]]%lookup_update; [done |].
      destruct b; exact (Hstripes t0 th0 Hth0).
    + by apply (contents_ok_count all m ths t _ _ i b Hth).
  - (* the destructor of the lock_guard *)
    injection Hts as <- <-.
    constructor; simpl.
    + by apply config_ok_set_mutex.
    + exact Hinv.
    + by apply (locks_ok_release m ths t _ _ i Hth).
    + intros t0 th0 [[-> ->] | [_ Hth0]]%lookup_update; [done |].
      exact (Hstripes t0 th0 Hth0).
    + by apply (contents_ok_keep all m _ ths t _ _ Hth).
Qed.

Lemma invariant_steps all (s s' : system) :
  NoDup all.*1 ->
  Threads.invariant all s -> rtc Threads.step s s' ->
  Threads.invariant all s'.
Proof.
  intros Hnodup Hinv Hsteps.
  induction Hsteps as [s | s1 s2 s3 Hstep _ IH]; [done |].
  apply IH. by apply (invariant_step all s1).
Qed.
End Invariant.

(** ** Interleaved threads: start, progress and end *)

Section Executions.
Context {Key Value : Type} `{EqDecision Key}.

Local Abbreviation chain := (NodeList.t Key Value).
Local Abbreviation hashmap := (Hashmap.t Key Value).
Local Abbreviation thread := (Threads.thread Key Value).
Local Abbreviation system := (Threads.system Key Value).

(** The five steps of a thread, taken with no other thread in between,
    are one call of [insert]. *)
Lemma run_insert k v rest (m : hashmap) :
  Threads.run 5 m {| Threads.at_point := Threads.Ready;
                     Threads.todo := (k, v) :: rest |} =
  match Hashmap.insert k v m with
  | Hashmap.Returns _ m' =>
      Some (m', {| Threads.at_point := Threads.Ready;
                   Threads.todo := rest |})
  | _ => None
  end.
Proof.
  unfold Hashmap.insert, Hashmap.locked. cbn [Threads.run].
  unfold Threads.thread_step at 1. cbn [Threads.at_point Threads.todo].
  destruct (Hashmap.getMutex m (Hashmap.getIndex m k)) as [i |]; [| done].
  destruct (Hashmap.mMutexes m !! Z.to_nat i) as [[|] |]; try done.
  unfold Threads.thread_step at 1. cbn [Threads.at_point Threads.todo].
  change (Hashmap.bucket (Hashmap.set_mutex i true m) ?x)
    with (Hashmap.bucket m x).
  change (Hashmap.getIndex (Hashmap.set_mutex i true m) k)
    with (Hashmap.getIndex m k).
  destruct (Hashmap.bucket m (Hashmap.getIndex m k)) as [c |]; [| done].
  unfold Threads.thread_step at 1. cbn [Threads.at_point Threads.todo].
  change (Hashmap.getIndex (Hashmap.set_mutex i true m) k)
    with (Hashmap.getIndex m k).
  destruct (NodeList.insert k v c) as [c' b].
  unfold Threads.thread_step. cbn [Threads.at_point Threads.todo].
  done.
Qed.

(** *** The start *)

Lemma start_lookup (m : hashmap) calls t th :
  Threads.threads (Threads.start m calls) !! t = Some th ->
  Threads.at_point th = Threads.Ready.
Proof.
  simpl. rewrite list_lookup_fmap.
  destruct (calls !! t); simpl; [| done]. by intros [= <-].
Qed.

Lemma start_pending (m : hashmap) calls :
  Threads.all_pending (Threads.threads (Threads.start m calls)) =
  concat calls.
Proof.
  unfold Threads.all_pending. simpl.
  induction calls as [| p calls IH]; [done |].
  rewrite !fmap_cons. simpl. by rewrite IH.
Qed.

Lemma start_uncounted (m : hashmap) calls :
  Threads.total Threads.uncounted (Threads.threads (Threads.start m calls)) = 0.
Proof.
  unfold Threads.total. simpl.
  induction calls as [| p calls IH]; [done |].
  rewrite !fmap_cons. simpl. by rewrite IH.
Qed.

Lemma start_steps_left (m : hashmap) calls :
  Threads.total Threads.steps_left (Threads.threads (Threads.start m calls)) =
  5 * Z.of_nat (length (concat calls)).
Proof.
  unfold Threads.total. simpl.
  induction calls as [| p calls IH]; [done |].
  rewrite !fmap_cons. cbn [foldr concat]. rewrite IH, length_app.
  unfold Threads.steps_left. simpl. lia.
Qed.

(** A constructed container is empty. *)
Lemma construct_empty capacity concurrencyLevel hasher (m : hashmap) :
  is_size_t capacity -> is_size_t concurrencyLevel ->
  Hashmap.construct capacity concurrencyLevel hasher = inr m ->
  (forall k, stored m k = None) /\ entries m = 0 /\ Hashmap.mSize m = 0.
Proof.
  intros Hc Hl Hm.
  pose proof (construct_config _ _ _ _ Hc Hl Hm) as Hcfg.
  pose proof (construct_wf _ _ _ _ Hc Hl Hm) as [_ _ Hsize].
  split; [| split].
  - intros k. destruct (bucket_getIndex m k Hcfg) as [c Hc0].
    rewrite (stored_bucket m k c Hc0).
    apply construct_inr in Hm as (_ & _ & _ & ->).
    unfold Hashmap.bucket in Hc0. simpl in Hc0.
    by apply lookup_replicate in Hc0 as [-> _].
  - apply construct_inr in Hm as (_ & _ & _ & ->).
    unfold entries, NodeList.empty. simpl.
    by rewrite replicate_concat_nil.
  - by apply construct_inr in Hm as (_ & _ & _ & ->).
Qed.

(** The invariant holds when the threads are started on a constructed
    container. *)
Lemma invariant_start capacity concurrencyLevel hasher (m0 : hashmap) calls :
  is_size_t capacity -> is_size_t concurrencyLevel ->
  Hashmap.construct capacity concurrencyLevel hasher = inr m0 ->
  NoDup (concat calls).*1 ->
  Threads.invariant (concat calls) (Threads.start m0 calls).
Proof.
  intros Hc Hl Hm0 Hnd.
  pose proof (construct_wf _ _ _ _ Hc Hl Hm0) as [Hcfg Hinv _].
  pose proof (construct_idle _ _ _ _ Hc Hl Hm0) as Hidle.
  destruct (construct_empty _ _ _ _ Hc Hl Hm0) as (Hempty & Hent & Hsize).
  constructor; try done.
  - constructor.
    + intros t th i Hth Hi. apply start_lookup in Hth.
      unfold Threads.holds in Hi. by rewrite Hth in Hi.
    + intros t1 t2 th1 th2 i Hth1 _ Hi1 _. apply start_lookup in Hth1.
      unfold Threads.holds in Hi1. by rewrite Hth1 in Hi1.
    + intros j Hj. exfalso.
      apply construct_inr in Hm0 as (_ & _ & _ & ->). simpl in Hj.
      by apply lookup_replicate in Hj as [? _].
  - intros t th Hth. apply start_lookup in Hth.
    unfold Threads.stripe_ok. by rewrite Hth.
  - constructor; rewrite ?start_pending, ?start_uncounted;
      change (Threads.shared (Threads.start m0 calls)) with m0; try done.
    + by rewrite Hsize, Hent.
    + rewrite Hent. lia.
    + intros k v Hkv Hk. destruct Hk.
      apply list_elem_of_fmap. by exists (k, v).
Qed.

(** *** The end *)

Lemma finished_Forall (s : system) :
  Threads.finished s ->
  Forall (fun th => Threads.at_point th = Threads.Ready /\ Threads.todo th = [])
    (Threads.threads s).
Proof. intros Hfin. apply Forall_lookup. exact Hfin. Qed.

Lemma finished_totals (s : system) :
  Threads.finished s ->
  Threads.all_pending (Threads.threads s) = [] /\
  Threads.total Threads.uncounted (Threads.threads s) = 0 /\
  Threads.total Threads.steps_left (Threads.threads s) = 0.
Proof.
  intros Hfin%finished_Forall.
  unfold Threads.all_pending, Threads.total.
  induction Hfin as [| th ths [Hat Htodo] _ (IH1 & IH2 & IH3)]; [done |].
  rewrite !fmap_cons. cbn [foldr concat]. rewrite IH1, IH2, IH3.
  unfold Threads.pending, Threads.uncounted, Threads.steps_left.
  by rewrite Hat, Htodo.
Qed.

(** When every thread has finished, all mutexes are free, the counter is
    the number of pairs and every key is found. *)
Lemma finished_result all (s : system) :
  Threads.invariant all s -> Threads.finished s ->
  Z.of_nat (length all) <= SIZE_MAX ->
  Hashmap.size (Threads.shared s) = Z.of_nat (length all) /\
  forall k, k ∈ all.*1 ->
    Hashmap.find k (Threads.shared s) =
    Hashmap.Returns true (Threads.shared s).
Proof.
  intros [Hcfg Hinv Hlocks Hstripes [Hsz Hent _ _ _ Hdone]] Hfin Hfit.
  destruct (finished_totals s Hfin) as (Hpend & Hunc & _).
  rewrite Hpend in *. rewrite Hunc in Hsz. simpl in Hent.
  split.
  - unfold Hashmap.size. rewrite Hsz, wrap_small; lia.
  - intros k [[k' v] [-> Hkv]]%list_elem_of_fmap. simpl.
    rewrite find_stored; [| done |].
    + rewrite (Hdone k' v Hkv); [done | apply not_elem_of_nil].
    + destruct (stripe_mutex_is_Some (Threads.shared s) k' Hcfg)
        as [[|] Hb]; [| done].
      exfalso. unfold stripe_mutex in Hb.
      destruct (Hashmap.getMutex _ _) as [i |]; [| done]. simpl in Hb.
      destruct (Threads.locks_owner _ _ Hlocks _ Hb)
        as (t & th & i0 & Hth & Hi0 & _).
      destruct (Hfin t th Hth) as [Hat _].
      unfold Threads.holds in Hi0. by rewrite Hat in Hi0.
Qed.
End Executions.

(** ** Interleaved threads: no deadlock, and termination *)

Section Progress.
Context {Key Value : Type} `{EqDecision Key}.

Local Abbreviation chain := (NodeList.t Key Value).
Local Abbreviation hashmap := (Hashmap.t Key Value).
Local Abbreviation thread := (Threads.thread Key Value).
Local Abbreviation system := (Threads.system Key Value).

(** Either a thread is inside a call, or a thread has a call to make, or
    all have finished. *)
Lemma threads_cases (ths : list thread) :
  (exists t th, ths !! t = Some th /\ Threads.at_point th <> Threads.Ready) \/
  ((forall t th, ths !! t = Some th -> Threads.at_point th = Threads.Ready) /\
   exists t th kv rest, ths !! t = Some th /\ Threads.todo th = kv :: rest) \/
  (forall t th, ths !! t = Some th ->
     Threads.at_point th = Threads.Ready /\ Threads.todo th = []).
Proof.
  induction ths as [| th ths IH].
  - right. right. by intros t th ?.
  - destruct (Threads.at_point th) eqn:Hat;
      try (left; exists 0%nat, th; split; [done | by rewrite Hat]).
    destruct IH as [(t & th0 & Hth0 & Hbusy) | [[Hready Htodo] | Hfin]].
    + left. by exists (S t), th0.
    + right. left. split.
      * intros [| t] th0; simpl; [by intros [= <-] | apply Hready].
      * destruct Htodo as (t & th0 & kv & rest & Hth0 & Htd).
        by exists (S t), th0, kv, rest.
    + destruct (Threads.todo th) as [| kv rest] eqn:Htd.
      * right. right. intros [| t] th0; simpl; [by intros [= <-] |].
        apply Hfin.
      * right. left. split.
        -- intros [| t] th0; simpl; [by intros [= <-] |].
           intros Hth0. by destruct (Hfin t th0 Hth0).
        -- by exists 0%nat, th, kv, rest.
Qed.

Lemma finished_dec (s : system) : Threads.finished s \/ ~ Threads.finished s.
Proof.
  destruct (threads_cases (Threads.threads s))
    as [(t & th & Hth & Hbusy) | [[_ (t & th & kv & rest & Hth & Htd)] | Hfin]].
  - right. intros Hfin. by destruct (Hfin t th Hth).
  - right. intros Hfin. destruct (Hfin t th Hth). congruence.
  - by left.
Qed.

(** A thread inside a call can always take its next step. *)
Lemma busy_steps (m : hashmap) (th : thread) :
  config_ok m -> Threads.stripe_ok m th ->
  Threads.at_point th <> Threads.Ready ->
  is_Some (Threads.thread_step m th).
Proof.
  intros Hcfg Hstripe Hbusy.
  unfold Threads.thread_step, Threads.stripe_ok in *.
  destruct (Threads.at_point th) as [| i k v | i k v c | i b | i]; try done.
  - destruct (bucket_getIndex m k Hcfg) as [c ->]. by eexists.
  - destruct (NodeList.insert k v c). by eexists.
Qed.

(** No deadlock: while some thread has not finished, some thread can take
    a step. *)
Lemma progress all (s : system) :
  Threads.invariant all s -> ~ Threads.finished s ->
  exists s', Threads.step s s'.
Proof.
  intros [Hcfg _ Hlocks Hstripes _] Hnot.
  destruct (threads_cases (Threads.threads s))
    as [(t & th & Hth & Hbusy) |
        [[Hready (t & th & [k v] & rest & Hth & Htd)] | Hfin]].
  - destruct (busy_steps _ th Hcfg (Hstripes t th Hth) Hbusy)
      as [[m' th'] Hts].
    eexists. exists t. unfold Threads.step_thread. by rewrite Hth, Hts.
  - pose proof (Hready t th Hth) as Hat.
    destruct (getMutex_range _ _ Hcfg (getIndex_range _ k Hcfg))
      as (i & Hi & _ & _ & [b Hb]).
    destruct b.
    + destruct (Threads.locks_owner _ _ Hlocks _ Hb)
        as (t0 & th0 & i0 & Hth0 & Hi0 & _).
      unfold Threads.holds in Hi0. by rewrite (Hready t0 th0 Hth0) in Hi0.
    + eexists. exists t. unfold Threads.step_thread, Threads.thread_step.
      by rewrite Hth, Hat, Htd, Hi, Hb.
  - by destruct Hnot.
Qed.

(** Every step takes one off the steps that are left. *)
Lemma thread_step_left (m m' : hashmap) (th th' : thread) :
  Threads.thread_step m th = Some (m', th') ->
  Threads.steps_left th' = Threads.steps_left th - 1.
Proof.
  unfold Threads.thread_step, Threads.steps_left.
  destruct (Threads.at_point th) as [| i k v | i k v c | i b | i].
  - destruct (Threads.todo th) as [| [k v] rest]; [done |].
    destruct (Hashmap.getMutex _ _) as [i |]; [| done].
    destruct (Hashmap.mMutexes m !! _) as [[|] |]; try done.
    intros [= <- <-]. simpl. lia.
  - destruct (Hashmap.bucket _ _); [| done]. intros [= <- <-]. simpl. lia.
  - destruct (NodeList.insert k v c). intros [= <- <-]. simpl. lia.
  - intros [= <- <-]. simpl. lia.
  - intros [= <- <-]. simpl. lia.
Qed.

Lemma step_left (s s' : system) :
  Threads.step s s' ->
  Threads.total Threads.steps_left (Threads.threads s') =
  Threads.total Threads.steps_left (Threads.threads s) - 1.
Proof.
  intros (t & th & m' & th' & Hth & Hts & ->)%step_inv. simpl.
  rewrite (total_update _ _ t th th' Hth), (thread_step_left _ _ _ _ Hts).
  lia.
Qed.

Lemma nsteps_left n (s s' : system) :
  nsteps Threads.step n s s' ->
  Threads.total Threads.steps_left (Threads.threads s') + Z.of_nat n =
  Threads.total Threads.steps_left (Threads.threads s).
Proof.
  induction 1 as [s | n s1 s2 s3 Hstep _ IH]; [lia |].
  rewrite (step_left s1 s2 Hstep) in IH. lia.
Qed.

Lemma steps_left_nonneg (th : thread) : 0 <= Threads.steps_left th.
Proof. unfold Threads.steps_left. destruct (Threads.at_point th); lia. Qed.

(** Termination: from every state the invariant allows, the threads can
    run to the end. *)
Lemma runs_to_end all (s : system) :
  NoDup all.*1 -> Threads.invariant all s ->
  exists s', rtc Threads.step s s' /\ Threads.finished s'.
Proof.
  intros Hnodup.
  remember (Z.to_nat (Threads.total Threads.steps_left (Threads.threads s)))
    as n eqn:Hn.
  revert s Hn. induction n as [n IH] using lt_wf_ind. intros s Hn Hinv.
  destruct (finished_dec s) as [Hfin | Hnot].
  - by exists s.
  - destruct (progress all s Hinv Hnot) as [s1 Hstep].
    pose proof (step_left s s1 Hstep) as Hleft.
    pose proof (total_nonneg Threads.steps_left (Threads.threads s1)
                  steps_left_nonneg) as Hpos.
    destruct (IH (Z.to_nat (Threads.total Threads.steps_left
                               (Threads.threads s1)))
                ltac:(lia) s1 eq_refl
                (invariant_step all s s1 Hnodup Hinv Hstep))
      as (s' & Hsteps & Hfin).
    exists s'. split; [by eapply rtc_l | done].
Qed.
End Progress.

(** ** Concurrent inserts *)

Section Concurrent.
Context {Key Value : Type} `{EqDecision Key}.

Local Abbreviation hashmap := (Hashmap.t Key Value).
Local Abbreviation system := (Threads.system Key Value).

Lemma concat_length_uniform {A} (ls : list (list A)) M :
  Forall (fun l => length l = M) ls ->
  length (concat ls) = (length ls * M)%nat.
Proof.
  induction 1 as [| l ls Hl _ IH]; [done |].
  simpl. rewrite length_app, IH, Hl. lia.
Qed.

(** C9. Concurrent insert completeness. [N] threads are started on a
    constructed container, each with [M] calls of [insert], the keys of
    all the calls distinct; the steps of the calls interleave in any
    order, a thread waiting while the mutex of its stripe is held. For
    every capacity, concurrency level and hasher (so also with fewer
    mutexes than buckets touched, or all keys in one bucket): the threads
    can run to the end; every execution has at most [5 * N * M] steps;
    in every state an execution reaches, unless all threads have
    finished, some thread can take a step; and when all have finished,
    [size()] is [N * M] and [find] returns [true] for every inserted
    key. *)
Theorem concurrent_insert_complete capacity concurrencyLevel hasher
    (m0 : hashmap) (calls : list (list (Key * Value))) (N M : nat) :
  is_size_t capacity -> is_size_t concurrencyLevel ->
  Hashmap.construct capacity concurrencyLevel hasher = inr m0 ->
  length calls = N ->
  Forall (fun p => length p = M) calls ->
  NoDup (concat calls).*1 ->
  Z.of_nat (N * M) * sizeof_pointer <= SIZE_MAX ->
  (exists s, rtc Threads.step (Threads.start m0 calls) s /\
     Threads.finished s) /\
  forall n (s : system),
    nsteps Threads.step n (Threads.start m0 calls) s ->
    Z.of_nat n <= 5 * Z.of_nat (N * M) /\
    (~ Threads.finished s -> exists s', Threads.step s s') /\
    (Threads.finished s ->
       Hashmap.size (Threads.shared s) = Z.of_nat (N * M) /\
       forall k, k ∈ (concat calls).*1 ->
         Hashmap.find k (Threads.shared s) =
         Hashmap.Returns true (Threads.shared s)).
Proof.
  intros Hc Hl Hm0 HN HM Hnd Hmem.
  pose proof (invariant_start _ _ _ _ calls Hc Hl Hm0 Hnd) as Hinv0.
  pose proof (concat_length_uniform calls M HM) as Hlen.
  rewrite HN in Hlen.
  split; [by apply (runs_to_end (concat calls)) |].
  intros n s Hsteps.
  assert (Threads.invariant (concat calls) s) as Hinv.
  { apply (invariant_steps _ _ _ Hnd Hinv0).
    apply rtc_nsteps. by exists n. }
  split; [| split].
  - pose proof (nsteps_left n _ _ Hsteps) as Hleft.
    rewrite start_steps_left, Hlen in Hleft.
    pose proof (total_nonneg Threads.steps_left (Threads.threads s)
                  steps_left_nonneg).
    lia.
  - by apply (progress (concat calls)).
  - intros Hfin. rewrite <- Hlen.
    apply (finished_result (concat calls) s Hinv Hfin).
    rewrite Hlen. unfold sizeof_pointer in Hmem. lia.
Qed.
End Concurrent.

(** ** The properties on the example containers *)

Lemma is_size_t_small z : 0 <= z <= 1000 -> is_size_t z.
Proof. unfold is_size_t, SIZE_MAX. lia. Qed.

Lemma example_fresh_construct :
  Hashmap.construct 10 16 Example.intHash = inr Example.fresh.
Proof. reflexivity. Qed.

Lemma example_striped_construct :
  Hashmap.construct 10 4 Example.intHash = inr Example.striped.
Proof. reflexivity. Qed.

Lemma example_fresh_wf : wf Example.fresh.
Proof.
  apply (construct_wf 10 16 Example.intHash);
    [apply is_size_t_small; lia | apply is_size_t_small; lia |].
  exact example_fresh_construct.
Qed.

Lemma example_one_after :
  after (CallInsert 1 1) Example.fresh = Some Example.one.
Proof. reflexivity. Qed.

Lemma example_one_wf : wf Example.one.
Proof.
  exact (proj1 (wf_after _ _ _ example_fresh_wf example_one_after)).
Qed.

Lemma example_one_in_memory : in_memory Example.one.
Proof. unfold in_memory. vm_compute. discriminate. Qed.

Lemma example_one_contains : contains Example.one 1.
Proof. unfold contains. simpl. apply list_elem_of_here. Qed.

Lemma example_one_absent : ~ contains Example.one 2.
Proof.
  unfold contains. simpl. intros Hin%list_elem_of_singleton. discriminate.
Qed.

(** [insert(1, 1)] then [insert(1, 10)]: the size is 1 and [getCopy(1)]
    is 10. *)
Lemma insert_upsert_witness :
  exists m', Hashmap.insert 1 10 Example.one = Hashmap.Returns () m' /\
    Hashmap.getCopy 1 m' = Hashmap.Returns 10 m' /\
    Hashmap.size m' = 1.
Proof.
  destruct (insert_upsert 1 10 Example.one
              example_one_wf example_one_in_memory eq_refl)
    as (m' & Hins & Hget & _ & Hpresent).
  exists m'. split; [exact Hins |]. split; [exact Hget |].
  destruct (Hpresent example_one_contains) as [Hsize _].
  exact Hsize.
Defined.

(** On the container that holds only key 1, key 2 is not found. *)
Lemma absent_key_contract_witness :
  Hashmap.find 2 Example.one = Hashmap.Returns false Example.one /\
  Hashmap.getCopy 2 Example.one = Hashmap.Throws KeyNotFound Example.one /\
  Hashmap.get 2 Example.one = Hashmap.Throws KeyNotFound Example.one.
Proof.
  exact (proj1 absent_key_contract 2 Example.one
           example_one_wf eq_refl example_one_absent).
Defined.

(** [erase(3)] on the container that holds only key 1 changes nothing. *)
Lemma erase_removes_witness :
  Hashmap.erase 3 Example.one = Hashmap.Returns () Example.one.
Proof.
  destruct (erase_removes 3 Example.one
              example_one_wf example_one_in_memory eq_refl)
    as (m' & Hers & _ & _ & Habsent).
  rewrite Hers. f_equal. apply Habsent.
  unfold contains. simpl. intros Hin%list_elem_of_singleton. discriminate.
Defined.

(** Capacity 1 with concurrency level 0 is refused. *)
Lemma construct_validation_witness :
  Hashmap.construct (Key:=Z) (Value:=Z) 1 0 Example.intHash =
  inl (HashmapException InvalidConcurrencyLevel).
Proof.
  apply (proj1 (proj2 (construct_validation Example.intHash))). lia.
Defined.

(** [insert(1, 1)] on the fresh container leaves the chains with
    distinct keys. *)
Lemma chain_invariant_preserved_witness :
  chain_inv Example.one /\
  NoDup (NodeList.keys (concat (Hashmap.mTable Example.one))).
Proof.
  exact (proj2 (proj2 (proj2 chain_invariant_preserved))
           (CallInsert 1 1) Example.fresh Example.one
           example_fresh_wf example_one_after).
Defined.

(** Ten buckets and four mutexes: three buckets a mutex, the ceiling of
    10 / 4, computed as (10 + 4) / 4. *)
Lemma indicesPerMutex_ceiling_witness :
  Hashmap.mIndicesPerMutex Example.striped = 3 /\
  is_ceil_div 10 4 3 /\
  Hashmap.getIndicesPerMutex 10 4 = (10 + 4) / 4.
Proof.
  destruct (indicesPerMutex_ceiling 10 4 Example.intHash
              Example.striped Example.striped
              (is_size_t_small 10 ltac:(lia)) (is_size_t_small 4 ltac:(lia))
              example_striped_construct (rtc_refl _ _))
    as (Hipm & Hceil & Hrem & _).
  split; [reflexivity |]. split; [exact Hceil |].
  apply Hrem. vm_compute. discriminate.
Defined.

(** Ten buckets at concurrency level 4: four mutexes. *)
Lemma mutexCount_invariant_witness :
  Hashmap.mMutexCount Example.striped = Z.min 4 10 /\
  1 <= Hashmap.mMutexCount Example.striped <= Hashmap.capacity Example.striped.
Proof.
  destruct (mutexCount_invariant 10 4 Example.intHash
              Example.striped Example.striped
              (is_size_t_small 10 ltac:(lia)) (is_size_t_small 4 ltac:(lia))
              example_striped_construct (rtc_refl _ _))
    as (Hmin & Hrange & _).
  split; [exact Hmin | exact Hrange].
Defined.

(** Key 9 sits in the last bucket, which the last mutex guards. *)
Lemma getMutex_in_bounds_witness :
  exists i,
    Hashmap.getMutex Example.striped (Hashmap.getIndex Example.striped 9) =
      Some i /\
    0 <= i < 4.
Proof.
  destruct (getMutex_in_bounds 10 4 Example.intHash
              Example.striped Example.striped 9
              (is_size_t_small 10 ltac:(lia)) (is_size_t_small 4 ltac:(lia))
              example_striped_construct (rtc_refl _ _))
    as (_ & i & Hi & _ & Hrange & _).
  exists i. split; [exact Hi | exact Hrange].
Defined.

(** Keys 1, 3 and 5 in one bucket: after [erase(3)], 1 and 5 are found
    with their values and 3 is not found. *)
Lemma erase_frame_collisions_witness :
  exists m2 : Hashmap.t Z Z,
    Hashmap.find 3 m2 = Hashmap.Returns false m2 /\
    Hashmap.find 1 m2 = Hashmap.Returns true m2 /\
    Hashmap.getCopy 1 m2 = Hashmap.Returns 2 m2 /\
    Hashmap.find 5 m2 = Hashmap.Returns true m2 /\
    Hashmap.getCopy 5 m2 = Hashmap.Returns 6 m2.
Proof.
  destruct (erase_frame_collisions 10 16 Example.constantHash _
              Example.pairs 3
              (is_size_t_small 10 ltac:(lia)) (is_size_t_small 16 ltac:(lia))
              eq_refl (fun k1 k2 => eq_refl)
              ltac:(by_evaluation)
              ltac:(by_evaluation))
    as (m1 & m2 & _ & _ & Hgone & Hkept).
  exists m2. split; [exact Hgone |].
  destruct (Hkept 1 2) as [Hf1 Hg1];
    [by_evaluation | discriminate |].
  destruct (Hkept 5 6) as [Hf5 Hg5];
    [by_evaluation | discriminate |].
  by repeat split.
Defined.

(** Two threads with two inserts each on the container with four
    mutexes for ten buckets: they can run to the end, and the size is
    then 4. *)
Lemma concurrent_insert_complete_witness :
  exists s, rtc Threads.step (Threads.start Example.striped Example.calls) s /\
    Threads.finished s /\
    Hashmap.size (Threads.shared s) = 4.
Proof.
  destruct (concurrent_insert_complete 10 4 Example.intHash
              Example.striped Example.calls 2 2
              (is_size_t_small 10 ltac:(lia)) (is_size_t_small 4 ltac:(lia))
              example_striped_construct eq_refl
              ltac:(by repeat constructor)
              ltac:(by_evaluation)
              ltac:(vm_compute; discriminate))
    as [(s & Hsteps & Hfin) Hall].
  exists s. split; [exact Hsteps |]. split; [exact Hfin |].
  destruct (proj1 (rtc_nsteps _ _) Hsteps) as [n Hn].
  destruct (Hall n s Hn) as (_ & _ & Hend).
  exact (proj1 (Hend Hfin)).
Defined.

(** * Further properties of the calls *)

(** ** The states the write calls leave *)

Section WriteStates.
Context {Key Value : Type} `{EqDecision Key}.

Local Abbreviation chain := (NodeList.t Key Value).
Local Abbreviation hashmap := (Hashmap.t Key Value).

(** [insert] with its stripe mutex free, as a function of the chain in
    the key's bucket. *)
Lemma insert_state k v (m : hashmap) c :
  stripe_mutex m k = Some false ->
  Hashmap.bucket m (Hashmap.getIndex m k) = Some c ->
  Hashmap.insert k v m =
  Hashmap.Returns ()
    (Hashmap.set_size
       (if (NodeList.insert k v c).2 then wrap (Hashmap.mSize m + 1)
        else Hashmap.mSize m)
       (Hashmap.set_bucket (Hashmap.getIndex m k)
          (NodeList.insert k v c).1 m)).
Proof.
  intros Hfree Hc. unfold Hashmap.insert. enter_locked Hfree i.
  rewrite Hc. destruct (NodeList.insert k v c) as [c' b]. simpl. f_equal.
  rewrite <- (unlock_write m i _ c' _ Hfree).
  destruct b; [done |].
  by rewrite <- (set_size_id (Hashmap.set_bucket _ _ _)) at 1.
Qed.

(** [erase] with its stripe mutex free. *)
Lemma erase_state k (m : hashmap) c :
  stripe_mutex m k = Some false ->
  Hashmap.bucket m (Hashmap.getIndex m k) = Some c ->
  Hashmap.erase k m =
  Hashmap.Returns ()
    (Hashmap.set_size
       (if (NodeList.erase k c).2 then wrap (Hashmap.mSize m - 1)
        else Hashmap.mSize m)
       (Hashmap.set_bucket (Hashmap.getIndex m k)
          (NodeList.erase k c).1 m)).
Proof.
  intros Hfree Hc. unfold Hashmap.erase. enter_locked Hfree i.
  rewrite Hc. destruct (NodeList.erase k c) as [c' b]. simpl. f_equal.
  rewrite <- (unlock_write m i _ c' _ Hfree).
  destruct b; [done |].
  by rewrite <- (set_size_id (Hashmap.set_bucket _ _ _)) at 1.
Qed.

(** Writing a bucket twice keeps the second chain; writing back the chain
    that is there changes nothing. *)
Lemma set_bucket_twice (m : hashmap) index (c1 c2 : chain) n1 n2 :
  Hashmap.set_size n2
    (Hashmap.set_bucket index c2
       (Hashmap.set_size n1 (Hashmap.set_bucket index c1 m))) =
  Hashmap.set_size n2 (Hashmap.set_bucket index c2 m).
Proof.
  unfold Hashmap.set_size, Hashmap.set_bucket. simpl. f_equal.
  apply list_insert_insert_eq.
Qed.

Lemma set_bucket_id (m : hashmap) index (c : chain) :
  Hashmap.bucket m index = Some c ->
  Hashmap.set_size (Hashmap.mSize m) (Hashmap.set_bucket index c m) = m.
Proof.
  intros Hc. destruct m as [cap mc ipm h sz tbl mtx].
  unfold Hashmap.set_size, Hashmap.set_bucket, Hashmap.bucket in *.
  simpl in *. f_equal. by apply list_insert_id.
Qed.

Lemma bucket_write (m : hashmap) index (c0 c : chain) n :
  Hashmap.bucket m index = Some c0 ->
  Hashmap.bucket (Hashmap.set_size n (Hashmap.set_bucket index c m)) index =
  Some c.
Proof.
  unfold Hashmap.bucket. simpl. intros Hc0.
  apply list_lookup_insert_eq. by eapply lookup_lt_Some.
Qed.

(** The counter of a well-formed container is a [std::size_t]. *)
Lemma wf_size_range (m : hashmap) :
  wf m -> 0 <= Hashmap.mSize m <= SIZE_MAX.
Proof.
  intros [_ _ ->]. unfold wrap, SIZE_MAX.
  pose proof (Z.mod_pos_bound (entries m) (2 ^ 64) eq_refl). lia.
Qed.

Lemma wrap_succ_pred z : 0 <= z <= SIZE_MAX -> wrap (wrap (z + 1) - 1) = z.
Proof.
  intros Hz. rewrite wrap_pred. replace (z + 1 - 1) with z by lia.
  by apply wrap_small.
Qed.
End WriteStates.

(** ** Chains: composing [insert] and [erase] *)

Section ChainCompositions.
Context {Key Value : Type} `{EqDecision Key}.

Local Abbreviation chain := (NodeList.t Key Value).

(** Overwriting values moves no node, so [find] reaches the same node. *)
Lemma find_alter_assign k' v i (c : chain) :
  NodeList.find k' (alter (NodeList.assign v) i c) = NodeList.find k' c.
Proof.
  revert i. induction c as [| n c IH]; intros [| i]; try done.
  change (alter (NodeList.assign v) (S i) (n :: c))
    with (n :: alter (NodeList.assign v) i c).
  simpl. by rewrite IH.
Qed.

(** A second [insert] of a key overwrites what the first stored, and the
    chain is the one the second [insert] alone gives. *)
Lemma insert_insert k v1 v2 (c : chain) :
  NodeList.insert k v2 (NodeList.insert k v1 c).1 =
  ((NodeList.insert k v2 c).1, false).
Proof.
  unfold NodeList.insert at 2 3.
  destruct (NodeList.find k c) as [i |] eqn:Hfind; simpl.
  - unfold NodeList.insert. rewrite find_alter_assign, Hfind.
    by rewrite list_alter_alter_eq.
  - unfold NodeList.insert. simpl.
    by rewrite bool_decide_eq_false_2 by (intros Hne; by apply Hne).
Qed.

(** [erase] of the key a preceding [insert] linked unlinks that node. *)
Lemma erase_insert k v (c : chain) :
  NodeList.find k c = None ->
  NodeList.erase k (NodeList.insert k v c).1 = (c, true).
Proof.
  intros Hfind. unfold NodeList.insert. rewrite Hfind. simpl.
  by rewrite bool_decide_eq_true_2.
Qed.
End ChainCompositions.

(** ** The lock a [get] hands out *)

Section Handles.
Context {Key Value : Type} `{EqDecision Key}.

Local Abbreviation chain := (NodeList.t Key Value).
Local Abbreviation hashmap := (Hashmap.t Key Value).

(** With the stripe mutex locked, the call waits. *)
Lemma locked_blocks {A} (m : hashmap) k
    (body : Z -> hashmap -> Hashmap.outcome Key Value A) :
  stripe_mutex m k = Some true ->
  Hashmap.locked m (Hashmap.getIndex m k) body = Hashmap.Blocks.
Proof.
  unfold stripe_mutex, Hashmap.locked.
  destruct (Hashmap.getMutex m (Hashmap.getIndex m k)) as [i |]; [| done].
  simpl. by intros ->.
Qed.

(** The stripe mutexes of a state with mutex [i] locked in addition. *)
Lemma stripe_mutex_set_mutex (m : hashmap) i k j :
  Hashmap.getMutex m (Hashmap.getIndex m k) = Some j ->
  is_Some (Hashmap.mMutexes m !! Z.to_nat i) ->
  stripe_mutex (Hashmap.set_mutex i true m) k =
  if decide (Z.to_nat j = Z.to_nat i) then Some true else stripe_mutex m k.
Proof.
  intros Hj Hi. unfold stripe_mutex.
  change (Hashmap.getMutex (Hashmap.set_mutex i true m)
            (Hashmap.getIndex (Hashmap.set_mutex i true m) k))
    with (Hashmap.getMutex m (Hashmap.getIndex m k)).
  rewrite Hj. simpl.
  destruct (decide (Z.to_nat j = Z.to_nat i)) as [-> | Hne].
  - apply list_lookup_insert_eq. by apply lookup_lt_is_Some.
  - by rewrite list_lookup_insert_ne.
Qed.

(** X1. [get] of a key that is in the map, with the stripe mutex free,
    returns the value [getCopy] returns, paired with the mutex of the
    key's stripe, which it leaves locked. It changes nothing else: the
    chains and [size()] are as before, and unlocking the returned lock
    gives back exactly the state before the call. *)
Theorem get_returns_locked k (m : hashmap) :
  wf m -> stripe_mutex m k = Some false -> contains m k ->
  exists v i m',
    Hashmap.get k m =
      Hashmap.Returns {| Hashmap.first := v; Hashmap.second := i |} m' /\
    Hashmap.getCopy k m = Hashmap.Returns v m /\
    Hashmap.getMutex m (Hashmap.getIndex m k) = Some i /\
    stripe_mutex m' k = Some true /\
    Hashmap.mTable m' = Hashmap.mTable m /\
    Hashmap.size m' = Hashmap.size m /\
    after (CallUnlock {| Hashmap.first := v; Hashmap.second := i |}) m' =
      Some m.
Proof.
  intros [Hcfg Hinv _] Hfree [v Hv]%contains_stored; [| done | done].
  destruct (get_stored k m Hcfg Hfree) as (i & Hi & Hget).
  rewrite Hv in Hget.
  assert (Hashmap.mMutexes m !! Z.to_nat i = Some false) as Hmtx.
  { unfold stripe_mutex in Hfree. by rewrite Hi in Hfree. }
  exists v, i, (Hashmap.set_mutex i true m).
  split; [done |]. split; [by rewrite getCopy_stored, Hv |].
  split; [done |]. split; [| split; [done | split; [done |]]].
  - rewrite (stripe_mutex_set_mutex m i k i Hi) by by eexists.
    by rewrite decide_True.
  - simpl. rewrite list_lookup_insert_eq by by eapply lookup_lt_Some.
    by rewrite unlock_set_mutex.
Qed.

(** X2. While the lock a [get] returned is outstanding, every call on a
    key of the same stripe waits: [find], [getCopy], [get], [insert] and
    [erase] block, also for keys other than the one that was read. *)
Theorem held_stripe_blocks k (m m' : hashmap) lv k' :
  stripe_mutex m k = Some false ->
  Hashmap.get k m = Hashmap.Returns lv m' ->
  Hashmap.getMutex m (Hashmap.getIndex m k') = Some (Hashmap.second lv) ->
  Hashmap.find k' m' = Hashmap.Blocks /\
  Hashmap.getCopy k' m' = Hashmap.Blocks /\
  Hashmap.get k' m' = Hashmap.Blocks /\
  (forall v, Hashmap.insert k' v m' = Hashmap.Blocks) /\
  Hashmap.erase k' m' = Hashmap.Blocks.
Proof.
  intros Hfree Hget Hstripe.
  assert (exists i, m' = Hashmap.set_mutex i true m /\
            Hashmap.second lv = i /\
            Hashmap.mMutexes m !! Z.to_nat i = Some false)
    as (i & -> & Hlv & Hmtx).
  { unfold Hashmap.get, Hashmap.locked, stripe_mutex in *.
    destruct (Hashmap.getMutex m (Hashmap.getIndex m k)) as [i |];
      [| done].
    simpl in Hfree. rewrite Hfree in Hget.
    destruct (Hashmap.bucket _ _) as [c |]; [| done].
    destruct (NodeList.find k c ≫= (c !!.)); [| done].
    injection Hget as <- <-. by exists i. }
  rewrite Hlv in Hstripe.
  assert (stripe_mutex (Hashmap.set_mutex i true m) k' = Some true) as Hheld.
  { rewrite (stripe_mutex_set_mutex m i k' i Hstripe) by by eexists.
    by rewrite decide_True. }
  repeat split; intros; by apply locked_blocks.
Qed.
End Handles.

(** ** Calls on other stripes *)

Section OtherStripes.
Context {Key Value : Type} `{EqDecision Key}.

Local Abbreviation chain := (NodeList.t Key Value).
Local Abbreviation hashmap := (Hashmap.t Key Value).

Lemma set_mutex_comm (m : hashmap) i j b b' :
  Z.to_nat j <> Z.to_nat i ->
  Hashmap.set_mutex j b (Hashmap.set_mutex i b' m) =
  Hashmap.set_mutex i b' (Hashmap.set_mutex j b m).
Proof.
  intros Hne. unfold Hashmap.set_mutex. simpl. f_equal.
  by apply list_insert_insert_ne.
Qed.

(** A guarded body that leaves the foreign mutex as it finds it runs the
    same with that mutex locked. *)
Lemma locked_other {A} (m : hashmap) i j index
    (body : Z -> hashmap -> Hashmap.outcome Key Value A) :
  Hashmap.getMutex m index = Some j ->
  Z.to_nat j <> Z.to_nat i ->
  (forall m1, body j (Hashmap.set_mutex i true m1) =
              with_lock i (body j m1)) ->
  Hashmap.locked (Hashmap.set_mutex i true m) index body =
  with_lock i (Hashmap.locked m index body).
Proof.
  intros Hj Hne Hbody. unfold Hashmap.locked.
  change (Hashmap.getMutex (Hashmap.set_mutex i true m) index)
    with (Hashmap.getMutex m index).
  rewrite Hj. simpl. rewrite list_lookup_insert_ne by done.
  destruct (Hashmap.mMutexes m !! Z.to_nat j) as [[|] |]; try done.
  by rewrite set_mutex_comm, Hbody.
Qed.

(** X3. Stripes are independent: a call on a key whose stripe mutex is
    not mutex [i] ends the same way, with the same result and the same
    effect on the chains and the counter, whether or not another thread
    keeps mutex [i] locked. This holds for [find], [getCopy], [get],
    [insert] and [erase]. *)
Theorem other_stripes_unaffected (m : hashmap) i j k :
  Hashmap.getMutex m (Hashmap.getIndex m k) = Some j ->
  Z.to_nat j <> Z.to_nat i ->
  Hashmap.find k (Hashmap.set_mutex i true m) =
    with_lock i (Hashmap.find k m) /\
  Hashmap.getCopy k (Hashmap.set_mutex i true m) =
    with_lock i (Hashmap.getCopy k m) /\
  Hashmap.get k (Hashmap.set_mutex i true m) =
    with_lock i (Hashmap.get k m) /\
  (forall v, Hashmap.insert k v (Hashmap.set_mutex i true m) =
             with_lock i (Hashmap.insert k v m)) /\
  Hashmap.erase k (Hashmap.set_mutex i true m) =
    with_lock i (Hashmap.erase k m).
Proof.
  intros Hj Hne.
  assert (forall b (m1 : hashmap),
            Hashmap.set_mutex j b (Hashmap.set_mutex i true m1) =
            Hashmap.set_mutex i true (Hashmap.set_mutex j b m1)) as Hcomm
    by (intros; by apply set_mutex_comm).
  repeat split; intros;
    (apply (locked_other m i j); [done | done |]); intros m1;
    change (Hashmap.bucket (Hashmap.set_mutex i true m1) ?x)
      with (Hashmap.bucket m1 x);
    destruct (Hashmap.bucket m1 _) as [c |]; try done; simpl.
  - unfold Hashmap.unlock. by rewrite Hcomm.
  - unfold Hashmap.unlock.
    destruct (NodeList.find k c ≫= _); simpl; by rewrite Hcomm.
  - unfold Hashmap.unlock.
    destruct (NodeList.find k c ≫= _); simpl; by rewrite ?Hcomm.
  - destruct (NodeList.insert k v c) as [c' [|]]; simpl;
      unfold Hashmap.unlock; f_equal.
    + exact (Hcomm false
               (Hashmap.incr_size (Hashmap.set_bucket _ c' m1))).
    + exact (Hcomm false (Hashmap.set_bucket _ c' m1)).
  - destruct (NodeList.erase k c) as [c' [|]]; simpl;
      unfold Hashmap.unlock; f_equal.
    + exact (Hcomm false
               (Hashmap.decr_size (Hashmap.set_bucket _ c' m1))).
    + exact (Hcomm false (Hashmap.set_bucket _ c' m1)).
Qed.
End OtherStripes.

(** ** Writes and the other keys; writes that undo or repeat *)

Section WriteCompositions.
Context {Key Value : Type} `{EqDecision Key}.

Local Abbreviation chain := (NodeList.t Key Value).
Local Abbreviation hashmap := (Hashmap.t Key Value).

(** A write call leaves the values stored for the other keys and the
    stripe mutexes. *)
Lemma write_frame c k (m m1 : hashmap) :
  wf m ->
  (exists v, c = CallInsert k v) \/ c = CallErase k ->
  after c m = Some m1 ->
  config_ok m1 /\
  (forall k', stripe_mutex m1 k' = stripe_mutex m k') /\
  (forall k', k' <> k -> stored m1 k' = stored m k').
Proof.
  intros [Hcfg Hinv _] [[v ->] | ->] Hafter; simpl in Hafter;
    pose proof (final_locked _ _ _ _ Hafter) as Hfree.
  - destruct (insert_spec k v m Hcfg Hfree)
      as (m' & Hins & Hframe & Hst & _).
    rewrite Hins in Hafter. injection Hafter as <-.
    split; [by apply (config_ok_frame m) |]. split.
    + intros k'. by apply stripe_mutex_frame.
    + intros k' Hne. by rewrite Hst, decide_False.
  - destruct (erase_spec k m Hcfg Hinv Hfree)
      as (m' & Hers & Hframe & Hst & _).
    rewrite Hers in Hafter. injection Hafter as <-.
    split; [by apply (config_ok_frame m) |]. split.
    + intros k'. by apply stripe_mutex_frame.
    + intros k' Hne. by rewrite Hst, decide_False.
Qed.

(** X4. A write touches only its own key. After [insert(key, value)] or
    [erase(key)] on a well-formed container, [find] and [getCopy] of
    every other key end as they did before the write: the same result,
    the same value, or [KeyNotFound] again. This holds for every hasher,
    also when the keys share a bucket. *)
Theorem writes_touch_own_key c k (m m1 : hashmap) k' :
  wf m ->
  (exists v, c = CallInsert k v) \/ c = CallErase k ->
  after c m = Some m1 ->
  k' <> k ->
  (forall b, Hashmap.find k' m = Hashmap.Returns b m ->
     Hashmap.find k' m1 = Hashmap.Returns b m1) /\
  (forall v', Hashmap.getCopy k' m = Hashmap.Returns v' m ->
     Hashmap.getCopy k' m1 = Hashmap.Returns v' m1) /\
  (Hashmap.getCopy k' m = Hashmap.Throws KeyNotFound m ->
     Hashmap.getCopy k' m1 = Hashmap.Throws KeyNotFound m1).
Proof.
  intros Hwf Hc Hafter Hne. pose proof Hwf as [Hcfg _ _].
  destruct (write_frame c k m m1 Hwf Hc Hafter) as (Hcfg1 & Hmtx & Hst).
  assert (forall A (o : Hashmap.outcome Key Value A) body,
            o = Hashmap.locked m (Hashmap.getIndex m k') body ->
            is_Some (final o) -> stripe_mutex m1 k' = Some false) as Hfree.
  { intros A o body -> [m' Hfin]. rewrite Hmtx.
    by apply (final_locked _ _ _ _ Hfin). }
  repeat split.
  - intros b Hfind.
    assert (stripe_mutex m1 k' = Some false) as Hfree1
      by (apply (Hfree _ (Hashmap.find k' m) _ eq_refl);
          rewrite Hfind; by eexists).
    rewrite find_stored in Hfind by (by rewrite <- ?Hmtx).
    rewrite find_stored, Hst by done. by injection Hfind as ->.
  - intros v' Hget.
    assert (stripe_mutex m1 k' = Some false) as Hfree1
      by (apply (Hfree _ (Hashmap.getCopy k' m) _ eq_refl);
          rewrite Hget; by eexists).
    rewrite getCopy_stored in Hget by (by rewrite <- ?Hmtx).
    rewrite getCopy_stored, Hst by done.
    destruct (stored m k'); [by injection Hget as -> | done].
  - intros Hget.
    assert (stripe_mutex m1 k' = Some false) as Hfree1
      by (apply (Hfree _ (Hashmap.getCopy k' m) _ eq_refl);
          rewrite Hget; by eexists).
    rewrite getCopy_stored in Hget by (by rewrite <- ?Hmtx).
    rewrite getCopy_stored, Hst by done.
    by destruct (stored m k').
Qed.

(** X5. [erase] undoes [insert] of a new key: when the key is not in the
    map, [insert(key, value)] followed by [erase(key)] gives back exactly
    the state before the two calls, chains, counter and mutexes. *)
Theorem insert_erase_roundtrip k v (m : hashmap) :
  wf m -> stripe_mutex m k = Some false -> ~ contains m k ->
  exists m1,
    Hashmap.insert k v m = Hashmap.Returns () m1 /\
    Hashmap.erase k m1 = Hashmap.Returns () m.
Proof.
  intros Hwf Hfree Habs. pose proof Hwf as [Hcfg Hinv _].
  apply absent_stored in Habs; [| done | done].
  destruct (bucket_getIndex m k Hcfg) as [c Hc].
  rewrite (stored_bucket m k c Hc) in Habs. apply find_None in Habs.
  eexists. split; [by apply (insert_state k v m c) |].
  rewrite (erase_state k _ (NodeList.insert k v c).1).
  - rewrite (erase_insert k v c Habs). simpl. f_equal.
    rewrite set_bucket_twice.
    assert ((NodeList.insert k v c).2 = true) as ->
      by (unfold NodeList.insert; by rewrite Habs).
    rewrite wrap_succ_pred by by apply wf_size_range.
    by apply set_bucket_id.
  - rewrite (stripe_mutex_frame m); [done | apply same_frame_write].
  - by apply (bucket_write m _ c).
Qed.

(** X6. The last [insert] of a key wins: [insert(key, v1)] followed by
    [insert(key, v2)] leaves exactly the state that [insert(key, v2)]
    alone leaves, whether or not the key was in the map. Inserting the
    same pair twice is the same as inserting it once. *)
Theorem insert_last_wins k v1 v2 (m : hashmap) :
  wf m -> stripe_mutex m k = Some false ->
  exists m1 m2,
    Hashmap.insert k v1 m = Hashmap.Returns () m1 /\
    Hashmap.insert k v2 m1 = Hashmap.Returns () m2 /\
    Hashmap.insert k v2 m = Hashmap.Returns () m2.
Proof.
  intros [Hcfg _ _] Hfree.
  destruct (bucket_getIndex m k Hcfg) as [c Hc].
  eexists. eexists. split; [by apply (insert_state k v1 m c) |].
  rewrite (insert_state k v2 m c Hfree Hc).
  rewrite (insert_state k v2 _ (NodeList.insert k v1 c).1).
  - split; [| done]. rewrite insert_insert. simpl. f_equal.
    rewrite set_bucket_twice. f_equal.
    pose proof (insert_inserted k v1 c) as H1.
    pose proof (insert_inserted k v2 c) as H2.
    destruct (NodeList.insert k v1 c).2, (NodeList.insert k v2 c).2;
      intuition congruence.
  - rewrite (stripe_mutex_frame m); [done | apply same_frame_write].
  - by apply (bucket_write m _ c).
Qed.

End WriteCompositions.

(** ** The container as a finite map *)

Section FiniteMap.
Context {Key Value : Type} `{Countable Key}.

Local Abbreviation hashmap := (Hashmap.t Key Value).

(** One call keeps the container in step with the finite map: the values
    stored, and the number of nodes. *)
Lemma after_model c (m m1 : hashmap) (f : gmap Key Value) :
  wf m ->
  (forall k, stored m k = f !! k) ->
  entries m = Z.of_nat (size f) ->
  after c m = Some m1 ->
  (forall k, stored m1 k = model_step f c !! k) /\
  entries m1 = Z.of_nat (size (model_step f c)).
Proof.
  intros [Hcfg Hinv _] Hst Hent.
  destruct c as [| | k | k | k | k v | k | lv]; simpl.
  - by intros [= <-].
  - by intros [= <-].
  - intros Hfin. pose proof (final_locked _ _ _ _ Hfin) as Hfree.
    rewrite (find_stored k m Hcfg Hfree) in Hfin. by injection Hfin as <-.
  - intros Hfin. pose proof (final_locked _ _ _ _ Hfin) as Hfree.
    rewrite (getCopy_stored k m Hcfg Hfree) in Hfin.
    destruct (stored m k); by injection Hfin as <-.
  - intros Hfin. pose proof (final_locked _ _ _ _ Hfin) as Hfree.
    destruct (get_stored k m Hcfg Hfree) as (i & _ & Hget).
    rewrite Hget in Hfin.
    destruct (stored m k); by injection Hfin as <-.
  - intros Hfin. pose proof (final_locked _ _ _ _ Hfin) as Hfree.
    destruct (insert_spec k v m Hcfg Hfree)
      as (m' & Hins & _ & Hst' & _ & Hent' & _).
    rewrite Hins in Hfin. injection Hfin as <-. split.
    + intros k'. by rewrite Hst', lookup_insert, Hst.
    + rewrite Hent', map_size_insert, Hst, Hent.
      destruct (f !! k); simpl; lia.
  - intros Hfin. pose proof (final_locked _ _ _ _ Hfin) as Hfree.
    destruct (erase_spec k m Hcfg Hinv Hfree)
      as (m' & Hers & _ & Hst' & _ & Hent' & _).
    rewrite Hers in Hfin. injection Hfin as <-. split.
    + intros k'. by rewrite Hst', lookup_delete, Hst.
    + assert (0 <= entries m') by (unfold entries; lia).
      rewrite Hent', map_size_delete, Hst, Hent in *.
      destruct (f !! k); simpl in *; lia.
  - destruct (Hashmap.mMutexes m !! _) as [[|] |]; try done.
    by intros [= <-].
Qed.

Lemma run_calls_model cs (m m' : hashmap) (f : gmap Key Value) :
  wf m ->
  (forall k, stored m k = f !! k) ->
  entries m = Z.of_nat (size f) ->
  run_calls cs m = Some m' ->
  wf m' /\
  (forall k, stored m' k = foldl model_step f cs !! k) /\
  entries m' = Z.of_nat (size (foldl model_step f cs)).
Proof.
  revert m f. induction cs as [| c cs IH]; intros m f Hwf Hst Hent; simpl.
  - by intros [= <-].
  - destruct (after c m) as [m1 |] eqn:Hafter; [| done]. simpl.
    destruct (wf_after c m m1 Hwf Hafter) as [Hwf1 _].
    destruct (after_model c m m1 f Hwf Hst Hent Hafter) as [Hst1 Hent1].
    by apply IH.
Qed.

(** X8. The container is a finite map. After any sequence of calls on a
    constructed container, [size()] is the number of keys of the finite
    map the calls describe ([insert] sets a key, [erase] removes it, the
    other calls change nothing), and [find] and [getCopy] of every key
    answer as that map does: found with the value last inserted, or not
    found with [KeyNotFound]. *)
Theorem refines_finite_map capacity concurrencyLevel hasher
    (m0 m : hashmap) cs :
  is_size_t capacity -> is_size_t concurrencyLevel ->
  Hashmap.construct capacity concurrencyLevel hasher = inr m0 ->
  run_calls cs m0 = Some m ->
  Hashmap.size m = wrap (Z.of_nat (size (model cs))) /\
  forall k, stripe_mutex m k = Some false ->
    Hashmap.find k m =
      Hashmap.Returns (bool_decide (is_Some (model cs !! k))) m /\
    Hashmap.getCopy k m =
      match model cs !! k with
      | Some v => Hashmap.Returns v m
      | None => Hashmap.Throws KeyNotFound m
      end.
Proof.
  intros Hc Hl Hm0 Hrun.
  pose proof (construct_wf _ _ _ _ Hc Hl Hm0) as Hwf0.
  destruct (construct_empty _ _ _ _ Hc Hl Hm0) as (Hempty & Hent0 & _).
  destruct (run_calls_model cs m0 m ∅ Hwf0) as ([Hcfg _ Hsize] & Hst & Hent).
  - intros k. by rewrite Hempty, lookup_empty.
  - by rewrite Hent0, map_size_empty.
  - done.
  - unfold model, Hashmap.size. rewrite Hsize, Hent. split; [done |].
    intros k Hfree. by rewrite find_stored, getCopy_stored, Hst.
Qed.
End FiniteMap.

(** ** The layout of the stripes *)

Section Layout.
Context {Key Value : Type} `{EqDecision Key}.

Local Abbreviation hashmap := (Hashmap.t Key Value).

Lemma div_range index q i :
  0 < q -> (index / q = i <-> i * q <= index < (i + 1) * q).
Proof.
  intros Hq. split.
  - intros <-. pose proof (Z.mul_div_le index q Hq).
    pose proof (Z.mul_succ_div_gt index q Hq). lia.
  - intros Hrange. symmetry. apply (Z.div_unique index q i (index - i * q)); lia.
Qed.

(** X9. The layout of the stripes of a constructed container. Mutex [i]
    guards the buckets [i * n] to [(i + 1) * n - 1], where [n] is
    [mIndicesPerMutex]; it guards a bucket at all exactly when
    [i * n < capacity], so with a capacity that is no multiple of the
    mutex count the last mutexes can be left without a bucket; and with
    a concurrency level of at least the capacity every bucket has a
    mutex of its own. *)
Theorem stripe_layout capacity concurrencyLevel hasher (m : hashmap) :
  is_size_t capacity -> is_size_t concurrencyLevel ->
  Hashmap.construct capacity concurrencyLevel hasher = inr m ->
  (forall index i,
     Hashmap.getMutex m index = Some i <->
     i * Hashmap.mIndicesPerMutex m <= index
       < (i + 1) * Hashmap.mIndicesPerMutex m) /\
  (forall i,
     (exists index, 0 <= index < capacity /\
        Hashmap.getMutex m index = Some i) <->
     0 <= i /\ i * Hashmap.mIndicesPerMutex m < capacity) /\
  (capacity <= concurrencyLevel ->
   forall index, Hashmap.getMutex m index = Some index).
Proof.
  intros Hc Hl Hm.
  pose proof (construct_config _ _ _ _ Hc Hl Hm) as Hcfg.
  pose proof (config_ceil m Hcfg) as Hceil.
  pose proof (cfg_mutexCount m Hcfg) as Hmc.
  pose proof (cfg_indices m Hcfg) as Hipm.
  assert (0 < Hashmap.mIndicesPerMutex m) as Hpos
    by (unfold is_ceil_div in Hceil; nia).
  assert (forall index i,
            Hashmap.getMutex m index = Some i <->
            index / Hashmap.mIndicesPerMutex m = i) as Hget.
  { intros index i. unfold Hashmap.getMutex.
    destruct (Z.eqb_spec (Hashmap.mIndicesPerMutex m) 0); [lia |].
    split; [by intros [= <-] | by intros <-]. }
  assert (Hashmap.mCapacity m = capacity) as Hcap
    by (by apply construct_inr in Hm as (_ & _ & _ & ->)).
  split; [| split].
  - intros index i. rewrite Hget. by apply div_range.
  - intros i. split.
    + intros (index & Hidx & Hi). apply Hget, div_range in Hi; [| done].
      nia.
    + intros [Hi Hlt]. exists (i * Hashmap.mIndicesPerMutex m).
      split; [nia |]. apply Hget. apply Z.div_mul. lia.
  - intros Hle index. apply Hget.
    assert (Hashmap.mMutexCount m = capacity) as Hmc'.
    { apply construct_inr in Hm as (_ & _ & _ & ->). simpl. lia. }
    rewrite Hipm, Hcap, Hmc'. unfold Hashmap.getIndicesPerMutex.
    rewrite Z.mod_same by lia. simpl. rewrite Z.div_same by lia.
    apply Z.div_1_r.
Qed.
End Layout.

(** ** The further properties on the example containers *)

(** [get(1)] on the container that holds key 1 returns with the mutex of
    the key locked. *)
Lemma get_returns_locked_witness :
  exists v i m',
    Hashmap.get 1 Example.one =
      Hashmap.Returns {| Hashmap.first := v; Hashmap.second := i |} m' /\
    Hashmap.getCopy 1 Example.one = Hashmap.Returns v Example.one /\
    stripe_mutex m' 1 = Some true.
Proof.
  destruct (get_returns_locked 1 Example.one
              example_one_wf eq_refl example_one_contains)
    as (v & i & m' & Hget & Hcopy & _ & Hheld & _).
  exists v, i, m'. split; [exact Hget |]. split; [exact Hcopy | exact Hheld].
Defined.

(** Key 11 shares the bucket of key 1: while the lock of [get(1)] is
    outstanding, [erase(11)] waits. *)
Lemma held_stripe_blocks_witness :
  Hashmap.erase 11 Scenario.held = Hashmap.Blocks.
Proof.
  exact (proj2 (proj2 (proj2 (proj2
           (held_stripe_blocks 1 Example.one Scenario.held
              {| Hashmap.first := 1; Hashmap.second := 1 |} 11
              eq_refl eq_refl eq_refl))))).
Defined.

(** Key 2 is in another stripe: [find(2)] answers as without the lock. *)
Lemma other_stripes_unaffected_witness :
  Hashmap.find 2 Scenario.held = with_lock 1 (Hashmap.find 2 Example.one).
Proof.
  apply (other_stripes_unaffected Example.one 1 2 2); [reflexivity |].
  vm_compute. discriminate.
Defined.

Lemma scenario_crowded_after :
  after (CallInsert 11 7) Example.one = Some Scenario.crowded.
Proof. reflexivity. Qed.

(** [insert(11, 7)] into the bucket of key 1 leaves [getCopy(1)]. *)
Lemma writes_touch_own_key_witness :
  Hashmap.getCopy 1 Scenario.crowded = Hashmap.Returns 1 Scenario.crowded.
Proof.
  apply (writes_touch_own_key (CallInsert 11 7) 11 Example.one
           Scenario.crowded 1
           example_one_wf (or_introl (ex_intro _ 7 eq_refl))
           scenario_crowded_after);
    [lia | reflexivity].
Defined.

(** [insert(2, 4)] then [erase(2)] gives back the container with key 1. *)
Lemma insert_erase_roundtrip_witness :
  exists m1,
    Hashmap.insert 2 4 Example.one = Hashmap.Returns () m1 /\
    Hashmap.erase 2 m1 = Hashmap.Returns () Example.one.
Proof.
  exact (insert_erase_roundtrip 2 4 Example.one
           example_one_wf eq_refl example_one_absent).
Defined.

(** [insert(1, 5)] then [insert(1, 10)] is [insert(1, 10)]. *)
Lemma insert_last_wins_witness :
  exists m1 m2,
    Hashmap.insert 1 5 Example.one = Hashmap.Returns () m1 /\
    Hashmap.insert 1 10 m1 = Hashmap.Returns () m2 /\
    Hashmap.insert 1 10 Example.one = Hashmap.Returns () m2.
Proof. exact (insert_last_wins 1 5 10 Example.one example_one_wf eq_refl). Defined.


Lemma scenario_script_run :
  run_calls Scenario.script Example.fresh = Some Scenario.settled.
Proof. reflexivity. Qed.

(** The script leaves one key, 2 with the value 5; key 1 is gone. *)
Lemma refines_finite_map_witness :
  Hashmap.size Scenario.settled = 1 /\
  Hashmap.find 1 Scenario.settled = Hashmap.Returns false Scenario.settled /\
  Hashmap.getCopy 2 Scenario.settled = Hashmap.Returns 5 Scenario.settled.
Proof.
  destruct (refines_finite_map 10 16 Example.intHash Example.fresh
              Scenario.settled Scenario.script
              (is_size_t_small 10 ltac:(lia)) (is_size_t_small 16 ltac:(lia))
              example_fresh_construct scenario_script_run) as [Hsize Hkeys].
  split; [exact Hsize |].
  split; [exact (proj1 (Hkeys 1 eq_refl)) | exact (proj2 (Hkeys 2 eq_refl))].
Defined.

Lemma scenario_sparse_construct :
  Hashmap.construct 5 4 Example.intHash = inr Scenario.sparse.
Proof. reflexivity. Qed.

(** Five buckets at concurrency level 4: no bucket uses the fourth
    mutex. *)
Lemma stripe_layout_witness :
  ~ exists index, 0 <= index < 5 /\
      Hashmap.getMutex Scenario.sparse index = Some 3.
Proof.
  intros Hused.
  apply (proj1 (proj2 (stripe_layout 5 4 Example.intHash Scenario.sparse
                  (is_size_t_small 5 ltac:(lia)) (is_size_t_small 4 ltac:(lia))
                  scenario_sparse_construct))) in Hused.
  simpl in Hused. lia.
Defined.

(** * Threads calling any member function *)

(** ** Bookkeeping over the list of threads *)

Section WorkerLists.
Context {Key Value : Type} `{EqDecision Key}.

Local Abbreviation chain := (NodeList.t Key Value).
Local Abbreviation hashmap := (Hashmap.t Key Value).
Local Abbreviation thread := (Workers.thread Key Value).
Local Abbreviation system := (Workers.system Key Value).

(** An element of the updated list is the new one or an old one. *)
Lemma updated_cases {A} (l : list A) t x t0 x0 :
  <[t:=x]> l !! t0 = Some x0 ->
  (t0 = t /\ x0 = x) \/ (t0 <> t /\ l !! t0 = Some x0).
Proof.
  intros [(-> & -> & _) | (Hne & Hx0)]%list_lookup_insert_Some.
  - by left.
  - right. by split.
Qed.

Lemma updated_lookup {A} (l : list A) t x x' :
  l !! t = Some x -> <[t:=x']> l !! t = Some x'.
Proof. intros Hx. apply list_lookup_insert_eq. by eapply lookup_lt_Some. Qed.

Lemma workers_total_update (f : thread -> Z) ths t th th' :
  ths !! t = Some th ->
  Workers.total f (<[t:=th']> ths) = Workers.total f ths - f th + f th'.
Proof.
  intros Hth. unfold Workers.total. rewrite list_fmap_insert.
  apply sum_insert. by rewrite list_lookup_fmap, Hth.
Qed.

Lemma workers_total_nonneg (f : thread -> Z) ths :
  (forall th, 0 <= f th) -> 0 <= Workers.total f ths.
Proof.
  intros Hf. unfold Workers.total.
  induction ths as [| th ths IH]; [done |].
  rewrite fmap_cons. cbn [foldr]. specialize (Hf th). lia.
Qed.

(** Two arrays of free mutexes of the same size are equal. *)
Lemma free_mutexes_eq (l1 l2 : list bool) :
  length l1 = length l2 ->
  (forall j, l1 !! j <> Some true) -> (forall j, l2 !! j <> Some true) ->
  l1 = l2.
Proof.
  revert l2. induction l1 as [| b1 l1 IH]; intros [| b2 l2]; try done.
  simpl. intros [= Hlen] H1 H2. f_equal.
  - pose proof (H1 0%nat). pose proof (H2 0%nat).
    destruct b1, b2; simpl in *; congruence.
  - apply IH; [done | |].
    + intros j. apply (H1 (S j)).
    + intros j. apply (H2 (S j)).
Qed.

(** [find] returns a node of the chain, which has the key. *)
Lemma find_lookup k (c : chain) node :
  NodeList.find k c = Some node ->
  exists n, c !! node = Some n /\ NodeList.key n = k.
Proof.
  revert node. induction c as [| n c IH]; intros node; simpl; [done |].
  destruct (decide (NodeList.key n = k)) as [Heq | Hne].
  - rewrite bool_decide_eq_false_2 by (intros Hne; by apply Hne).
    intros [= <-]. by exists n.
  - rewrite bool_decide_eq_true_2 by done.
    destruct (NodeList.find k c) as [node' |]; [| done].
    intros [= <-]. by apply IH.
Qed.

Lemma find_chain_value k (c : chain) node n :
  NodeList.find k c = Some node -> c !! node = Some n ->
  chain_value k c = Some (NodeList.value n).
Proof. intros Hfind Hn. unfold chain_value. rewrite Hfind. simpl. by rewrite Hn. Qed.
End WorkerLists.

(** ** Mutual exclusion *)

Section WorkerLocks.
Context {Key Value : Type} `{EqDecision Key}.

Local Abbreviation hashmap := (Hashmap.t Key Value).
Local Abbreviation thread := (Workers.thread Key Value).

(** A step that keeps the mutex of the thread and the mutex array. *)
Lemma workers_locks_keep (m m' : hashmap) ths t (th th' : thread) :
  Hashmap.mMutexes m' = Hashmap.mMutexes m ->
  ths !! t = Some th -> Workers.holds th' = Workers.holds th ->
  Workers.locks_ok m ths -> Workers.locks_ok m' (<[t:=th']> ths).
Proof.
  intros Hmtx Hth Hholds [Hheld Hexcl Howner].
  assert (forall t0 th0 i,
            <[t:=th']> ths !! t0 = Some th0 -> Workers.holds th0 = Some i ->
            exists th1, ths !! t0 = Some th1 /\ Workers.holds th1 = Some i)
    as Hold.
  { intros t0 th0 i [[-> ->] | [_ Hth0]]%updated_cases Hi.
    - exists th. split; [done | congruence].
    - by exists th0. }
  constructor.
  - intros t0 th0 i Hth0 Hi. rewrite Hmtx.
    destruct (Hold t0 th0 i Hth0 Hi) as (th1 & Hth1 & Hi1).
    by apply (Hheld t0 th1).
  - intros t1 t2 th1 th2 i Hth1 Hth2 Hi1 Hi2.
    destruct (Hold t1 th1 i Hth1 Hi1) as (th1' & Hth1' & Hi1').
    destruct (Hold t2 th2 i Hth2 Hi2) as (th2' & Hth2' & Hi2').
    by apply (Hexcl t1 t2 th1' th2' i).
  - intros j Hj. rewrite Hmtx in Hj.
    destruct (Howner j Hj) as (t0 & th0 & i & Hth0 & Hi & Hij).
    destruct (decide (t0 = t)) as [-> | Hne].
    + exists t, th', i. split; [by apply (updated_lookup ths t th) |].
      split; [congruence | done].
    + exists t0, th0, i. by rewrite list_lookup_insert_ne.
Qed.

(** The constructor of the lock object on a free mutex. *)
Lemma workers_locks_acquire (m : hashmap) ths t (th th' : thread) i :
  ths !! t = Some th -> Workers.holds th = None ->
  Workers.holds th' = Some i -> 0 <= i ->
  Hashmap.mMutexes m !! Z.to_nat i = Some false ->
  Workers.locks_ok m ths ->
  Workers.locks_ok (Hashmap.set_mutex i true m) (<[t:=th']> ths).
Proof.
  intros Hth Hnone Hsome Hi Hfree [Hheld Hexcl Howner].
  pose proof (lookup_lt_Some _ _ _ Hfree) as Hlt.
  assert (forall t0 th0 i0,
            t0 <> t -> ths !! t0 = Some th0 -> Workers.holds th0 = Some i0 ->
            Z.to_nat i0 <> Z.to_nat i) as Hother.
  { intros t0 th0 i0 _ Hth0 Hi0 Heq.
    destruct (Hheld t0 th0 i0 Hth0 Hi0) as [_ Htrue]. congruence. }
  constructor; simpl.
  - intros t0 th0 i0 [[-> ->] | [Hne Hth0]]%updated_cases Hi0.
    + assert (i0 = i) as -> by congruence.
      split; [done | by apply list_lookup_insert_eq].
    + destruct (Hheld t0 th0 i0 Hth0 Hi0) as [Hpos Htrue].
      split; [done |]. rewrite list_lookup_insert_ne; [done |].
      intros Heq. by apply (Hother t0 th0 i0).
  - intros t1 t2 th1 th2 i0
      [[-> ->] | [Hne1 Hth1]]%updated_cases
      [[-> ->] | [Hne2 Hth2]]%updated_cases Hi1 Hi2; try done.
    + assert (i0 = i) as -> by congruence.
      by destruct (Hother t2 th2 i Hne2 Hth2 Hi2).
    + assert (i0 = i) as -> by congruence.
      by destruct (Hother t1 th1 i Hne1 Hth1 Hi1).
    + by apply (Hexcl t1 t2 th1 th2 i0).
  - intros j Hj. destruct (decide (j = Z.to_nat i)) as [-> | Hne].
    + exists t, th', i. by rewrite (updated_lookup ths t th).
    + rewrite list_lookup_insert_ne in Hj by done.
      destruct (Howner j Hj) as (t0 & th0 & i0 & Hth0 & Hi0 & Hij).
      exists t0, th0, i0. rewrite list_lookup_insert_ne; [done |].
      intros <-. congruence.
Qed.

(** The destructor of the lock object. *)
Lemma workers_locks_release (m : hashmap) ths t (th th' : thread) i :
  ths !! t = Some th -> Workers.holds th = Some i ->
  Workers.holds th' = None ->
  Workers.locks_ok m ths ->
  Workers.locks_ok (Hashmap.unlock i m) (<[t:=th']> ths).
Proof.
  intros Hth Hsome Hnone [Hheld Hexcl Howner].
  destruct (Hheld t th i Hth Hsome) as [Hi Htrue].
  pose proof (lookup_lt_Some _ _ _ Htrue) as Hlt.
  assert (forall t0 th0 i0,
            t0 <> t -> ths !! t0 = Some th0 -> Workers.holds th0 = Some i0 ->
            Z.to_nat i0 <> Z.to_nat i) as Hother.
  { intros t0 th0 i0 Hne Hth0 Hi0 Heq.
    destruct (Hheld t0 th0 i0 Hth0 Hi0) as [Hpos _].
    assert (i0 = i) as -> by lia.
    by apply Hne, (Hexcl t0 t th0 th i). }
  constructor; simpl.
  - intros t0 th0 i0 [[-> ->] | [Hne Hth0]]%updated_cases Hi0;
      [congruence |].
    destruct (Hheld t0 th0 i0 Hth0 Hi0) as [Hpos Htrue0].
    split; [done |]. rewrite list_lookup_insert_ne; [done |].
    intros Heq. by apply (Hother t0 th0 i0).
  - intros t1 t2 th1 th2 i0
      [[-> ->] | [Hne1 Hth1]]%updated_cases
      [[-> ->] | [Hne2 Hth2]]%updated_cases Hi1 Hi2; try congruence.
    by apply (Hexcl t1 t2 th1 th2 i0).
  - intros j Hj. destruct (decide (j = Z.to_nat i)) as [-> | Hne].
    + rewrite list_lookup_insert_eq in Hj by done. done.
    + rewrite list_lookup_insert_ne in Hj by done.
      destruct (Howner j Hj) as (t0 & th0 & i0 & Hth0 & Hi0 & Hij).
      exists t0, th0, i0. rewrite list_lookup_insert_ne; [done |].
      intros <-. assert (i0 = i) by congruence. congruence.
Qed.
End WorkerLocks.

(** ** A call by one thread alone, from the chain of its bucket *)

Section WorkerCalls.
Context {Key Value : Type} `{EqDecision Key}.

Local Abbreviation chain := (NodeList.t Key Value).
Local Abbreviation hashmap := (Hashmap.t Key Value).

Lemma perform_find k (m : hashmap) c :
  stripe_mutex m k = Some false ->
  Hashmap.bucket m (Hashmap.getIndex m k) = Some c ->
  Workers.perform (Workers.Keyed Workers.Find k) m =
  Some (Workers.Bool (bool_decide (NodeList.find k c ≠ None)), m).
Proof.
  intros Hfree Hc. unfold Workers.perform, Hashmap.find.
  enter_locked Hfree i. rewrite Hc. simpl.
  by rewrite unlock_set_mutex.
Qed.

Lemma perform_getCopy k (m : hashmap) c :
  stripe_mutex m k = Some false ->
  Hashmap.bucket m (Hashmap.getIndex m k) = Some c ->
  Workers.perform (Workers.Keyed Workers.GetCopy k) m =
  Some (match NodeList.find k c ≫= (c !!.) with
        | Some node => Workers.Val (NodeList.value node)
        | None => Workers.Thrown KeyNotFound
        end, m).
Proof.
  intros Hfree Hc. unfold Workers.perform, Hashmap.getCopy.
  enter_locked Hfree i. rewrite Hc.
  destruct (NodeList.find k c ≫= (c !!.)); simpl;
    by rewrite unlock_set_mutex.
Qed.

Lemma perform_get_absent u k (m : hashmap) c :
  stripe_mutex m k = Some false ->
  Hashmap.bucket m (Hashmap.getIndex m k) = Some c ->
  NodeList.find k c = None ->
  Workers.perform (Workers.Keyed (Workers.Get u) k) m =
  Some (Workers.Thrown KeyNotFound, m).
Proof.
  intros Hfree Hc Hfind. unfold Workers.perform, Hashmap.get.
  enter_locked Hfree i. rewrite Hc, Hfind. simpl.
  by rewrite unlock_set_mutex.
Qed.

Lemma perform_get_found u k (m : hashmap) c node n :
  stripe_mutex m k = Some false ->
  Hashmap.bucket m (Hashmap.getIndex m k) = Some c ->
  NodeList.find k c = Some node -> c !! node = Some n ->
  Workers.perform (Workers.Keyed (Workers.Get u) k) m =
  Some (match u with
        | Workers.ReadFirst => Workers.Val (NodeList.value n)
        | Workers.CallSize => Workers.Num (Hashmap.size m)
        end, m).
Proof.
  intros Hfree Hc Hfind Hn. unfold Workers.perform, Hashmap.get.
  enter_locked Hfree i. rewrite Hc, Hfind. simpl. rewrite Hn. simpl.
  rewrite unlock_set_mutex by done. by destruct u.
Qed.

Lemma perform_insert k v (m : hashmap) c :
  stripe_mutex m k = Some false ->
  Hashmap.bucket m (Hashmap.getIndex m k) = Some c ->
  Workers.perform (Workers.Keyed (Workers.Insert v) k) m =
  Some (Workers.Void,
        Hashmap.set_size
          (if (NodeList.insert k v c).2 then wrap (Hashmap.mSize m + 1)
           else Hashmap.mSize m)
          (Hashmap.set_bucket (Hashmap.getIndex m k)
             (NodeList.insert k v c).1 m)).
Proof.
  intros Hfree Hc. unfold Workers.perform.
  by rewrite (insert_state k v m c Hfree Hc).
Qed.

Lemma perform_erase k (m : hashmap) c :
  stripe_mutex m k = Some false ->
  Hashmap.bucket m (Hashmap.getIndex m k) = Some c ->
  Workers.perform (Workers.Keyed Workers.Erase k) m =
  Some (Workers.Void,
        Hashmap.set_size
          (if (NodeList.erase k c).2 then wrap (Hashmap.mSize m - 1)
           else Hashmap.mSize m)
          (Hashmap.set_bucket (Hashmap.getIndex m k)
             (NodeList.erase k c).1 m)).
Proof.
  intros Hfree Hc. unfold Workers.perform.
  by rewrite (erase_state k m c Hfree Hc).
Qed.

(** A call that one thread makes alone keeps the container well-formed
    and its mutexes free. *)
Lemma perform_wf o (m m' : hashmap) r :
  wf m -> Workers.all_free m -> Workers.perform o m = Some (r, m') ->
  wf m' /\ same_config m m' /\ Workers.all_free m'.
Proof.
  intros Hwf Hfree. pose proof Hwf as [Hcfg Hinv Hsize].
  assert (forall k, stripe_mutex m k = Some false) as Hidle.
  { intros k. destruct (stripe_mutex_is_Some m k Hcfg) as [[|] Hb]; [| done].
    unfold stripe_mutex in Hb.
    destruct (Hashmap.getMutex _ _) as [i |]; [| done].
    by destruct (Hfree _ Hb). }
  assert (forall c, after c m = Some m' ->
            Hashmap.mMutexes m' = Hashmap.mMutexes m ->
            wf m' /\ same_config m m' /\ Workers.all_free m') as Hcall.
  { intros c Hafter Hmtx. destruct (wf_after c m m' Hwf Hafter) as [? ?].
    split; [done | split; [done |]].
    unfold Workers.all_free. rewrite Hmtx. apply Hfree. }
  destruct o as [| | [| | u | v |] k].
  - intros [= _ <-]. by apply (Hcall CallSize).
  - intros [= _ <-]. by apply (Hcall CallSize).
  - destruct (bucket_getIndex m k Hcfg) as [c Hc].
    rewrite (perform_find k m c (Hidle k) Hc). intros [= _ <-].
    by apply (Hcall CallSize).
  - destruct (bucket_getIndex m k Hcfg) as [c Hc].
    rewrite (perform_getCopy k m c (Hidle k) Hc). intros [= _ <-].
    by apply (Hcall CallSize).
  - destruct (bucket_getIndex m k Hcfg) as [c Hc].
    destruct (NodeList.find k c) as [node |] eqn:Hfind.
    + destruct (find_lookup k c node Hfind) as (n & Hn & _).
      rewrite (perform_get_found u k m c node n (Hidle k) Hc Hfind Hn).
      intros [= _ <-]. by apply (Hcall CallSize).
    + rewrite (perform_get_absent u k m c (Hidle k) Hc Hfind).
      intros [= _ <-]. by apply (Hcall CallSize).
  - destruct (bucket_getIndex m k Hcfg) as [c Hc].
    rewrite (perform_insert k v m c (Hidle k) Hc).
    intros [= _ <-]. apply (Hcall (CallInsert k v)); [| done].
    simpl. by rewrite (insert_state k v m c (Hidle k) Hc).
  - destruct (bucket_getIndex m k Hcfg) as [c Hc].
    rewrite (perform_erase k m c (Hidle k) Hc).
    intros [= _ <-]. apply (Hcall (CallErase k)); [| done].
    simpl. by rewrite (erase_state k m c (Hidle k) Hc).
Qed.
End WorkerCalls.

(** ** The running system against the calls that have taken effect *)

Section WorkerSimulation.
Context {Key Value : Type} `{EqDecision Key}.

Local Abbreviation chain := (NodeList.t Key Value).
Local Abbreviation hashmap := (Hashmap.t Key Value).
Local Abbreviation thread := (Workers.thread Key Value).
Local Abbreviation system := (Workers.system Key Value).

(** A thread inside a call on a key holds the mutex of the key's
    stripe. *)
Lemma point_key (m a : hashmap) (th : thread) k :
  Workers.point_ok m a th -> Workers.key_at th = Some k ->
  exists i, Workers.holds th = Some i /\
    Hashmap.getMutex m (Hashmap.getIndex m k) = Some i.
Proof.
  unfold Workers.point_ok, Workers.key_at, Workers.holds.
  destruct (Workers.at_point th) as
    [| i a0 k0 | i a0 k0 c | i u k0 node | i k0 v b | i k0 b | i r];
    try done; intros Hp [= <-]; exists i; (split; [done |]);
    first [exact Hp | exact (proj1 Hp)].
Qed.

(** Two threads inside calls are in different buckets. *)
Lemma other_bucket (m a : hashmap) ths t t0 (th th0 : thread) i k k0 :
  config_ok m -> Workers.locks_ok m ths ->
  ths !! t = Some th -> ths !! t0 = Some th0 -> t0 <> t ->
  Workers.holds th = Some i ->
  Hashmap.getMutex m (Hashmap.getIndex m k) = Some i ->
  Workers.point_ok m a th0 -> Workers.key_at th0 = Some k0 ->
  Z.to_nat (Hashmap.getIndex m k0) <> Z.to_nat (Hashmap.getIndex m k).
Proof.
  intros Hcfg Hlocks Hth Hth0 Hne Hi Hk Hp0 Hk0 Heq.
  destruct (point_key m a th0 k0 Hp0 Hk0) as (i0 & Hi0 & Hm0).
  assert (Hashmap.getIndex m k0 = Hashmap.getIndex m k) as Hidx.
  { pose proof (getIndex_range m k Hcfg).
    pose proof (getIndex_range m k0 Hcfg). lia. }
  rewrite Hidx in Hm0. assert (i0 = i) as -> by congruence.
  apply Hne. by apply (Workers.locks_exclusive m ths Hlocks t0 t th0 th i).
Qed.

Lemma writing_key (m : hashmap) (th : thread) j :
  Workers.writing m th = Some j ->
  exists k, Workers.key_at th = Some k /\
    j = Z.to_nat (Hashmap.getIndex m k).
Proof.
  unfold Workers.writing, Workers.key_at.
  destruct (Workers.at_point th); try done; intros [= <-]; by eexists.
Qed.

Lemma writing_same (m m' : hashmap) (th : thread) :
  (forall k, Hashmap.getIndex m' k = Hashmap.getIndex m k) ->
  Workers.writing m' th = Workers.writing m th.
Proof.
  intros Hidx. unfold Workers.writing.
  destruct (Workers.at_point th); by rewrite ?Hidx.
Qed.

(** What a thread knows stays true when the chains of its bucket stay as
    they are. *)
Lemma point_ok_change (m a m' a' : hashmap) (th : thread) :
  (forall k, Hashmap.getIndex m' k = Hashmap.getIndex m k) ->
  (forall x, Hashmap.getMutex m' x = Hashmap.getMutex m x) ->
  (forall k, Workers.key_at th = Some k ->
     Hashmap.bucket m' (Hashmap.getIndex m k) =
       Hashmap.bucket m (Hashmap.getIndex m k) /\
     Hashmap.bucket a' (Hashmap.getIndex m k) =
       Hashmap.bucket a (Hashmap.getIndex m k)) ->
  Workers.point_ok m a th -> Workers.point_ok m' a' th.
Proof.
  intros Hidx Hmtx Hb. unfold Workers.point_ok, Workers.key_at in *.
  destruct (Workers.at_point th) as
    [| i a0 k0 | i a0 k0 c | i u k0 node | i k0 v b | i k0 b | i r];
    try done; rewrite ?Hidx, ?Hmtx;
    destruct (Hb _ eq_refl) as [Hm Ha]; by rewrite ?Hm, ?Ha.
Qed.

(** The relation after a step of thread [t]. *)
Lemma simulates_update (m a m' a' : hashmap) ths t (th th' : thread) :
  Workers.simulates {| Workers.shared := m; Workers.threads := ths |} a ->
  ths !! t = Some th ->
  config_ok m' -> wf a' -> same_config m' a' -> Workers.all_free a' ->
  Hashmap.mSize m' = Hashmap.mSize a' ->
  Workers.locks_ok m' (<[t:=th']> ths) ->
  (forall k, Hashmap.getIndex m' k = Hashmap.getIndex m k) ->
  (forall x, Hashmap.getMutex m' x = Hashmap.getMutex m x) ->
  Workers.point_ok m' a' th' ->
  (forall t0 th0 k0,
     ths !! t0 = Some th0 -> t0 <> t -> Workers.key_at th0 = Some k0 ->
     Hashmap.bucket m' (Hashmap.getIndex m k0) =
       Hashmap.bucket m (Hashmap.getIndex m k0) /\
     Hashmap.bucket a' (Hashmap.getIndex m k0) =
       Hashmap.bucket a (Hashmap.getIndex m k0)) ->
  (forall j,
     (forall t0 th0, <[t:=th']> ths !! t0 = Some th0 ->
        Workers.writing m' th0 <> Some j) ->
     Hashmap.mTable a' !! j = Hashmap.mTable m' !! j) ->
  Workers.simulates
    {| Workers.shared := m'; Workers.threads := <[t:=th']> ths |} a'.
Proof.
  intros [_ _ _ _ _ _ Hpoints _] Hth Hcfg Hwf Hsame Hfree Hsize Hlocks
    Hidx Hmtx Hpoint Hother Htable.
  constructor; simpl in *; try done.
  intros t0 th0 [[-> ->] | [Hne Hth0]]%updated_cases; [done |].
  apply (point_ok_change m a); [done | done | | by apply (Hpoints t0)].
  intros k0 Hk0. by apply (Hother t0 th0).
Qed.

(** A step of thread [t] that writes neither a chain nor the counter and
    has no effect yet. *)
Lemma simulates_keep (m a m' : hashmap) ths t (th th' : thread) :
  Workers.simulates {| Workers.shared := m; Workers.threads := ths |} a ->
  ths !! t = Some th ->
  config_ok m' -> same_config m' a ->
  Hashmap.mSize m' = Hashmap.mSize a ->
  Workers.locks_ok m' (<[t:=th']> ths) ->
  (forall k, Hashmap.getIndex m' k = Hashmap.getIndex m k) ->
  (forall x, Hashmap.getMutex m' x = Hashmap.getMutex m x) ->
  Hashmap.mTable m' = Hashmap.mTable m ->
  Workers.point_ok m' a th' ->
  Workers.writing m th' = Workers.writing m th ->
  Workers.simulates
    {| Workers.shared := m'; Workers.threads := <[t:=th']> ths |} a.
Proof.
  intros Hsim Hth Hcfg Hsame Hsize Hlocks Hidx Hmtx Htbl Hpoint Hwr.
  pose proof Hsim as [_ Hwf _ Hfree _ _ _ Htable]. simpl in *.
  apply (simulates_update m a m' a ths t th th'); try done.
  - intros t0 th0 k0 _ _ _. unfold Hashmap.bucket. by rewrite Htbl.
  - intros j Hno. rewrite Htbl. apply Htable.
    intros t0 th0 Hth0. destruct (decide (t0 = t)) as [-> | Hne].
    + assert (th0 = th) as -> by congruence. rewrite <- Hwr.
      rewrite <- (writing_same m m' th' Hidx).
      apply (Hno t). by apply (updated_lookup ths t th).
    + rewrite <- (writing_same m m' th0 Hidx).
      apply (Hno t0). by rewrite list_lookup_insert_ne.
Qed.

(** The container the calls in effect leave has the index function of
    the shared one, and its mutexes are free. *)
Lemma settled_index (s : system) (a : hashmap) k :
  Workers.simulates s a ->
  Hashmap.getIndex a k = Hashmap.getIndex (Workers.shared s) k.
Proof.
  intros [_ _ (Hc & _ & _ & Hh) _ _ _ _ _]. unfold Hashmap.getIndex.
  by rewrite Hc, Hh.
Qed.

Lemma all_free_stripe (a : hashmap) k :
  config_ok a -> Workers.all_free a -> stripe_mutex a k = Some false.
Proof.
  intros Hcfg Hfree.
  destruct (stripe_mutex_is_Some a k Hcfg) as [[|] Hb]; [| done].
  unfold stripe_mutex in Hb.
  destruct (Hashmap.getMutex _ _) as [i |]; [| done].
  by destruct (Hfree _ Hb).
Qed.

(** The thread that holds the mutex of a stripe and has written no chain
    reads the chains of the stripe as the calls in effect left them. *)
Lemma settled_bucket (m a : hashmap) ths t (th : thread) i k :
  Workers.simulates {| Workers.shared := m; Workers.threads := ths |} a ->
  ths !! t = Some th -> Workers.holds th = Some i ->
  Workers.writing m th = None ->
  Hashmap.getMutex m (Hashmap.getIndex m k) = Some i ->
  Hashmap.bucket a (Hashmap.getIndex m k) =
  Hashmap.bucket m (Hashmap.getIndex m k).
Proof.
  intros [Hcfg _ _ _ _ Hlocks Hpoints Htable] Hth Hi Hwr Hk. simpl in *.
  unfold Hashmap.bucket. apply Htable.
  intros t0 th0 Hth0 Hw. destruct (decide (t0 = t)) as [-> | Hne].
  - assert (th0 = th) as -> by congruence. congruence.
  - destruct (writing_key m th0 _ Hw) as (k0 & Hk0 & Heq).
    by apply (other_bucket m a ths t t0 th th0 i k k0 Hcfg Hlocks Hth Hth0
                Hne Hi Hk (Hpoints t0 th0 Hth0) Hk0).
Qed.

(** The other threads inside calls are in other buckets than the one
    thread [t] writes. *)
Lemma others_unwritten (m a : hashmap) ths t (th : thread) i k
    (c : chain) n (a' : hashmap) :
  Workers.simulates {| Workers.shared := m; Workers.threads := ths |} a ->
  ths !! t = Some th -> Workers.holds th = Some i ->
  Hashmap.getMutex m (Hashmap.getIndex m k) = Some i ->
  forall t0 th0 k0,
    ths !! t0 = Some th0 -> t0 <> t -> Workers.key_at th0 = Some k0 ->
    Hashmap.bucket
      (Hashmap.set_size n (Hashmap.set_bucket (Hashmap.getIndex m k) c a'))
      (Hashmap.getIndex m k0) =
    Hashmap.bucket a' (Hashmap.getIndex m k0).
Proof.
  intros [Hcfg _ _ _ _ Hlocks Hpoints _] Hth Hi Hk t0 th0 k0 Hth0 Hne Hk0.
  simpl in *. unfold Hashmap.bucket. simpl.
  apply list_lookup_insert_ne. intros Heq.
  by apply (other_bucket m a ths t t0 th th0 i k k0 Hcfg Hlocks Hth Hth0
              Hne Hi Hk (Hpoints t0 th0 Hth0) Hk0).
Qed.

(** A step with no effect leaves the system of the calls in effect as it
    is; a step with which a call takes effect makes that call in it. *)
Lemma settle_same (m m' a : hashmap) ths t (th th' : thread) :
  ths !! t = Some th -> Workers.settled th' = Workers.settled th ->
  Workers.settle
    {| Workers.shared := m'; Workers.threads := <[t:=th']> ths |} a =
  Workers.settle {| Workers.shared := m; Workers.threads := ths |} a.
Proof.
  intros Hth Hs. unfold Workers.settle. simpl. f_equal.
  rewrite list_fmap_insert, Hs. apply list_insert_id.
  by rewrite list_lookup_fmap, Hth.
Qed.

Lemma settle_call (m m' a a' : hashmap) ths t (th th' : thread) o rest rs r :
  ths !! t = Some th ->
  Workers.settled th =
    {| Workers.at_point := Workers.Ready; Workers.todo := o :: rest;
       Workers.results := rs |} ->
  Workers.settled th' =
    {| Workers.at_point := Workers.Ready; Workers.todo := rest;
       Workers.results := rs ++ [r] |} ->
  Workers.perform o a = Some (r, a') ->
  Workers.serial_step
    (Workers.settle {| Workers.shared := m; Workers.threads := ths |} a)
    (Workers.settle
       {| Workers.shared := m'; Workers.threads := <[t:=th']> ths |} a').
Proof.
  intros Hth Hs Hs' Hperf. exists t.
  unfold Workers.call_thread, Workers.settle. simpl.
  rewrite list_lookup_fmap, Hth. simpl. rewrite Hs. simpl.
  rewrite Hperf. by rewrite list_fmap_insert, Hs'.
Qed.

(** Unfolding one step of the system. *)
Lemma workers_step_inv (s s' : system) t :
  Workers.step_thread t s = Some s' ->
  exists th m' th',
    Workers.threads s !! t = Some th /\
    Workers.thread_step (Workers.shared s) th = Some (m', th') /\
    s' = {| Workers.shared := m';
            Workers.threads := <[t:=th']> (Workers.threads s) |}.
Proof.
  unfold Workers.step_thread.
  destruct (Workers.threads s !! t) as [th |] eqn:Hth; [| done].
  destruct (Workers.thread_step (Workers.shared s) th)
    as [[m' th'] |] eqn:Hts; [| done].
  intros [= <-]. by exists th, m', th'.
Qed.
End WorkerSimulation.

(** ** Every step keeps the relation, and every call takes effect in one
    step *)

Section WorkerSteps.
Context {Key Value : Type} `{EqDecision Key}.

Local Abbreviation chain := (NodeList.t Key Value).
Local Abbreviation hashmap := (Hashmap.t Key Value).
Local Abbreviation thread := (Workers.thread Key Value).
Local Abbreviation system := (Workers.system Key Value).

Lemma simulates_step (s s' : system) (a : hashmap) t :
  Workers.simulates s a -> Workers.step_thread t s = Some s' ->
  exists a',
    Workers.simulates s' a' /\
    (Workers.settle s' a' = Workers.settle s a \/
     Workers.serial_step (Workers.settle s a) (Workers.settle s' a')).
Proof.
  intros Hsim (th & m' & th' & Hth & Hts & ->)%workers_step_inv.
  destruct s as [m ths]. simpl in *.
  pose proof Hsim as [Hcfg Hwf Hsame Hfree Hsize Hlocks Hpoints Htable].
  simpl in *.
  pose proof (Hpoints t th Hth) as Hpoint.
  pose proof Hwf as [Hcfga _ _].
  assert (forall k, stripe_mutex a k = Some false) as Hidle
    by (intros k; by apply all_free_stripe).
  assert (forall k, Hashmap.getIndex a k = Hashmap.getIndex m k) as Hidx
    by (intros k; apply (settled_index _ a k Hsim)).
  unfold Workers.thread_step in Hts. unfold Workers.point_ok in Hpoint.
  destruct th as [pt todo rs]. simpl in *.
  destruct pt as [| i a0 k | i a0 k c | i u k node | i k v b | i k b | i r].
  - destruct todo as [| [| | a0 k] rest]; [done | | |].
    + (* capacity() *)
      injection Hts as <- <-. exists a. split.
      * apply (simulates_keep m a m ths t _ _ Hsim Hth); try done.
        by apply (workers_locks_keep m m ths t _ _ eq_refl Hth).
      * right.
        eapply (settle_call m m a a ths t _ _ Workers.Capacity rest rs
                 (Workers.Num (Hashmap.capacity m)) Hth); try done.
        simpl. unfold Hashmap.capacity. by rewrite (proj1 Hsame).
    + (* size() *)
      injection Hts as <- <-. exists a. split.
      * apply (simulates_keep m a m ths t _ _ Hsim Hth); try done.
        by apply (workers_locks_keep m m ths t _ _ eq_refl Hth).
      * right.
        eapply (settle_call m m a a ths t _ _ Workers.Size rest rs
                 (Workers.Num (Hashmap.size m)) Hth); try done.
        simpl. unfold Hashmap.size. by rewrite Hsize.
    + (* the constructor of the lock object *)
      destruct (Hashmap.getMutex m (Hashmap.getIndex m k)) as [i |] eqn:Hi;
        [| done].
      destruct (Hashmap.mMutexes m !! Z.to_nat i) as [[|] |] eqn:Hfreei;
        try done.
      injection Hts as <- <-.
      destruct (getMutex_range m _ Hcfg (getIndex_range m k Hcfg))
        as (i' & Hi' & _ & [Hpos _] & _).
      assert (i' = i) as -> by congruence.
      exists a. split.
      * apply (simulates_keep m a _ ths t _ _ Hsim Hth); try done.
        -- by apply config_ok_set_mutex.
        -- by apply (workers_locks_acquire m ths t _ _ i Hth).
      * left. by apply (settle_same m _ a ths t _ _ Hth).
  - (* the traversal of the chain *)
    destruct (Hashmap.bucket m (Hashmap.getIndex m k)) as [c |] eqn:Hc;
      [| done].
    injection Hts as <- <-. exists a. split.
    + apply (simulates_keep m a m ths t _ _ Hsim Hth); try done.
      by apply (workers_locks_keep m m ths t _ _ eq_refl Hth).
    + left. by apply (settle_same m _ a ths t _ _ Hth).
  - destruct Hpoint as [Hi Hc].
    pose proof (settled_bucket m a ths t _ i k Hsim Hth eq_refl eq_refl Hi)
      as Hca.
    rewrite Hc, <- Hidx in Hca.
    destruct a0 as [| | u | v |].
    + (* find returns *)
      injection Hts as <- <-. exists a. split.
      * apply (simulates_keep m a m ths t _ _ Hsim Hth); try done.
        by apply (workers_locks_keep m m ths t _ _ eq_refl Hth).
      * right.
        eapply (settle_call m m a a ths t _ _
                 (Workers.Keyed Workers.Find k) todo rs _ Hth);
          [done | done |].
        by apply perform_find.
    + (* getCopy returns or throws *)
      injection Hts as <- <-. exists a. split.
      * apply (simulates_keep m a m ths t _ _ Hsim Hth); try done.
        by apply (workers_locks_keep m m ths t _ _ eq_refl Hth).
      * right.
        eapply (settle_call m m a a ths t _ _
                 (Workers.Keyed Workers.GetCopy k) todo rs _ Hth);
          [done | done |].
        by apply perform_getCopy.
    + (* get returns the LockedValue, or throws *)
      injection Hts as <- <-. exists a.
      destruct (NodeList.find k c) as [node |] eqn:Hfind.
      * split.
        -- apply (simulates_keep m a m ths t _ _ Hsim Hth); try done.
           ++ by apply (workers_locks_keep m m ths t _ _ eq_refl Hth).
           ++ split; [done |]. by exists c.
        -- left. by apply (settle_same m _ a ths t _ _ Hth).
      * split.
        -- apply (simulates_keep m a m ths t _ _ Hsim Hth); try done.
           by apply (workers_locks_keep m m ths t _ _ eq_refl Hth).
        -- right.
           eapply (settle_call m m a a ths t _ _
                    (Workers.Keyed (Workers.Get u) k) todo rs _ Hth);
             [done | done |].
           by apply (perform_get_absent u k a c).
    + (* the write of NodeList::insert *)
      destruct (NodeList.insert k v c) as [c' b] eqn:Hins.
      injection Hts as <- <-. exists a. split.
      * rewrite set_bucket_write.
        apply (simulates_update m a _ a ths t _ _ Hsim Hth); try done.
        -- rewrite <- set_bucket_write. by apply config_ok_set_bucket.
        -- eapply (workers_locks_keep m _ ths t);
             [done | exact Hth | done | done].
        -- split; [done |]. exists c. rewrite Hins. simpl.
           change (Hashmap.getIndex (Hashmap.set_size _ _) k)
             with (Hashmap.getIndex m k).
           rewrite <- (Hidx k) at 1. split; [done |]. split; [| done].
           by apply (bucket_write m _ c).
        -- intros t0 th0 k0 Hth0 Hne Hk0. split; [| done].
           by apply (others_unwritten m a ths t _ i k c' _ m Hsim Hth eq_refl
                       Hi t0 th0 k0).
        -- intros j Hno. simpl.
           assert (j <> Z.to_nat (Hashmap.getIndex m k)) as Hj.
           { intros ->. by apply (Hno t _ (updated_lookup ths t _ _ Hth)). }
           rewrite list_lookup_insert_ne by done. apply Htable.
           intros t0 th0 Hth0. destruct (decide (t0 = t)) as [-> | Hne].
           ++ rewrite Hth in Hth0. by injection Hth0 as <-.
           ++ apply (Hno t0). by rewrite list_lookup_insert_ne.
      * left. by apply (settle_same m _ a ths t _ _ Hth).
    + (* the write of NodeList::erase *)
      destruct (NodeList.erase k c) as [c' b] eqn:Hers.
      injection Hts as <- <-. exists a. split.
      * rewrite set_bucket_write.
        apply (simulates_update m a _ a ths t _ _ Hsim Hth); try done.
        -- rewrite <- set_bucket_write. by apply config_ok_set_bucket.
        -- eapply (workers_locks_keep m _ ths t);
             [done | exact Hth | done | done].
        -- split; [done |]. exists c. rewrite Hers. simpl.
           change (Hashmap.getIndex (Hashmap.set_size _ _) k)
             with (Hashmap.getIndex m k).
           rewrite <- (Hidx k) at 1. split; [done |]. split; [| done].
           by apply (bucket_write m _ c).
        -- intros t0 th0 k0 Hth0 Hne Hk0. split; [| done].
           by apply (others_unwritten m a ths t _ i k c' _ m Hsim Hth eq_refl
                       Hi t0 th0 k0).
        -- intros j Hno. simpl.
           assert (j <> Z.to_nat (Hashmap.getIndex m k)) as Hj.
           { intros ->. by apply (Hno t _ (updated_lookup ths t _ _ Hth)). }
           rewrite list_lookup_insert_ne by done. apply Htable.
           intros t0 th0 Hth0. destruct (decide (t0 = t)) as [-> | Hne].
           ++ rewrite Hth in Hth0. by injection Hth0 as <-.
           ++ apply (Hno t0). by rewrite list_lookup_insert_ne.
      * left. by apply (settle_same m _ a ths t _ _ Hth).
  - (* the use of the LockedValue *)
    destruct Hpoint as (Hi & c & Hc & Hfind).
    pose proof (settled_bucket m a ths t _ i k Hsim Hth eq_refl eq_refl Hi)
      as Hca.
    rewrite Hc, <- Hidx in Hca.
    destruct (find_lookup k c node Hfind) as (n & Hn & _).
    assert (exists r,
              m' = m /\
              th' = Workers.move (Workers.Unlocking i r)
                      {| Workers.at_point := Workers.Holding i u k node;
                         Workers.todo := todo; Workers.results := rs |} /\
              Workers.perform (Workers.Keyed (Workers.Get u) k) a =
                Some (r, a)) as (r & -> & -> & Hperf).
    { rewrite (perform_get_found u k a c node n (Hidle k) Hca Hfind Hn).
      destruct u.
      - rewrite Hc in Hts. simpl in Hts. rewrite Hn in Hts.
        injection Hts as <- <-. by eexists.
      - injection Hts as <- <-. eexists. split; [done |]. split; [done |].
        unfold Hashmap.size. by rewrite Hsize. }
    exists a. split.
    + apply (simulates_keep m a m ths t _ _ Hsim Hth); try done.
      by apply (workers_locks_keep m m ths t _ _ eq_refl Hth).
    + right.
      by eapply (settle_call m m a a ths t _ _
                  (Workers.Keyed (Workers.Get u) k) todo rs r Hth).
  - (* ++mSize: insert takes effect *)
    destruct Hpoint as (Hi & c & Hca & Hc & Hb).
    injection Hts as <- <-. rewrite <- (Hidx k) in Hca.
    pose proof (perform_insert k v a c (Hidle k) Hca) as Hperf.
    set (a' := Hashmap.set_size _ _) in Hperf.
    destruct (perform_wf _ a a' _ Hwf Hfree Hperf) as (Hwf' & Hsame' & Hfree').
    exists a'. split.
    + apply (simulates_update m a _ a' ths t _ _ Hsim Hth); try done.
      * destruct b; [| done]. destruct Hcfg. by constructor.
      * destruct b; exact Hsame.
      * subst a'. simpl. rewrite <- Hb. destruct b; simpl; by rewrite Hsize.
      * eapply (workers_locks_keep m _ ths t); [by destruct b | exact Hth | | done].
        done.
      * by destruct b.
      * by destruct b.
      * intros t0 th0 k0 Hth0 Hne Hk0. split; [by destruct b |].
        subst a'. rewrite (Hidx k).
        by apply (others_unwritten m a ths t _ i k _ _ a Hsim Hth eq_refl
                    Hi t0 th0 k0).
      * intros j Hno.
        assert (Hashmap.mTable (if b then Hashmap.incr_size m else m) =
                Hashmap.mTable m) as -> by (by destruct b).
        subst a'. simpl. rewrite (Hidx k).
        destruct (decide (j = Z.to_nat (Hashmap.getIndex m k))) as [-> | Hj].
        -- rewrite list_lookup_insert_eq; [done |].
           rewrite (Hidx k) in Hca. by eapply lookup_lt_Some.
        -- rewrite list_lookup_insert_ne by done. apply Htable.
           intros t0 th0 Hth0. destruct (decide (t0 = t)) as [-> | Hne].
           ++ rewrite Hth in Hth0. injection Hth0 as <-.
              unfold Workers.writing. simpl. congruence.
           ++ rewrite <- (writing_same m (if b then Hashmap.incr_size m else m)
                           th0) by (by destruct b).
              apply (Hno t0). by rewrite list_lookup_insert_ne.
    + right.
      by eapply (settle_call m _ a a' ths t _ _
                  (Workers.Keyed (Workers.Insert v) k) todo rs Workers.Void
                  Hth).
  - (* --mSize: erase takes effect *)
    destruct Hpoint as (Hi & c & Hca & Hc & Hb).
    injection Hts as <- <-. rewrite <- (Hidx k) in Hca.
    pose proof (perform_erase k a c (Hidle k) Hca) as Hperf.
    set (a' := Hashmap.set_size _ _) in Hperf.
    destruct (perform_wf _ a a' _ Hwf Hfree Hperf) as (Hwf' & Hsame' & Hfree').
    exists a'. split.
    + apply (simulates_update m a _ a' ths t _ _ Hsim Hth); try done.
      * destruct b; [| done]. destruct Hcfg. by constructor.
      * destruct b; exact Hsame.
      * subst a'. simpl. rewrite <- Hb. destruct b; simpl; by rewrite Hsize.
      * eapply (workers_locks_keep m _ ths t); [by destruct b | exact Hth | | done].
        done.
      * by destruct b.
      * by destruct b.
      * intros t0 th0 k0 Hth0 Hne Hk0. split; [by destruct b |].
        subst a'. rewrite (Hidx k).
        by apply (others_unwritten m a ths t _ i k _ _ a Hsim Hth eq_refl
                    Hi t0 th0 k0).
      * intros j Hno.
        assert (Hashmap.mTable (if b then Hashmap.decr_size m else m) =
                Hashmap.mTable m) as -> by (by destruct b).
        subst a'. simpl. rewrite (Hidx k).
        destruct (decide (j = Z.to_nat (Hashmap.getIndex m k))) as [-> | Hj].
        -- rewrite list_lookup_insert_eq; [done |].
           rewrite (Hidx k) in Hca. by eapply lookup_lt_Some.
        -- rewrite list_lookup_insert_ne by done. apply Htable.
           intros t0 th0 Hth0. destruct (decide (t0 = t)) as [-> | Hne].
           ++ rewrite Hth in Hth0. injection Hth0 as <-.
              unfold Workers.writing. simpl. congruence.
           ++ rewrite <- (writing_same m (if b then Hashmap.decr_size m else m)
                           th0) by (by destruct b).
              apply (Hno t0). by rewrite list_lookup_insert_ne.
    + right.
      by eapply (settle_call m _ a a' ths t _ _
                  (Workers.Keyed Workers.Erase k) todo rs Workers.Void Hth).
  - (* the destructor of the lock object *)
    injection Hts as <- <-. exists a. split.
    + apply (simulates_keep m a _ ths t _ _ Hsim Hth); try done.
      * by apply config_ok_set_mutex.
      * by apply (workers_locks_release m ths t _ _ i Hth).
    + left. by apply (settle_same m _ a ths t _ _ Hth).
Qed.
End WorkerSteps.

(** ** Executions *)

Section WorkerExecutions.
Context {Key Value : Type} `{EqDecision Key}.

Local Abbreviation chain := (NodeList.t Key Value).
Local Abbreviation hashmap := (Hashmap.t Key Value).
Local Abbreviation thread := (Workers.thread Key Value).
Local Abbreviation system := (Workers.system Key Value).

Lemma workers_start_lookup (m : hashmap) calls t th :
  Workers.threads (Workers.start m calls) !! t = Some th ->
  Workers.at_point th = Workers.Ready /\ Workers.results th = [] /\
  calls !! t = Some (Workers.todo th).
Proof.
  simpl. rewrite list_lookup_fmap.
  destruct (calls !! t); simpl; [| done]. by intros [= <-].
Qed.

Lemma simulates_start (m : hashmap) calls :
  wf m -> Workers.all_free m ->
  Workers.simulates (Workers.start m calls) m /\
  Workers.settle (Workers.start m calls) m = Workers.start m calls.
Proof.
  intros Hwf Hfree. split.
  - constructor; simpl; try done.
    + by destruct Hwf.
    + constructor.
      * intros t th i Hth Hi.
        apply (workers_start_lookup m calls) in Hth as (Hat & _).
        unfold Workers.holds in Hi. by rewrite Hat in Hi.
      * intros t1 t2 th1 th2 i Hth _ Hi _.
        apply (workers_start_lookup m calls) in Hth as (Hat & _).
        unfold Workers.holds in Hi. by rewrite Hat in Hi.
      * intros j Hj. by destruct (Hfree j).
    + intros t th Hth.
      apply (workers_start_lookup m calls) in Hth as (Hat & _).
      unfold Workers.point_ok. by rewrite Hat.
  - unfold Workers.settle, Workers.start. simpl. f_equal.
    rewrite <- list_fmap_compose. by apply list_fmap_ext.
Qed.

Lemma simulates_steps (s s' : system) (a : hashmap) :
  Workers.simulates s a -> rtc Workers.step s s' ->
  exists a',
    Workers.simulates s' a' /\
    rtc Workers.serial_step (Workers.settle s a) (Workers.settle s' a').
Proof.
  intros Hsim Hsteps. revert a Hsim.
  induction Hsteps as [s | s1 s2 s3 [t Hstep] _ IH]; intros a Hsim.
  - by exists a.
  - destruct (simulates_step s1 s2 a t Hsim Hstep)
      as (a1 & Hsim1 & Heff).
    destruct (IH a1 Hsim1) as (a' & Hsim' & Hser).
    exists a'. split; [done |].
    destruct Heff as [<- | Hcall]; [done | by eapply rtc_l].
Qed.

(** When every thread has finished, all calls have taken effect. *)
Lemma simulates_finished (s : system) (a : hashmap) :
  Workers.simulates s a -> Workers.finished s ->
  a = Workers.shared s /\ Workers.settle s a = s.
Proof.
  intros [Hcfg [Hcfga _ _] (Hc & Hmc & Hi & Hh) Hfree Hsize Hlocks _ Htable]
    Hfin.
  assert (a = Workers.shared s) as ->.
  { assert (length (Hashmap.mMutexes a) =
            length (Hashmap.mMutexes (Workers.shared s))) as Hlen
      by (by rewrite (cfg_mutexes _ Hcfg), (cfg_mutexes _ Hcfga), Hmc).
    destruct s as [m ths]. simpl in *.
    destruct a as [cap mc ipm h sz tbl mtx], m as [cap' mc' ipm' h' sz' tbl' mtx'].
    simpl in *. subst. f_equal.
    - apply list_eq. intros j. apply Htable. intros t th Hth.
      destruct (Hfin t th Hth) as [Hat _].
      unfold Workers.writing. by rewrite Hat.
    - apply free_mutexes_eq.
      + exact Hlen.
      + exact Hfree.
      + intros j Hj.
        destruct (Workers.locks_owner _ _ Hlocks j Hj)
          as (t & th & i & Hth & Hi & _).
        destruct (Hfin t th Hth) as [Hat _].
        unfold Workers.holds in Hi. by rewrite Hat in Hi. }
  split; [done |]. destruct s as [m ths]. unfold Workers.settle. simpl.
  f_equal. apply list_eq. intros j. rewrite list_lookup_fmap.
  destruct (ths !! j) as [th |] eqn:Hth; [| done]. simpl. f_equal.
  destruct (Hfin j th Hth) as [Hat _]. unfold Workers.settled.
  by rewrite Hat.
Qed.
End WorkerExecutions.

(** ** A call made by one thread alone is a run of its steps *)

Section WorkerRuns.
Context {Key Value : Type} `{EqDecision Key}.

Local Abbreviation chain := (NodeList.t Key Value).
Local Abbreviation hashmap := (Hashmap.t Key Value).
Local Abbreviation thread := (Workers.thread Key Value).
Local Abbreviation system := (Workers.system Key Value).






End WorkerRuns.

(** ** No deadlock, no undefined step, and termination *)

Section WorkerProgress.
Context {Key Value : Type} `{EqDecision Key}.

Local Abbreviation chain := (NodeList.t Key Value).
Local Abbreviation hashmap := (Hashmap.t Key Value).
Local Abbreviation thread := (Workers.thread Key Value).
Local Abbreviation system := (Workers.system Key Value).

(** Either a thread is inside a call, or a thread has a call to make, or
    all have finished. *)
Lemma workers_cases (ths : list thread) :
  (exists t th, ths !! t = Some th /\ Workers.at_point th <> Workers.Ready) \/
  ((forall t th, ths !! t = Some th -> Workers.at_point th = Workers.Ready) /\
   exists t th o rest, ths !! t = Some th /\ Workers.todo th = o :: rest) \/
  (forall t th, ths !! t = Some th ->
     Workers.at_point th = Workers.Ready /\ Workers.todo th = []).
Proof.
  induction ths as [| th ths IH].
  - right. right. by intros t th ?.
  - destruct (Workers.at_point th) eqn:Hat;
      try (left; exists 0%nat, th; split; [done | by rewrite Hat]).
    destruct IH as [(t & th0 & Hth0 & Hbusy) | [[Hready Htodo] | Hfin]].
    + left. by exists (S t), th0.
    + right. left. split.
      * intros [| t] th0; simpl; [by intros [= <-] | apply Hready].
      * destruct Htodo as (t & th0 & o & rest & Hth0 & Htd).
        by exists (S t), th0, o, rest.
    + destruct (Workers.todo th) as [| o rest] eqn:Htd.
      * right. right. intros [| t] th0; simpl; [by intros [= <-] |].
        apply Hfin.
      * right. left. split.
        -- intros [| t] th0; simpl; [by intros [= <-] |].
           intros Hth0. by destruct (Hfin t th0 Hth0).
        -- by exists 0%nat, th, o, rest.
Qed.

Lemma workers_finished_dec (s : system) :
  Workers.finished s \/ ~ Workers.finished s.
Proof.
  destruct (workers_cases (Workers.threads s))
    as [(t & th & Hth & Hbusy) | [[_ (t & th & o & rest & Hth & Htd)] | Hfin]].
  - right. intros Hfin. by destruct (Hfin t th Hth).
  - right. intros Hfin. destruct (Hfin t th Hth). congruence.
  - by left.
Qed.

(** A thread inside a call can always take its next step: no index is
    outside its array, and the reference of a [LockedValue] is not
    dangling. *)
Lemma workers_busy_steps (m a : hashmap) (th : thread) :
  config_ok m -> Workers.point_ok m a th ->
  Workers.at_point th <> Workers.Ready ->
  is_Some (Workers.thread_step m th).
Proof.
  intros Hcfg Hpoint Hbusy.
  unfold Workers.thread_step, Workers.point_ok in *.
  destruct (Workers.at_point th) as
    [| i a0 k | i a0 k c | i u k node | i k v b | i k b | i r]; try done.
  - destruct (bucket_getIndex m k Hcfg) as [c ->]. by eexists.
  - destruct a0 as [| | u | v |]; try by eexists.
    + destruct (NodeList.insert k v c). by eexists.
    + destruct (NodeList.erase k c). by eexists.
  - destruct Hpoint as (_ & c & Hc & Hfind).
    destruct (find_lookup k c node Hfind) as (n & Hn & _).
    destruct u; [| by eexists]. rewrite Hc. simpl. rewrite Hn. by eexists.
Qed.

(** A thread that cannot take a step has finished, or it is about to
    make a call on a key whose stripe mutex is locked. *)
Lemma workers_waiting (s : system) (a : hashmap) t (th : thread) :
  Workers.simulates s a -> Workers.threads s !! t = Some th ->
  Workers.thread_step (Workers.shared s) th = None ->
  Workers.at_point th = Workers.Ready /\
  (Workers.todo th = [] \/
   exists a0 k rest, Workers.todo th = Workers.Keyed a0 k :: rest /\
     stripe_mutex (Workers.shared s) k = Some true).
Proof.
  intros [Hcfg _ _ _ _ _ Hpoints _] Hth Hnone.
  assert (Workers.at_point th = Workers.Ready \/
          Workers.at_point th <> Workers.Ready) as [Hat | Hbusy]
    by (destruct (Workers.at_point th); (by left) || (by right)).
  - split; [done |]. unfold Workers.thread_step in Hnone.
    rewrite Hat in Hnone.
    destruct (Workers.todo th) as [| [| | a0 k] rest]; try done; [by left |].
    right. exists a0, k, rest. split; [done |].
    destruct (stripe_mutex_is_Some (Workers.shared s) k Hcfg) as [b Hb].
    rewrite Hb. unfold stripe_mutex in Hb.
    destruct (Hashmap.getMutex _ _) as [i |]; [| done]. simpl in Hb.
    rewrite Hb in Hnone. by destruct b.
  - destruct (workers_busy_steps _ a th Hcfg (Hpoints t th Hth) Hbusy)
      as [? Hsome]. congruence.
Qed.

(** No deadlock: while some thread has not finished, some thread can take
    a step. *)
Lemma workers_progress (s : system) (a : hashmap) :
  Workers.simulates s a -> ~ Workers.finished s ->
  exists s', Workers.step s s'.
Proof.
  intros [Hcfg _ _ _ _ Hlocks Hpoints _] Hnot.
  destruct (workers_cases (Workers.threads s))
    as [(t & th & Hth & Hbusy) |
        [[Hready (t & th & o & rest & Hth & Htd)] | Hfin]].
  - destruct (workers_busy_steps _ a th Hcfg (Hpoints t th Hth) Hbusy)
      as [[m' th'] Hts].
    eexists. exists t. unfold Workers.step_thread. by rewrite Hth, Hts.
  - pose proof (Hready t th Hth) as Hat.
    destruct o as [| | a0 k].
    + eexists. exists t. unfold Workers.step_thread, Workers.thread_step.
      by rewrite Hth, Hat, Htd.
    + eexists. exists t. unfold Workers.step_thread, Workers.thread_step.
      by rewrite Hth, Hat, Htd.
    + destruct (getMutex_range _ _ Hcfg (getIndex_range _ k Hcfg))
        as (i & Hi & _ & _ & [b Hb]).
      destruct b.
      * destruct (Workers.locks_owner _ _ Hlocks _ Hb)
          as (t0 & th0 & i0 & Hth0 & Hi0 & _).
        unfold Workers.holds in Hi0. by rewrite (Hready t0 th0 Hth0) in Hi0.
      * eexists. exists t. unfold Workers.step_thread, Workers.thread_step.
        by rewrite Hth, Hat, Htd, Hi, Hb.
  - by destruct Hnot.
Qed.

(** Every step takes at least one off the steps that are left. *)
Lemma workers_thread_step_left (m m' : hashmap) (th th' : thread) :
  Workers.thread_step m th = Some (m', th') ->
  Workers.steps_left th' <= Workers.steps_left th - 1.
Proof.
  unfold Workers.thread_step, Workers.steps_left.
  destruct (Workers.at_point th) as
    [| i a0 k | i a0 k c | i u k node | i k v b | i k b | i r].
  - destruct (Workers.todo th) as [| [| | a0 k] rest]; [done | | |].
    + intros [= <- <-]. simpl. lia.
    + intros [= <- <-]. simpl. lia.
    + destruct (Hashmap.getMutex _ _) as [i |]; [| done].
      destruct (Hashmap.mMutexes m !! _) as [[|] |]; try done.
      intros [= <- <-]. simpl. lia.
  - destruct (Hashmap.bucket _ _); [| done]. intros [= <- <-]. simpl. lia.
  - destruct a0 as [| | u | v |].
    + intros [= <- <-]. simpl. lia.
    + intros [= <- <-]. simpl. lia.
    + intros [= <- <-]. destruct (NodeList.find k c); simpl; lia.
    + destruct (NodeList.insert k v c). intros [= <- <-]. simpl. lia.
    + destruct (NodeList.erase k c). intros [= <- <-]. simpl. lia.
  - destruct u.
    + destruct (_ ≫= _); [| done]. intros [= <- <-]. simpl. lia.
    + intros [= <- <-]. simpl. lia.
  - intros [= <- <-]. simpl. lia.
  - intros [= <- <-]. simpl. lia.
  - intros [= <- <-]. simpl. lia.
Qed.

Lemma workers_step_left (s s' : system) :
  Workers.step s s' ->
  Workers.total Workers.steps_left (Workers.threads s') <=
  Workers.total Workers.steps_left (Workers.threads s) - 1.
Proof.
  intros [t (th & m' & th' & Hth & Hts & ->)%workers_step_inv]. simpl.
  rewrite (workers_total_update _ _ t th th' Hth).
  pose proof (workers_thread_step_left _ _ _ _ Hts). lia.
Qed.

Lemma workers_nsteps_left n (s s' : system) :
  nsteps Workers.step n s s' ->
  Workers.total Workers.steps_left (Workers.threads s') + Z.of_nat n <=
  Workers.total Workers.steps_left (Workers.threads s).
Proof.
  induction 1 as [s | n s1 s2 s3 Hstep _ IH]; [lia |].
  pose proof (workers_step_left s1 s2 Hstep). lia.
Qed.

Lemma workers_steps_left_nonneg (th : thread) : 0 <= Workers.steps_left th.
Proof. unfold Workers.steps_left. destruct (Workers.at_point th); lia. Qed.

Lemma workers_start_steps_left (m : hashmap) calls :
  Workers.total Workers.steps_left
    (Workers.threads (Workers.start m calls)) =
  5 * Z.of_nat (length (concat calls)).
Proof.
  unfold Workers.total. simpl.
  induction calls as [| p calls IH]; [done |].
  rewrite !fmap_cons. cbn [foldr concat]. rewrite IH, length_app.
  unfold Workers.steps_left. simpl. lia.
Qed.

(** Termination: from every state of an execution the threads can run to
    the end. *)
Lemma workers_runs_to_end (s : system) (a : hashmap) :
  Workers.simulates s a ->
  exists s', rtc Workers.step s s' /\ Workers.finished s'.
Proof.
  remember (Z.to_nat (Workers.total Workers.steps_left (Workers.threads s)))
    as n eqn:Hn.
  revert s a Hn. induction n as [n IH] using lt_wf_ind. intros s a Hn Hsim.
  destruct (workers_finished_dec s) as [Hfin | Hnot].
  - by exists s.
  - destruct (workers_progress s a Hsim Hnot) as [s1 Hstep].
    pose proof (workers_step_left s s1 Hstep) as Hleft.
    pose proof (workers_total_nonneg Workers.steps_left (Workers.threads s1)
                  workers_steps_left_nonneg) as Hpos.
    pose proof Hstep as [t Hstept].
    destruct (simulates_step s s1 a t Hsim Hstept) as (a1 & Hsim1 & _).
    destruct (IH (Z.to_nat (Workers.total Workers.steps_left
                               (Workers.threads s1)))
                ltac:(lia) s1 a1 eq_refl Hsim1)
      as (s' & Hsteps & Hfin).
    exists s'. split; [by eapply rtc_l | done].
Qed.
End WorkerProgress.

(** ** Concurrent calls of the member functions *)

Section WorkerTheorems.
Context {Key Value : Type} `{EqDecision Key}.

Local Abbreviation chain := (NodeList.t Key Value).
Local Abbreviation hashmap := (Hashmap.t Key Value).
Local Abbreviation thread := (Workers.thread Key Value).
Local Abbreviation system := (Workers.system Key Value).

Lemma reachable_simulates (m0 : hashmap) calls (s : system) :
  wf m0 -> Workers.all_free m0 ->
  rtc Workers.step (Workers.start m0 calls) s ->
  exists a, Workers.simulates s a /\
    rtc Workers.serial_step (Workers.start m0 calls) (Workers.settle s a).
Proof.
  intros Hwf Hfree Hsteps.
  destruct (simulates_start m0 calls Hwf Hfree) as [Hsim0 Hset0].
  destruct (simulates_steps _ s m0 Hsim0 Hsteps) as (a & Hsim & Hser).
  rewrite Hset0 in Hser. by exists a.
Qed.


(** X11. No deadlock, no undefined step, termination. In every state
    that an execution of threads making any calls reaches: the number of
    steps taken is at most five for each call; a thread that cannot take
    a step has finished or is about to lock a stripe mutex that is
    locked (so no step divides by zero, indexes outside an array or
    reads through a dangling reference); unless all threads have
    finished, some thread can take a step; and the threads can run to
    the end from there. *)
Theorem workers_never_stuck (m0 : hashmap) calls n (s : system) :
  wf m0 -> Workers.all_free m0 ->
  nsteps Workers.step n (Workers.start m0 calls) s ->
  Z.of_nat n <= 5 * Z.of_nat (length (concat calls)) /\
  (forall t th,
     Workers.threads s !! t = Some th ->
     Workers.thread_step (Workers.shared s) th = None ->
     Workers.at_point th = Workers.Ready /\
     (Workers.todo th = [] \/
      exists a k rest, Workers.todo th = Workers.Keyed a k :: rest /\
        stripe_mutex (Workers.shared s) k = Some true)) /\
  (~ Workers.finished s -> exists s', Workers.step s s') /\
  (exists s', rtc Workers.step s s' /\ Workers.finished s').
Proof.
  intros Hwf Hfree Hsteps.
  destruct (reachable_simulates m0 calls s Hwf Hfree) as (a & Hsim & _).
  { apply rtc_nsteps. by exists n. }
  split; [| split; [| split]].
  - pose proof (workers_nsteps_left n _ _ Hsteps) as Hleft.
    rewrite workers_start_steps_left in Hleft.
    pose proof (workers_total_nonneg Workers.steps_left (Workers.threads s)
                  workers_steps_left_nonneg).
    lia.
  - intros t th. by apply (workers_waiting s a).
  - by apply (workers_progress s a).
  - by apply (workers_runs_to_end s a).
Qed.

(** A step writes at most the chain of the bucket of the key of the
    call, and leaves the [const] members. *)
Lemma thread_step_table (m m' : hashmap) (th th' : thread) :
  Workers.thread_step m th = Some (m', th') ->
  (forall k, Hashmap.getIndex m' k = Hashmap.getIndex m k) /\
  (Hashmap.mTable m' = Hashmap.mTable m \/
   exists k c', Workers.key_at th = Some k /\
     Hashmap.mTable m' =
     <[Z.to_nat (Hashmap.getIndex m k) := c']> (Hashmap.mTable m)).
Proof.
  unfold Workers.thread_step, Workers.key_at.
  destruct (Workers.at_point th) as
    [| i a0 k | i a0 k c | i u k node | i k v b | i k b | i r].
  - destruct (Workers.todo th) as [| [| | a0 k] rest]; [done | | |].
    + intros [= <- <-]. split; [done | by left].
    + intros [= <- <-]. split; [done | by left].
    + destruct (Hashmap.getMutex _ _) as [i |]; [| done].
      destruct (Hashmap.mMutexes m !! _) as [[|] |]; try done.
      intros [= <- <-]. split; [done | by left].
  - destruct (Hashmap.bucket _ _); [| done]. intros [= <- <-].
    split; [done | by left].
  - destruct a0 as [| | u | v |].
    + intros [= <- <-]. split; [done | by left].
    + intros [= <- <-]. split; [done | by left].
    + intros [= <- <-]. split; [done | by left].
    + destruct (NodeList.insert k v c) as [c' b]. intros [= <- <-].
      split; [done |]. right. by exists k, c'.
    + destruct (NodeList.erase k c) as [c' b]. intros [= <- <-].
      split; [done |]. right. by exists k, c'.
  - destruct u.
    + destruct (_ ≫= _); [| done]. intros [= <- <-]. split; [done | by left].
    + intros [= <- <-]. split; [done | by left].
  - intros [= <- <-]. split; [by destruct b | left; by destruct b].
  - intros [= <- <-]. split; [by destruct b | left; by destruct b].
  - intros [= <- <-]. split; [done | by left].
Qed.

(** A step of another thread leaves the thread that holds a mutex where
    it is, and the chains of the stripe of the mutex as they are. *)
Lemma others_keep_stripe (s s' : system) (a : hashmap) t t' (th : thread) i :
  Workers.simulates s a ->
  Workers.threads s !! t = Some th -> Workers.holds th = Some i ->
  t' <> t -> Workers.step_thread t' s = Some s' ->
  Workers.threads s' !! t = Some th /\
  (forall k, Hashmap.getIndex (Workers.shared s') k =
             Hashmap.getIndex (Workers.shared s) k) /\
  forall k,
    Hashmap.getMutex (Workers.shared s) (Hashmap.getIndex (Workers.shared s) k)
      = Some i ->
    Hashmap.bucket (Workers.shared s') (Hashmap.getIndex (Workers.shared s) k) =
    Hashmap.bucket (Workers.shared s) (Hashmap.getIndex (Workers.shared s) k).
Proof.
  intros [Hcfg _ _ _ _ Hlocks Hpoints _] Hth Hi Hne
    (th1 & m' & th1' & Hth1 & Hts & ->)%workers_step_inv.
  destruct s as [m ths]. simpl in *.
  destruct (thread_step_table m m' th1 th1' Hts) as [Hidx Htbl].
  split; [by rewrite list_lookup_insert_ne |]. split; [done |].
  intros k Hk. unfold Hashmap.bucket.
  destruct Htbl as [-> | (k1 & c' & Hk1 & ->)]; [done |].
  apply list_lookup_insert_ne.
  by apply (other_bucket m a ths t t' th th1 i k k1 Hcfg Hlocks Hth Hth1
              Hne Hi Hk (Hpoints t' th1 Hth1) Hk1).
Qed.

(** X12. The stripe mutexes exclude. In every state that an execution
    reaches: a mutex is locked exactly when some thread is inside a call
    on a key of its stripe; no two threads are inside calls on keys of
    one stripe; and a step of any other thread leaves the chains of all
    buckets of the stripe as they are, for as long as a thread is inside
    its call or keeps the [LockedValue] of a [get]. *)
Theorem mutex_guards_stripe (m0 : hashmap) calls (s : system) :
  wf m0 -> Workers.all_free m0 ->
  rtc Workers.step (Workers.start m0 calls) s ->
  (forall j,
     Hashmap.mMutexes (Workers.shared s) !! j = Some true <->
     exists t th i, Workers.threads s !! t = Some th /\
       Workers.holds th = Some i /\ Z.to_nat i = j) /\
  (forall t1 t2 th1 th2 i,
     Workers.threads s !! t1 = Some th1 ->
     Workers.threads s !! t2 = Some th2 ->
     Workers.holds th1 = Some i -> Workers.holds th2 = Some i -> t1 = t2) /\
  (forall t th i t' s',
     Workers.threads s !! t = Some th -> Workers.holds th = Some i ->
     t' <> t -> Workers.step_thread t' s = Some s' ->
     Workers.threads s' !! t = Some th /\
     forall k,
       Hashmap.getMutex (Workers.shared s)
         (Hashmap.getIndex (Workers.shared s) k) = Some i ->
       Hashmap.bucket (Workers.shared s')
         (Hashmap.getIndex (Workers.shared s) k) =
       Hashmap.bucket (Workers.shared s)
         (Hashmap.getIndex (Workers.shared s) k)).
Proof.
  intros Hwf Hfree Hsteps.
  destruct (reachable_simulates m0 calls s Hwf Hfree Hsteps)
    as (a & Hsim & _).
  pose proof (Workers.sim_locks _ _ Hsim) as [Hheld Hexcl Howner].
  split; [| split].
  - intros j. split; [apply Howner |].
    intros (t & th & i & Hth & Hi & <-). by apply (Hheld t th i).
  - exact Hexcl.
  - intros t th i t' s' Hth Hi Hne Hstep.
    destruct (others_keep_stripe s s' a t t' th i Hsim Hth Hi Hne Hstep)
      as (Hth' & _ & Hkeep).
    by split.
Qed.

(** X13. The guarantee of [get]: the value exists in the map as long as
    the lock is locked. When a thread has the [LockedValue] of a
    [get(key)], the key is in the map and the reference is to its
    value; and whatever steps the other threads take, the thread keeps
    the [LockedValue], the stripe mutex stays locked, the key stays in
    the map with the same value, and the reference stays valid. *)
Theorem locked_value_stays (m0 : hashmap) calls (s : system) t (th : thread)
    i u k node :
  wf m0 -> Workers.all_free m0 ->
  rtc Workers.step (Workers.start m0 calls) s ->
  Workers.threads s !! t = Some th ->
  Workers.at_point th = Workers.Holding i u k node ->
  exists v, forall s',
    rtc (Workers.step_of_others t) s s' ->
    Workers.threads s' !! t = Some th /\
    stripe_mutex (Workers.shared s') k = Some true /\
    stored (Workers.shared s') k = Some v /\
    NodeList.value <$>
      (Hashmap.bucket (Workers.shared s')
         (Hashmap.getIndex (Workers.shared s') k) ≫= (.!! node)) = Some v.
Proof.
  intros Hwf Hfree Hsteps Hth Hat.
  destruct (reachable_simulates m0 calls s Hwf Hfree Hsteps)
    as (a & Hsim & _).
  assert (Workers.holds th = Some i) as Hi
    by (unfold Workers.holds; by rewrite Hat).
  pose proof (Workers.sim_points _ _ Hsim t th Hth) as Hpoint.
  unfold Workers.point_ok in Hpoint. rewrite Hat in Hpoint.
  destruct Hpoint as (Hk & c & Hc & Hfind).
  destruct (find_lookup k c node Hfind) as (n & Hn & _).
  exists (NodeList.value n). intros s' Hothers.
  assert (exists a',
            Workers.simulates s' a' /\
            Workers.threads s' !! t = Some th /\
            Hashmap.getIndex (Workers.shared s') k =
              Hashmap.getIndex (Workers.shared s) k /\
            Hashmap.bucket (Workers.shared s')
              (Hashmap.getIndex (Workers.shared s') k) = Some c)
    as (a' & Hsim' & Hth' & Hidx' & Hc').
  { clear Hsteps. revert a Hsim Hth Hk Hc.
    induction Hothers as [s | s1 s2 s3 (t' & Hne & Hstep) _ IH];
      intros a Hsim Hth Hk Hc.
    - by exists a.
    - destruct (others_keep_stripe s1 s2 a t t' th i Hsim Hth Hi Hne Hstep)
        as (Hth2 & Hidx2 & Hkeep).
      destruct (simulates_step s1 s2 a t' Hsim Hstep) as (a2 & Hsim2 & _).
      pose proof (Workers.sim_points _ _ Hsim2 t th Hth2) as Hpoint2.
      unfold Workers.point_ok in Hpoint2. rewrite Hat in Hpoint2.
      destruct Hpoint2 as (Hk2 & _).
      assert (Hashmap.bucket (Workers.shared s2)
                (Hashmap.getIndex (Workers.shared s2) k) = Some c) as Hc2
        by (by rewrite Hidx2, (Hkeep k Hk)).
      destruct (IH a2 Hsim2 Hth2 Hk2 Hc2) as (a3 & ? & ? & Hidx3 & ?).
      exists a3. split; [done |]. split; [done |].
      split; [by rewrite Hidx3, Hidx2 | done]. }
  pose proof (Workers.sim_points _ _ Hsim' t th Hth') as Hpoint'.
  unfold Workers.point_ok in Hpoint'. rewrite Hat in Hpoint'.
  destruct Hpoint' as (Hk' & _).
  destruct (Workers.locks_held _ _ (Workers.sim_locks _ _ Hsim') t th i
              Hth' Hi) as [_ Hlocked].
  split; [done |]. split; [| split].
  - unfold stripe_mutex. by rewrite Hk'.
  - rewrite (stored_bucket _ k c Hc').
    by apply (find_chain_value k c node n).
  - rewrite Hc'. simpl. by rewrite Hn.
Qed.
End WorkerTheorems.

(** ** Whole calls in terms of the stored values *)

Section WorkerOutcomes.
Context {Key Value : Type} `{EqDecision Key}.

Local Abbreviation chain := (NodeList.t Key Value).
Local Abbreviation hashmap := (Hashmap.t Key Value).
Local Abbreviation thread := (Workers.thread Key Value).
Local Abbreviation system := (Workers.system Key Value).

(** The result of a whole call, the values it leaves and the counter it
    leaves, from the values stored before. *)
Lemma perform_spec o (m m' : hashmap) r :
  wf m -> Workers.all_free m -> Workers.perform o m = Some (r, m') ->
  r = match o with
      | Workers.Capacity => Workers.Num (Hashmap.mCapacity m)
      | Workers.Size => Workers.Num (Hashmap.mSize m)
      | Workers.Keyed Workers.Find k =>
          Workers.Bool (bool_decide (is_Some (stored m k)))
      | Workers.Keyed Workers.GetCopy k =>
          match stored m k with
          | Some v => Workers.Val v
          | None => Workers.Thrown KeyNotFound
          end
      | Workers.Keyed (Workers.Get u) k =>
          match stored m k, u with
          | Some v, Workers.ReadFirst => Workers.Val v
          | Some _, Workers.CallSize => Workers.Num (Hashmap.mSize m)
          | None, _ => Workers.Thrown KeyNotFound
          end
      | Workers.Keyed (Workers.Insert _) _ => Workers.Void
      | Workers.Keyed Workers.Erase _ => Workers.Void
      end /\
  (forall k',
     stored m' k' =
     match o with
     | Workers.Keyed (Workers.Insert v) k =>
         if decide (k = k') then Some v else stored m k'
     | Workers.Keyed Workers.Erase k =>
         if decide (k = k') then None else stored m k'
     | _ => stored m k'
     end) /\
  Hashmap.mSize m' =
    match o with
    | Workers.Keyed (Workers.Insert v) k =>
        if stored m k is Some _ then Hashmap.mSize m
        else wrap (Hashmap.mSize m + 1)
    | Workers.Keyed Workers.Erase k =>
        if stored m k is Some _ then wrap (Hashmap.mSize m - 1)
        else Hashmap.mSize m
    | _ => Hashmap.mSize m
    end.
Proof.
  intros [Hcfg Hinv _] Hfree.
  assert (forall k, stripe_mutex m k = Some false) as Hidle
    by (intros k; by apply all_free_stripe).
  destruct o as [| | [| | u | v |] k]; unfold Workers.perform.
  - by intros [= <- <-].
  - by intros [= <- <-].
  - rewrite (find_stored k m Hcfg (Hidle k)). simpl. by intros [= <- <-].
  - rewrite (getCopy_stored k m Hcfg (Hidle k)).
    destruct (stored m k); simpl; by intros [= <- <-].
  - destruct (get_stored k m Hcfg (Hidle k)) as (i & Hi & ->).
    pose proof (Hidle k) as Hfreei. unfold stripe_mutex in Hfreei.
    rewrite Hi in Hfreei. simpl in Hfreei.
    destruct (stored m k); simpl.
    + rewrite (unlock_set_mutex m i Hfreei). intros [= <- <-].
      by destruct u.
    + by intros [= <- <-].
  - destruct (insert_spec k v m Hcfg (Hidle k))
      as (m1 & -> & _ & Hst & Hsz & _).
    simpl. by intros [= <- <-].
  - destruct (erase_spec k m Hcfg Hinv (Hidle k))
      as (m1 & -> & _ & Hst & Hsz & _).
    simpl. by intros [= <- <-].
Qed.

(** One whole call: the thread, the call, and what is left to do. *)
Lemma serial_step_inv (s s' : system) :
  Workers.serial_step s s' ->
  exists t th o rest r,
    Workers.threads s !! t = Some th /\
    Workers.at_point th = Workers.Ready /\
    Workers.todo th = o :: rest /\
    Workers.perform o (Workers.shared s) = Some (r, Workers.shared s') /\
    Workers.threads s' =
      <[t:={| Workers.at_point := Workers.Ready; Workers.todo := rest;
              Workers.results := Workers.results th ++ [r] |}]>
        (Workers.threads s).
Proof.
  intros [t Hcall]. unfold Workers.call_thread in Hcall.
  destruct (Workers.threads s !! t) as [th |] eqn:Hth; [| done].
  destruct (Workers.at_point th) eqn:Hat; try done.
  destruct (Workers.todo th) as [| o rest] eqn:Htd; [done |].
  destruct (Workers.perform o (Workers.shared s)) as [[r m'] |] eqn:Hperf;
    [| done].
  injection Hcall as <-. by exists t, th, o, rest, r.
Qed.

Lemma serial_step_pending (s s' : system) t (th : thread) o rest th' :
  Workers.threads s !! t = Some th -> Workers.todo th = o :: rest ->
  Workers.todo th' = rest ->
  Workers.threads s' = <[t:=th']> (Workers.threads s) ->
  concat (Workers.todo <$> Workers.threads s) ≡ₚ
  o :: concat (Workers.todo <$> Workers.threads s').
Proof.
  intros Hth Htd Htd' ->. rewrite list_fmap_insert, Htd'.
  apply concat_insert_pop. by rewrite list_lookup_fmap, Hth, <- Htd.
Qed.

Lemma finished_pending (s : system) :
  Workers.finished s -> concat (Workers.todo <$> Workers.threads s) = [].
Proof.
  intros Hfin. assert (Forall (fun th => Workers.todo th = [])
                         (Workers.threads s)) as Hall.
  { apply Forall_lookup. intros t th Hth. by destruct (Hfin t th Hth). }
  induction Hall as [| th ths Htd _ IH]; [done |].
  rewrite fmap_cons. simpl. by rewrite Htd, IH.
Qed.

Lemma start_pending_calls (m : hashmap) calls :
  concat (Workers.todo <$> Workers.threads (Workers.start m calls)) =
  concat calls.
Proof.
  simpl. rewrite <- list_fmap_compose. f_equal.
  induction calls as [| p calls IH]; [done |].
  rewrite fmap_cons. by rewrite IH.
Qed.

(** With no [insert] among the calls still to be made, a key that is
    not in the map, or that some call still erases, is not in the map
    at the end. *)
Lemma erasers_serial (s s' : system) :
  rtc Workers.serial_step s s' ->
  wf (Workers.shared s) -> Workers.all_free (Workers.shared s) ->
  (forall o, o ∈ concat (Workers.todo <$> Workers.threads s) ->
     forall k v, o <> Workers.Keyed (Workers.Insert v) k) ->
  Workers.finished s' ->
  forall k,
    stored (Workers.shared s) k = None \/
    Workers.Keyed Workers.Erase k ∈
      concat (Workers.todo <$> Workers.threads s) ->
    stored (Workers.shared s') k = None.
Proof.
  induction 1 as [s | s1 s2 s3 Hcall _ IH]; intros Hwf Hfree Hnoins Hfin k.
  - rewrite (finished_pending s Hfin). by intros [? | ?%elem_of_nil].
  - destruct (serial_step_inv s1 s2 Hcall)
      as (t & th & o & rest & r & Hth & _ & Htd & Hperf & Hths).
    pose proof (serial_step_pending s1 s2 t th o rest
                  {| Workers.at_point := Workers.Ready; Workers.todo := rest;
                     Workers.results := Workers.results th ++ [r] |}
                  Hth Htd eq_refl Hths) as Hperm.
    destruct (perform_wf o _ _ r Hwf Hfree Hperf) as (Hwf2 & _ & Hfree2).
    destruct (perform_spec o _ _ r Hwf Hfree Hperf) as (_ & Hst & _).
    assert (o ∈ concat (Workers.todo <$> Workers.threads s1)) as Ho
      by (rewrite Hperm; apply list_elem_of_here).
    intros Hk. apply (IH Hwf2 Hfree2); [| done |].
    + intros o' Ho'. apply Hnoins. rewrite Hperm.
      by apply list_elem_of_further.
    + rewrite (Hst k).
      destruct Hk as [Hnone | Hk].
      * left. destruct o as [| | [| | u | v |] k0]; try done.
        -- by destruct (Hnoins _ Ho k0 v).
        -- by destruct (decide (k0 = k)).
      * rewrite Hperm in Hk. apply elem_of_cons in Hk as [<- | Hk].
        -- left. by rewrite decide_True.
        -- by right.
Qed.

(** A container in which no key has a value has no node. *)
Lemma empty_entries (m : hashmap) :
  config_ok m -> chain_inv m -> (forall k, stored m k = None) ->
  entries m = 0.
Proof.
  intros Hcfg Hinv Hnone.
  assert (forall i c, Hashmap.mTable m !! i = Some c -> c = []) as Hnil.
  { intros i [| n c] Hc; [done |]. exfalso.
    assert (contains m (NodeList.key n)) as Hin.
    { apply elem_of_keys_concat. exists i, (n :: c). split; [done |].
      apply list_elem_of_here. }
    apply (contains_stored m _ Hcfg Hinv) in Hin as [v Hv].
    by rewrite Hnone in Hv. }
  unfold entries. revert Hnil. generalize (Hashmap.mTable m).
  intros tbl Hnil. induction tbl as [| c tbl IH]; [done |].
  rewrite (Hnil 0%nat c eq_refl). simpl. apply IH.
  intros i c'. apply (Hnil (S i)).
Qed.
End WorkerOutcomes.

(** ** The concurrent tests of [erase] and [get] *)

Section WorkerTests.
Context {Key Value : Type} `{EqDecision Key}.

Local Abbreviation chain := (NodeList.t Key Value).
Local Abbreviation hashmap := (Hashmap.t Key Value).
Local Abbreviation thread := (Workers.thread Key Value).
Local Abbreviation system := (Workers.system Key Value).

(** A finished execution is a sequence of whole calls, and leaves the
    container well-formed with its mutexes free. *)
Lemma finished_serial (m0 : hashmap) calls (s : system) :
  wf m0 -> Workers.all_free m0 ->
  rtc Workers.step (Workers.start m0 calls) s -> Workers.finished s ->
  rtc Workers.serial_step (Workers.start m0 calls) s /\
  wf (Workers.shared s) /\ Workers.all_free (Workers.shared s).
Proof.
  intros Hwf Hfree Hsteps Hfin.
  destruct (reachable_simulates m0 calls s Hwf Hfree Hsteps)
    as (a & Hsim & Hser).
  destruct (simulates_finished s a Hsim Hfin) as [-> Hset].
  rewrite Hset in Hser. split; [done |].
  split; [exact (Workers.sim_wf _ _ Hsim) | exact (Workers.sim_free _ _ Hsim)].
Qed.

(** When all threads have finished no call is made. *)
Lemma serial_done (s s' : system) :
  Workers.finished s -> rtc Workers.serial_step s s' -> s' = s.
Proof.
  intros Hfin [<- | (s1 & Hcall & _)]%rtc_inv; [done |].
  destruct (serial_step_inv s s1 Hcall)
    as (t & th & o & rest & r & Hth & _ & Htd & _).
  destruct (Hfin t th Hth) as [_ Hnil]. congruence.
Qed.

(** X14. Concurrent erase completeness, as the tests of concurrent
    [erase] assert it. Threads make any calls but [insert] on a
    well-formed container with no mutex locked, their steps interleaved
    in any order, for any capacity, concurrency level and hasher. When
    all have finished, [find] returns [false] for every key that some
    thread erased and for every key that was not in the map; and if
    every key of the map was erased by some thread, [size()] is 0. *)
Theorem concurrent_erase_complete (m0 : hashmap) calls (s : system) :
  wf m0 -> Workers.all_free m0 ->
  (forall o, o ∈ concat calls ->
     forall k v, o <> Workers.Keyed (Workers.Insert v) k) ->
  rtc Workers.step (Workers.start m0 calls) s -> Workers.finished s ->
  (forall k,
     ~ contains m0 k \/ Workers.Keyed Workers.Erase k ∈ concat calls ->
     Hashmap.find k (Workers.shared s) =
     Hashmap.Returns false (Workers.shared s)) /\
  ((forall k, contains m0 k ->
      Workers.Keyed Workers.Erase k ∈ concat calls) ->
   Hashmap.size (Workers.shared s) = 0).
Proof.
  intros Hwf Hfree Hnoins Hsteps Hfin.
  destruct (finished_serial m0 calls s Hwf Hfree Hsteps Hfin)
    as (Hser & Hwfs & Hfrees).
  pose proof Hwf as [Hcfg Hinv _]. pose proof Hwfs as [Hcfgs Hinvs Hsize].
  assert (forall k,
            stored m0 k = None \/
            Workers.Keyed Workers.Erase k ∈ concat calls ->
            stored (Workers.shared s) k = None) as Hgone.
  { intros k Hk.
    apply (erasers_serial _ s Hser Hwf Hfree); [| done |];
      by rewrite start_pending_calls. }
  split.
  - intros k Hk.
    rewrite (find_stored k _ Hcfgs (all_free_stripe _ k Hcfgs Hfrees)).
    rewrite Hgone; [done |].
    destruct Hk as [Hnot | Hk]; [left | by right].
    by apply (absent_stored m0 k Hcfg Hinv).
  - intros Hall. unfold Hashmap.size. rewrite Hsize.
    rewrite (empty_entries _ Hcfgs Hinvs); [done |].
    intros k. apply Hgone.
    destruct (stored m0 k) as [v |] eqn:Hv; [right | by left].
    apply Hall, (contains_stored m0 k Hcfg Hinv). by exists v.
Qed.

(** X15. [get] against [erase] of the same key, as the test of the two
    asserts it. One thread calls [get(key)] and, keeping the
    [LockedValue], reads the value or calls [size()]; another calls
    [erase(key)]; the key is in the map. In every execution, either the
    first thread gets the value the key had, or the [size()] the
    container had before the [erase] (1 in the test), or its [get]
    throws; and at the end the key is gone and [size()] is one less. *)
Theorem get_against_erase (m0 : hashmap) k v u (s : system) :
  wf m0 -> Workers.all_free m0 -> stored m0 k = Some v ->
  rtc Workers.step
    (Workers.start m0
       [[Workers.Keyed (Workers.Get u) k]; [Workers.Keyed Workers.Erase k]])
    s ->
  Workers.finished s ->
  exists r,
    Workers.threads s =
      [ {| Workers.at_point := Workers.Ready; Workers.todo := [];
           Workers.results := [r] |};
        {| Workers.at_point := Workers.Ready; Workers.todo := [];
           Workers.results := [Workers.Void] |} ] /\
    (r = match u with
         | Workers.ReadFirst => Workers.Val v
         | Workers.CallSize => Workers.Num (Hashmap.size m0)
         end \/
     r = Workers.Thrown KeyNotFound) /\
    Hashmap.size (Workers.shared s) = wrap (Hashmap.size m0 - 1) /\
    Hashmap.find k (Workers.shared s) =
      Hashmap.Returns false (Workers.shared s).
Proof.
  intros Hwf Hfree Hv Hsteps Hfin.
  destruct (finished_serial m0 _ s Hwf Hfree Hsteps Hfin)
    as (Hser & [Hcfgs _ _] & Hfrees).
  rewrite (find_stored k _ Hcfgs (all_free_stripe _ k Hcfgs Hfrees)).
  clear Hsteps Hcfgs Hfrees.
  assert (forall r r' (m : hashmap) s',
            rtc Workers.serial_step
              {| Workers.shared := m;
                 Workers.threads :=
                   [ {| Workers.at_point := Workers.Ready; Workers.todo := [];
                        Workers.results := [r] |};
                     {| Workers.at_point := Workers.Ready; Workers.todo := [];
                        Workers.results := [r'] |} ] |} s' ->
            s' = {| Workers.shared := m;
                    Workers.threads :=
                      [ {| Workers.at_point := Workers.Ready;
                           Workers.todo := []; Workers.results := [r] |};
                        {| Workers.at_point := Workers.Ready;
                           Workers.todo := []; Workers.results := [r'] |} ] |})
    as Hend.
  { intros r r' m s'. apply serial_done.
    intros [| [| t]] th; simpl; [| | done]; by intros [= <-]. }
  apply rtc_inv in Hser as [<- | (s1 & Hcall1 & Hser)].
  { by destruct (Hfin 0%nat _ eq_refl). }
  destruct (serial_step_inv _ s1 Hcall1)
    as (t1 & th1 & o1 & rest1 & r1 & Hth1 & _ & Htd1 & Hperf1 & Hths1).
  destruct s1 as [m1 ths1]. simpl in Hperf1, Hths1. subst ths1.
  destruct (perform_wf o1 _ _ r1 Hwf Hfree Hperf1) as (Hwf1 & _ & Hfree1).
  destruct (perform_spec o1 _ _ r1 Hwf Hfree Hperf1) as (Hr1 & Hst1 & Hsz1).
  destruct t1 as [| [| t1]]; simpl in Hth1; [| | done];
    injection Hth1 as <-; simpl in Htd1; injection Htd1 as <- <-;
    simpl in Hser.
  - (* get, then erase *)
    apply rtc_inv in Hser as [<- | (s2 & Hcall2 & Hser)].
    { by destruct (Hfin 1%nat _ eq_refl). }
    destruct (serial_step_inv _ s2 Hcall2)
      as (t2 & th2 & o2 & rest2 & r2 & Hth2 & _ & Htd2 & Hperf2 & Hths2).
    destruct s2 as [m2 ths2]. simpl in Hperf2, Hths2, Hth2. subst ths2.
    destruct (perform_spec o2 _ _ r2 Hwf1 Hfree1 Hperf2)
      as (Hr2 & Hst2 & Hsz2).
    destruct t2 as [| [| t2]]; simpl in Hth2; [| | done];
      injection Hth2 as <-; simpl in Htd2; [done |].
    injection Htd2 as <- <-. simpl in Hser.
    rewrite (Hend _ _ _ _ Hser). simpl.
    rewrite Hv in Hr1. rewrite (Hst1 k), Hv in Hsz2.
    exists r1. rewrite Hr2. split; [done |].
    split; [left; by destruct u |].
    rewrite (Hst2 k), decide_True by done.
    split; [| done]. unfold Hashmap.size. by rewrite Hsz2, Hsz1.
  - (* erase, then get *)
    apply rtc_inv in Hser as [<- | (s2 & Hcall2 & Hser)].
    { by destruct (Hfin 0%nat _ eq_refl). }
    destruct (serial_step_inv _ s2 Hcall2)
      as (t2 & th2 & o2 & rest2 & r2 & Hth2 & _ & Htd2 & Hperf2 & Hths2).
    destruct s2 as [m2 ths2]. simpl in Hperf2, Hths2, Hth2. subst ths2.
    destruct (perform_spec o2 _ _ r2 Hwf1 Hfree1 Hperf2)
      as (Hr2 & Hst2 & Hsz2).
    destruct t2 as [| [| t2]]; simpl in Hth2; [| | done];
      injection Hth2 as <-; simpl in Htd2; [| done].
    injection Htd2 as <- <-. simpl in Hser.
    rewrite (Hend _ _ _ _ Hser). simpl.
    rewrite Hv in Hsz1. rewrite (Hst1 k), decide_True in Hr2 by done.
    exists r2. rewrite Hr1. split; [done |]. split; [by right |].
    rewrite (Hst2 k), (Hst1 k), decide_True by done.
    split; [| done]. unfold Hashmap.size. by rewrite Hsz2, Hsz1.
Qed.
End WorkerTests.

(** ** Concurrent inserts among readers *)

Section WorkerInserts.
Context {Key Value : Type} `{EqDecision Key}.

Local Abbreviation hashmap := (Hashmap.t Key Value).
Local Abbreviation system := (Workers.system Key Value).

(** With no [erase] among the calls still to be made, and one value for
    each key they insert: a key that has its value, or whose [insert] is
    still to be made, has the value at the end. *)
Lemma inserters_serial (s s' : system) k v :
  rtc Workers.serial_step s s' ->
  wf (Workers.shared s) -> Workers.all_free (Workers.shared s) ->
  (forall o, o ∈ concat (Workers.todo <$> Workers.threads s) ->
     forall k', o <> Workers.Keyed Workers.Erase k') ->
  (forall v', Workers.Keyed (Workers.Insert v') k ∈
                concat (Workers.todo <$> Workers.threads s) -> v' = v) ->
  Workers.finished s' ->
  stored (Workers.shared s) k = Some v \/
  Workers.Keyed (Workers.Insert v) k ∈
    concat (Workers.todo <$> Workers.threads s) ->
  stored (Workers.shared s') k = Some v.
Proof.
  induction 1 as [s | s1 s2 s3 Hcall _ IH];
    intros Hwf Hfree Hnoerase Hone Hfin.
  - rewrite (finished_pending s Hfin). by intros [? | ?%elem_of_nil].
  - destruct (serial_step_inv s1 s2 Hcall)
      as (t & th & o & rest & r & Hth & _ & Htd & Hperf & Hths).
    pose proof (serial_step_pending s1 s2 t th o rest
                  {| Workers.at_point := Workers.Ready; Workers.todo := rest;
                     Workers.results := Workers.results th ++ [r] |}
                  Hth Htd eq_refl Hths) as Hperm.
    destruct (perform_wf o _ _ r Hwf Hfree Hperf) as (Hwf2 & _ & Hfree2).
    destruct (perform_spec o _ _ r Hwf Hfree Hperf) as (_ & Hst & _).
    assert (o ∈ concat (Workers.todo <$> Workers.threads s1)) as Ho
      by (rewrite Hperm; apply list_elem_of_here).
    intros Hk. apply (IH Hwf2 Hfree2); [| | done |].
    + intros o' Ho'. apply Hnoerase. rewrite Hperm.
      by apply list_elem_of_further.
    + intros v' Hv'. apply Hone. rewrite Hperm.
      by apply list_elem_of_further.
    + rewrite (Hst k).
      destruct o as [| | [| | u | v0 |] k0];
        try (destruct Hk as [Hk | Hk]; [by left | right];
             rewrite Hperm in Hk;
             by apply elem_of_cons in Hk as [? | ?]).
      * destruct (decide (k0 = k)) as [-> | Hne].
        -- left. f_equal. by apply Hone.
        -- destruct Hk as [Hk | Hk]; [by left | right].
           rewrite Hperm in Hk. apply elem_of_cons in Hk as [Heq | ?];
             [congruence | done].
      * by destruct (Hnoerase _ Ho k0).
Qed.

(** A key that no call still to be made inserts or erases keeps what is
    stored for it. *)
Lemma bystanders_serial (s s' : system) k :
  rtc Workers.serial_step s s' ->
  wf (Workers.shared s) -> Workers.all_free (Workers.shared s) ->
  (forall o, o ∈ concat (Workers.todo <$> Workers.threads s) ->
     o <> Workers.Keyed Workers.Erase k /\
     forall v, o <> Workers.Keyed (Workers.Insert v) k) ->
  stored (Workers.shared s') k = stored (Workers.shared s) k.
Proof.
  induction 1 as [s | s1 s2 s3 Hcall _ IH]; intros Hwf Hfree Hnone; [done |].
  destruct (serial_step_inv s1 s2 Hcall)
    as (t & th & o & rest & r & Hth & _ & Htd & Hperf & Hths).
  pose proof (serial_step_pending s1 s2 t th o rest
                {| Workers.at_point := Workers.Ready; Workers.todo := rest;
                   Workers.results := Workers.results th ++ [r] |}
                Hth Htd eq_refl Hths) as Hperm.
  destruct (perform_wf o _ _ r Hwf Hfree Hperf) as (Hwf2 & _ & Hfree2).
  destruct (perform_spec o _ _ r Hwf Hfree Hperf) as (_ & Hst & _).
  assert (o ∈ concat (Workers.todo <$> Workers.threads s1)) as Ho
    by (rewrite Hperm; apply list_elem_of_here).
  rewrite (IH Hwf2 Hfree2), (Hst k).
  - destruct (Hnone o Ho) as [Hne Hni].
    destruct o as [| | [| | u | v0 |] k0]; try done.
    + destruct (decide (k0 = k)) as [-> | ?]; [by destruct (Hni v0) | done].
    + destruct (decide (k0 = k)) as [-> | ?]; [by destruct Hne | done].
  - intros o' Ho'. apply Hnone. rewrite Hperm.
    by apply list_elem_of_further.
Qed.

(** X16. Concurrent inserts among readers. Threads make any calls but
    [erase], each key inserted with one value, on a well-formed container
    with no mutex locked, which may hold keys already; the steps
    interleave in any order, for any capacity, concurrency level and
    hasher. When all threads have finished, [getCopy] returns for every
    inserted key the value it was inserted with, and every other key has
    the value it had, or none as before. *)
Theorem concurrent_insert_among_readers (m0 : hashmap) calls (s : system) :
  wf m0 -> Workers.all_free m0 ->
  (forall o, o ∈ concat calls -> forall k, o <> Workers.Keyed Workers.Erase k) ->
  (forall k v v',
     Workers.Keyed (Workers.Insert v) k ∈ concat calls ->
     Workers.Keyed (Workers.Insert v') k ∈ concat calls -> v = v') ->
  rtc Workers.step (Workers.start m0 calls) s -> Workers.finished s ->
  (forall k v,
     Workers.Keyed (Workers.Insert v) k ∈ concat calls ->
     Hashmap.getCopy k (Workers.shared s) =
     Hashmap.Returns v (Workers.shared s)) /\
  (forall k,
     (forall v, Workers.Keyed (Workers.Insert v) k ∉ concat calls) ->
     Hashmap.getCopy k (Workers.shared s) =
     match stored m0 k with
     | Some v => Hashmap.Returns v (Workers.shared s)
     | None => Hashmap.Throws KeyNotFound (Workers.shared s)
     end).
Proof.
  intros Hwf Hfree Hnoerase Hone Hsteps Hfin.
  destruct (finished_serial m0 calls s Hwf Hfree Hsteps Hfin)
    as (Hser & [Hcfgs _ _] & Hfrees).
  split.
  - intros k v Hkv.
    rewrite (getCopy_stored k _ Hcfgs (all_free_stripe _ k Hcfgs Hfrees)).
    rewrite (inserters_serial _ s k v Hser Hwf Hfree); try done;
      rewrite start_pending_calls; try done.
    + intros v' Hv'. by apply (Hone k).
    + by right.
  - intros k Hk.
    rewrite (getCopy_stored k _ Hcfgs (all_free_stripe _ k Hcfgs Hfrees)).
    rewrite (bystanders_serial _ s k Hser Hwf Hfree); [done |].
    rewrite start_pending_calls. intros o Ho. split.
    + apply (Hnoerase o Ho).
    + intros v ->. by apply (Hk v).
Qed.
End WorkerInserts.

(** ** The concurrent properties on example executions *)

Lemma schedule_steps {Key Value : Type} `{EqDecision Key} ts
    (s s' : Workers.system Key Value) :
  Workers.schedule ts s = Some s' -> nsteps Workers.step (length ts) s s'.
Proof.
  revert s. induction ts as [| t ts IH]; intros s; simpl.
  - intros [= <-]. constructor.
  - destruct (Workers.step_thread t s) as [s1 |] eqn:Hstep; [| done].
    simpl. intros Hrest. apply (nsteps_l _ _ _ s1); [by exists t |].
    by apply IH.
Qed.

Lemma schedule_reaches {Key Value : Type} `{EqDecision Key} ts
    (s s' : Workers.system Key Value) :
  Workers.schedule ts s = Some s' -> rtc Workers.step s s'.
Proof. intros Hs. apply rtc_nsteps. eexists. by apply schedule_steps. Qed.

Lemma example_one_all_free : Workers.all_free Example.one.
Proof.
  intros j Hj. by apply (lookup_replicate 10 false true j) in Hj as [? _].
Qed.

Lemma two_finished {Key Value : Type} (m : Hashmap.t Key Value) rs1 rs2 :
  Workers.finished
    {| Workers.shared := m;
       Workers.threads :=
         [ {| Workers.at_point := Workers.Ready; Workers.todo := [];
              Workers.results := rs1 |};
           {| Workers.at_point := Workers.Ready; Workers.todo := [];
              Workers.results := rs2 |} ] |}.
Proof. intros [| [| t]] th; simpl; [| | done]; by intros [= <-]. Qed.

Lemma scenario_mixed_run :
  Workers.schedule Scenario.turns (Workers.start Example.one Scenario.mixed) =
  Some Scenario.mixed_end.
Proof. reflexivity. Qed.

Lemma scenario_mixed_inside :
  Workers.schedule [0; 1; 0; 1]%nat
    (Workers.start Example.one Scenario.mixed) =
  Some Scenario.mixed_inside.
Proof. reflexivity. Qed.

Lemma scenario_holding :
  Workers.schedule [0; 0; 0]%nat
    (Workers.start Example.one Scenario.getter) =
  Some Scenario.holding.
Proof. reflexivity. Qed.

Lemma scenario_erasers_run :
  Workers.schedule [0; 0; 0; 0; 0; 1; 1; 1; 1]%nat
    (Workers.start Example.one Scenario.erasers) =
  Some Scenario.erasers_end.
Proof. reflexivity. Qed.

Lemma scenario_get_erase_run :
  Workers.schedule [0; 0; 0; 0; 0; 1; 1; 1; 1; 1]%nat
    (Workers.start Example.one Scenario.get_erase) =
  Some Scenario.get_erase_end.
Proof. reflexivity. Qed.


(** The run of fifteen steps is within the bound of twenty. *)
Lemma workers_never_stuck_witness :
  15 <= 5 * Z.of_nat (length (concat Scenario.mixed)) /\
  exists s', rtc Workers.step Scenario.mixed_end s' /\ Workers.finished s'.
Proof.
  destruct (workers_never_stuck Example.one Scenario.mixed _
              Scenario.mixed_end example_one_wf example_one_all_free
              (schedule_steps _ _ _ scenario_mixed_run))
    as (Hbound & _ & _ & Hend).
  split; [exact Hbound | exact Hend].
Defined.

(** With both threads inside their calls, mutex 2 is locked and held by
    one thread. *)
Lemma mutex_guards_stripe_witness :
  Hashmap.mMutexes (Workers.shared Scenario.mixed_inside) !! 2%nat =
    Some true <->
  exists t th i, Workers.threads Scenario.mixed_inside !! t = Some th /\
    Workers.holds th = Some i /\ Z.to_nat i = 2%nat.
Proof.
  exact (proj1 (mutex_guards_stripe Example.one Scenario.mixed
                  Scenario.mixed_inside example_one_wf example_one_all_free
                  (schedule_reaches _ _ _ scenario_mixed_inside)) 2%nat).
Defined.

(** The thread that holds the [LockedValue] of [get(1)] keeps the value
    while the other thread inserts. *)
Lemma locked_value_stays_witness :
  exists v, forall s',
    rtc (Workers.step_of_others 0) Scenario.holding s' ->
    Workers.threads s' !! 0%nat =
      Some {| Workers.at_point := Workers.Holding 1 Workers.ReadFirst 1 0;
              Workers.todo := []; Workers.results := [] |} /\
    stripe_mutex (Workers.shared s') 1 = Some true /\
    stored (Workers.shared s') 1 = Some v /\
    NodeList.value <$>
      (Hashmap.bucket (Workers.shared s')
         (Hashmap.getIndex (Workers.shared s') 1) ≫= (.!! 0%nat)) = Some v.
Proof.
  exact (locked_value_stays Example.one Scenario.getter Scenario.holding
           0%nat _ 1 Workers.ReadFirst 1 0%nat
           example_one_wf example_one_all_free
           (schedule_reaches _ _ _ scenario_holding) eq_refl eq_refl).
Defined.

(** After the eraser and the finder key 1 is gone and the size is 0. *)
Lemma concurrent_erase_complete_witness :
  Hashmap.size (Workers.shared Scenario.erasers_end) = 0.
Proof.
  apply (concurrent_erase_complete Example.one Scenario.erasers
           Scenario.erasers_end example_one_wf example_one_all_free).
  - intros o [-> | [-> | []%elem_of_nil]%elem_of_cons]%elem_of_cons;
      discriminate.
  - exact (schedule_reaches _ _ _ scenario_erasers_run).
  - apply two_finished.
  - intros k Hk. unfold contains in Hk. simpl in Hk.
    apply list_elem_of_singleton in Hk as ->. apply list_elem_of_here.
Defined.

(** The thread that got the [LockedValue] first read the size 1. *)
Lemma get_against_erase_witness :
  exists r,
    Workers.threads Scenario.get_erase_end =
      [ {| Workers.at_point := Workers.Ready; Workers.todo := [];
           Workers.results := [r] |};
        {| Workers.at_point := Workers.Ready; Workers.todo := [];
           Workers.results := [Workers.Void] |} ] /\
    (r = Workers.Num (Hashmap.size Example.one) \/
     r = Workers.Thrown KeyNotFound) /\
    Hashmap.size (Workers.shared Scenario.get_erase_end) =
      wrap (Hashmap.size Example.one - 1) /\
    Hashmap.find 1 (Workers.shared Scenario.get_erase_end) =
      Hashmap.Returns false (Workers.shared Scenario.get_erase_end).
Proof.
  exact (get_against_erase Example.one 1 1 Workers.CallSize
           Scenario.get_erase_end example_one_wf example_one_all_free
           eq_refl (schedule_reaches _ _ _ scenario_get_erase_run)
           (two_finished _ _ _)).
Defined.

Lemma scenario_inserters_run :
  Workers.schedule [0; 0; 0; 0; 0; 1; 1; 1; 1]%nat
    (Workers.start Example.one Scenario.inserters) =
  Some Scenario.inserters_end.
Proof. reflexivity. Qed.

(** After the inserter and the finder, key 2 has the value 4. *)
Lemma concurrent_insert_among_readers_witness :
  Hashmap.getCopy 2 (Workers.shared Scenario.inserters_end) =
  Hashmap.Returns 4 (Workers.shared Scenario.inserters_end).
Proof.
  apply (concurrent_insert_among_readers Example.one Scenario.inserters
           Scenario.inserters_end example_one_wf example_one_all_free).
  - intros o [-> | [-> | []%elem_of_nil]%elem_of_cons]%elem_of_cons;
      discriminate.
  - intros k v v'
      [[= -> ->] | [[=] | []%elem_of_nil]%elem_of_cons]%elem_of_cons
      [[= ->] | [[=] | []%elem_of_nil]%elem_of_cons]%elem_of_cons.
    reflexivity.
  - exact (schedule_reaches _ _ _ scenario_inserters_run).
  - apply two_finished.
  - apply list_elem_of_here.
Defined.
